(** * AiCode app: flow builder, workflow builder and orchestrator

    A shallow embedding of [app/builders/flow-builder.ts],
    [app/builders/workflow-builder.ts], [app/orchestrator.ts] and the
    automatic mode of [app/core/aicode-engine.ts], and the properties of
    the workflow orchestration core proved about it.

    Conventions of the embedding:
    - a JavaScript [Set<string>] that is only queried with [has] is a
      [gset string]; one whose iteration order is observed
      ([Array.from(path)]) is a duplicate-free list in insertion order;
    - a JavaScript [Map<string, V>] is an association list in insertion
      order ([JsMap]);
    - closures that mutate captured variables ([errors], [visited], [sorted])
      become functions passing that state explicitly;
    - recursion through [forEach] carries a depth budget and returns [None]
      when the budget is exhausted; the budget used by the entry points is
      shown to be sufficient for every input;
    - an exception is the [Throw] case of a [Completion];
    - time is a logical clock in milliseconds. *)

From Stdlib Require Import ZArith Lia Sorted.
From stdpp Require Import base list gmap strings pretty.

#[local] Open Scope string_scope.
#[local] Open Scope list_scope.

(** ** JavaScript values, completions and maps *)

#[warnings="-register-all"]
Inductive JsValue : Type :=
| JUndefined
| JNull
| JBool (b : bool)
| JNumber (z : Z)
| JString (s : string)
| JObject (props : list (string * JsValue)).

(** [ToBoolean]: what [!x], [x || y] and [if (x)] test. *)
Definition truthy (v : JsValue) : bool :=
  match v with
  | JUndefined | JNull => false
  | JBool b => b
  | JNumber z => negb (z =? 0)%Z
  | JString s => negb (bool_decide (s = ""))
  | JObject _ => true
  end.

(** The result of running a piece of code: a value, or a thrown error
    (represented by its message). *)
Inductive Completion (A : Type) : Type :=
| Normal (a : A)
| Throw (e : string).
Arguments Normal {A} a.
Arguments Throw {A} e.

Fixpoint assoc {V : Type} (k : string) (l : list (string * V)) : option V :=
  match l with
  | [] => None
  | (k', v) :: l' => if bool_decide (k' = k) then Some v else assoc k l'
  end.

(** [v.k]: reading a property of [undefined] or [null] throws a TypeError,
    a missing property reads as [undefined]. *)
Definition getProp (v : JsValue) (k : string) : Completion JsValue :=
  match v with
  | JUndefined => Throw ("Cannot read properties of undefined (reading '" +:+ k +:+ "')")
  | JNull => Throw ("Cannot read properties of null (reading '" +:+ k +:+ "')")
  | JObject props => Normal (default JUndefined (assoc k props))
  | _ => Normal JUndefined
  end.

(** [Map<string, V>]: keys keep the position of their first insertion. *)
Module JsMap.
Definition t (V : Type) : Type := list (string * V).

Definition empty {V : Type} : t V := [].

Definition get {V : Type} (k : string) (m : t V) : option V := assoc k m.

Definition has {V : Type} (k : string) (m : t V) : bool :=
  bool_decide (is_Some (get k m)).

Fixpoint set {V : Type} (k : string) (v : V) (m : t V) : t V :=
  match m with
  | [] => [(k, v)]
  | (k', v') :: m' =>
      if bool_decide (k' = k) then (k', v) :: m' else (k', v') :: set k v m'
  end.

Definition size {V : Type} (m : t V) : nat := length m.

Definition keys {V : Type} (m : t V) : list string := m.*1.
End JsMap.

(** [xs.forEach(f)] for a callback [f] that updates captured state and may
    exhaust its budget. *)
Fixpoint forEachM {A S : Type} (f : A -> S -> option S) (xs : list A) (s : S)
  : option S :=
  match xs with
  | [] => Some s
  | x :: xs' =>
      match f x s with
      | Some s' => forEachM f xs' s'
      | None => None
      end
  end.

(** [s || d] on an optional string: absent and empty are both falsy. *)
Definition strOr (s : option string) (d : string) : string :=
  match s with
  | Some x => if bool_decide (x = "") then d else x
  | None => d
  end.

(** [Array.prototype.join]. *)
Definition join (sep : string) (xs : list string) : string :=
  String.concat sep xs.

(** ** flow-builder.ts *)

Module FlowStep.
Inductive StepType : Type := analyze | generate | test | deploy | custom.

Record t : Type := mk {
  id : string;
  name : string;
  type : StepType;
  action : string;
  optional : bool;
  dependencies : list string;
  config : JsValue
}.
End FlowStep.

Module Metadata.
Record t : Type := mk { created : Z; version : string }.
End Metadata.

Module Flow.
Record t : Type := mk {
  id : string;
  name : string;
  description : string;
  steps : list FlowStep.t;
  metadata : Metadata.t
}.
End Flow.

(** [Partial<FlowStep>]: every field may be absent. *)
Module PartialFlowStep.
Record t : Type := mk {
  id : option string;
  name : option string;
  type : option FlowStep.StepType;
  action : option string;
  optional : option bool;
  dependencies : option (list string);
  config : option JsValue
}.
End PartialFlowStep.

Module FlowConfig.
Record t : Type := mk {
  name : string;
  description : string;
  steps : list PartialFlowStep.t
}.
End FlowConfig.

Module ValidationResult.
Record t : Type := mk { valid : bool; errors : list string }.
End ValidationResult.

Module FlowBuilder.

Definition buildStep (index : nat) (step : PartialFlowStep.t) : FlowStep.t :=
  {| FlowStep.id := strOr (PartialFlowStep.id step) ("step-" +:+ pretty index);
     FlowStep.name :=
       strOr (PartialFlowStep.name step) ("Step " +:+ pretty (index + 1)%nat);
     FlowStep.type := default FlowStep.custom (PartialFlowStep.type step);
     FlowStep.action := strOr (PartialFlowStep.action step) "process";
     FlowStep.optional := default false (PartialFlowStep.optional step);
     FlowStep.dependencies := default [] (PartialFlowStep.dependencies step);
     FlowStep.config :=
       match PartialFlowStep.config step with
       | Some c => if truthy c then c else JObject []
       | None => JObject []
       end |}.

(** [buildFlow(config)]; [now] is the value of [Date.now()]. *)
Definition buildFlow (now : Z) (config : FlowConfig.t) : Flow.t :=
  {| Flow.id := "flow-" +:+ pretty now;
     Flow.name := FlowConfig.name config;
     Flow.description := FlowConfig.description config;
     Flow.steps := imap buildStep (FlowConfig.steps config);
     Flow.metadata := {| Metadata.created := now; Metadata.version := "1.0.0" |} |}.

(** [flow.steps.find(s => s.id === stepId)]. *)
Definition findStep (flow : Flow.t) (stepId : string) : option FlowStep.t :=
  find (fun s => bool_decide (FlowStep.id s = stepId)) (Flow.steps flow).

(** State captured by the closures of [validateFlow]. *)
Record CheckState : Type := mkCheck {
  visited : gset string;
  errors : list string
}.

Definition circularMessage (path : list string) (stepId : string) : string :=
  "Circular dependency detected: " +:+ join " -> " path +:+ " -> " +:+ stepId.

Definition missingMessage (stepId dep : string) : string :=
  "Step '" +:+ stepId +:+ "' has missing dependency: " +:+ dep.

(** [checkDependencies(stepId, path)]. [path] is this call's own copy of
    the set ([new Set(path)] at the call site), kept in insertion order. *)
Fixpoint checkDependencies (depth : nat) (flow : Flow.t)
    (stepId : string) (path : list string) (st : CheckState)
  : option CheckState :=
  match depth with
  | O => None
  | S depth' =>
      if bool_decide (stepId ∈ path) then
        Some {| visited := visited st;
                errors := errors st ++ [circularMessage path stepId] |}
      else if bool_decide (stepId ∈ visited st) then
        Some st
      else
        let st1 := {| visited := {[stepId]} ∪ visited st; errors := errors st |} in
        let path1 := path ++ [stepId] in
        match findStep flow stepId with
        | Some step =>
            forEachM (fun dep => checkDependencies depth' flow dep path1)
                     (FlowStep.dependencies step) st1
        | None => Some st1
        end
  end.

(** The second pass of [validateFlow]: one message per dependency id that
    no step carries. *)
Definition missingDependencies (flow : Flow.t) : list string :=
  flat_map
    (fun step =>
       flat_map
         (fun dep =>
            match findStep flow dep with
            | Some _ => []
            | None => [missingMessage (FlowStep.id step) dep]
            end)
         (FlowStep.dependencies step))
    (Flow.steps flow).

(** Recursion depth that [checkDependencies] and [visit] can reach: the
    path holds distinct step ids, plus one call below it. *)
Definition depthBudget (flow : Flow.t) : nat := S (length (Flow.steps flow)).

Definition validateFlow (flow : Flow.t) : option ValidationResult.t :=
  match
    forEachM
      (fun step => checkDependencies (depthBudget flow) flow (FlowStep.id step) [])
      (Flow.steps flow)
      {| visited := ∅; errors := [] |}
  with
  | Some st =>
      let errs := errors st ++ missingDependencies flow in
      Some {| ValidationResult.valid := bool_decide (errs = []);
              ValidationResult.errors := errs |}
  | None => None
  end.

(** State captured by the closure of [optimizeFlow]. *)
Record VisitState : Type := mkVisit {
  seen : gset string;
  sorted : list FlowStep.t
}.

(** [visit(stepId)]. *)
Fixpoint visit (depth : nat) (flow : Flow.t) (stepId : string) (st : VisitState)
  : option VisitState :=
  match depth with
  | O => None
  | S depth' =>
      if bool_decide (stepId ∈ seen st) then Some st
      else
        let st1 := {| seen := {[stepId]} ∪ seen st; sorted := sorted st |} in
        match findStep flow stepId with
        | Some step =>
            match forEachM (visit depth' flow) (FlowStep.dependencies step) st1 with
            | Some st2 =>
                Some {| seen := seen st2; sorted := sorted st2 ++ [step] |}
            | None => None
            end
        | None => Some st1
        end
  end.

Definition optimizeFlow (flow : Flow.t) : option Flow.t :=
  match
    forEachM (fun step => visit (depthBudget flow) flow (FlowStep.id step))
             (Flow.steps flow) {| seen := ∅; sorted := [] |}
  with
  | Some st =>
      Some {| Flow.id := Flow.id flow;
              Flow.name := Flow.name flow;
              Flow.description := Flow.description flow;
              Flow.steps := sorted st;
              Flow.metadata := Flow.metadata flow |}
  | None => None
  end.

(** The fields of a [FlowBuilder] instance. *)
Record t : Type := mkBuilder {
  initialized : bool;
  flows : JsMap.t Flow.t
}.

(** [new FlowBuilder()]. *)
Definition new : t := {| initialized := false; flows := JsMap.empty |}.

Definition templateStep (id name : string) (type : FlowStep.StepType)
    (action : string) (optional : bool) (dependencies : list string)
    (config : list (string * JsValue)) : FlowStep.t :=
  {| FlowStep.id := id; FlowStep.name := name; FlowStep.type := type;
     FlowStep.action := action; FlowStep.optional := optional;
     FlowStep.dependencies := dependencies; FlowStep.config := JObject config |}.

(** The three templates of [loadDefaultFlows]; [now] is the value of
    [new Date()]. *)
Definition autoTemplate (now : Z) : Flow.t :=
  {| Flow.id := "auto";
     Flow.name := "Automatic Processing";
     Flow.description := "Complete automated code processing workflow";
     Flow.steps :=
       [ templateStep "sync" "Sync Code" FlowStep.custom "sync" false [] [];
         templateStep "analyze" "Analyze Code" FlowStep.analyze "analyze" false
                      ["sync"] [("deep", JBool true)];
         templateStep "repair" "Auto Repair" FlowStep.custom "repair" true
                      ["analyze"] [("autoFix", JBool true)];
         templateStep "test" "Run Tests" FlowStep.test "test" false ["repair"] [];
         templateStep "comment" "Generate Comments" FlowStep.custom "comment" true
                      ["test"] [] ];
     Flow.metadata := {| Metadata.created := now; Metadata.version := "1.0.0" |} |}.

Definition devTemplate (now : Z) : Flow.t :=
  {| Flow.id := "dev";
     Flow.name := "Development Flow";
     Flow.description := "Flow for active development";
     Flow.steps :=
       [ templateStep "config" "Auto Config" FlowStep.custom "config" false [] [];
         templateStep "generate" "Generate Code" FlowStep.generate "generate" false
                      ["config"] [];
         templateStep "test-gen" "Generate Tests" FlowStep.test "generateTests" false
                      ["generate"] [] ];
     Flow.metadata := {| Metadata.created := now; Metadata.version := "1.0.0" |} |}.

Definition deployTemplate (now : Z) : Flow.t :=
  {| Flow.id := "deploy";
     Flow.name := "Deployment Flow";
     Flow.description := "Complete deployment workflow";
     Flow.steps :=
       [ templateStep "test" "Run All Tests" FlowStep.test "test" false []
                      [("all", JBool true)];
         templateStep "build" "Build Project" FlowStep.custom "build" false
                      ["test"] [];
         templateStep "deploy" "Deploy to Vercel" FlowStep.deploy "deploy" false
                      ["build"] [("platform", JString "vercel")] ];
     Flow.metadata := {| Metadata.created := now; Metadata.version := "1.0.0" |} |}.

Definition loadDefaultFlows (now : Z) (b : t) : t :=
  {| initialized := initialized b;
     flows :=
       JsMap.set "deploy" (deployTemplate now)
         (JsMap.set "dev" (devTemplate now)
            (JsMap.set "auto" (autoTemplate now) (flows b))) |}.

(** [initialize()]. *)
Definition initialize (now : Z) (b : t) : t :=
  {| initialized := true; flows := flows (loadDefaultFlows now b) |}.

(** The own enumerable properties that an object spread [{...v}] copies:
    those of an object, the indexed characters of a string, none for the
    other values. *)
Definition ownProps (v : JsValue) : list (string * JsValue) :=
  match v with
  | JObject props => props
  | JString s =>
      imap (fun i c => (pretty i, JString (String c EmptyString)))
           (String.list_ascii_of_string s)
  | _ => []
  end.

(** [{ ...step, config: { ...step.config, target } }]. *)
Definition withTarget (target : string) (step : FlowStep.t) : FlowStep.t :=
  {| FlowStep.id := FlowStep.id step;
     FlowStep.name := FlowStep.name step;
     FlowStep.type := FlowStep.type step;
     FlowStep.action := FlowStep.action step;
     FlowStep.optional := FlowStep.optional step;
     FlowStep.dependencies := FlowStep.dependencies step;
     FlowStep.config :=
       JObject (JsMap.set "target" (JString target)
                          (ownProps (FlowStep.config step))) |}.

(** [buildAutoFlow(target)]. *)
Definition buildAutoFlow (target : string) (b : t) : Completion Flow.t :=
  if negb (initialized b) then Throw "Flow Builder not initialized"
  else
    match JsMap.get "auto" (flows b) with
    | None => Throw "Auto flow not found"
    | Some flow =>
        Normal {| Flow.id := Flow.id flow;
                  Flow.name := Flow.name flow;
                  Flow.description := Flow.description flow;
                  Flow.steps := map (withTarget target) (Flow.steps flow);
                  Flow.metadata := Flow.metadata flow |}
    end.

(** [getFlow(name)]. *)
Definition getFlow (name : string) (b : t) : option Flow.t :=
  JsMap.get name (flows b).

(** [cloneFlow(flow, newName)]; [now] is the value of [Date.now()] and of
    [new Date()]. *)
Definition cloneFlow (now : Z) (flow : Flow.t) (newName : string) : Flow.t :=
  {| Flow.id := "flow-" +:+ pretty now;
     Flow.name := newName;
     Flow.description := Flow.description flow;
     Flow.steps := Flow.steps flow;
     Flow.metadata :=
       {| Metadata.created := now;
          Metadata.version := Metadata.version (Flow.metadata flow) |} |}.

End FlowBuilder.

(** ** core/aicode-engine.ts: the automatic mode *)

Module AiCodeResult.
Record t (D : Type) : Type := mk {
  success : bool;
  data : option D;
  errors : option (list string);
  warnings : option (list string);
  suggestions : option (list string)
}.
Arguments mk {D}.
Arguments success {D}.
Arguments data {D}.
Arguments errors {D}.
Arguments warnings {D}.
Arguments suggestions {D}.
End AiCodeResult.

(** The [data] of the result of [autoProcess]. *)
Module AutoData.
Record t : Type := mk {
  flow : Flow.t;
  results : list (AiCodeResult.t FlowStep.t)
}.
End AutoData.

Module AiCodeEngine.

(** [executeStep(step)]: the engine's step execution is a placeholder that
    reports success and hands the step back. *)
Definition executeStep (step : FlowStep.t) : AiCodeResult.t FlowStep.t :=
  {| AiCodeResult.success := true;
     AiCodeResult.data := Some step;
     AiCodeResult.errors := None;
     AiCodeResult.warnings := None;
     AiCodeResult.suggestions := None |}.

(** The [for (const step of flow.steps)] loop of [autoProcess], for a given
    [this.executeStep]: the result is pushed before the test that leaves
    the loop. *)
Fixpoint runSteps (exec : FlowStep.t -> AiCodeResult.t FlowStep.t)
    (steps : list FlowStep.t) : list (AiCodeResult.t FlowStep.t) :=
  match steps with
  | [] => []
  | step :: rest =>
      let result := exec step in
      if negb (AiCodeResult.success result) && negb (FlowStep.optional step)
      then [result]
      else result :: runSteps exec rest
  end.

(** [a.indexOf(v)], counting from [i]; [-1] when [v] does not occur. *)
Fixpoint indexOfFrom (v : string) (a : list string) (i : Z) : Z :=
  match a with
  | [] => (-1)%Z
  | x :: a' => if bool_decide (x = v) then i else indexOfFrom v a' (i + 1)%Z
  end.

Definition indexOf (v : string) (a : list string) : Z := indexOfFrom v a 0.

(** [xs.filter((v, i) => keep v i)], counting from [i]. *)
Fixpoint filterFrom (keep : string -> Z -> bool) (xs : list string) (i : Z)
  : list string :=
  match xs with
  | [] => []
  | x :: xs' =>
      if keep x i then x :: filterFrom keep xs' (i + 1)%Z
      else filterFrom keep xs' (i + 1)%Z
  end.

(** [aggregateSuggestions(results)]. *)
Definition aggregateSuggestions {D : Type} (results : list (AiCodeResult.t D))
  : list string :=
  let a := flat_map (fun r => default [] (AiCodeResult.suggestions r)) results in
  filterFrom (fun v i => bool_decide (indexOf v a = i)) a 0.

(** [autoProcess()] for a given [this.executeStep]. *)
Definition autoProcessWith (exec : FlowStep.t -> AiCodeResult.t FlowStep.t)
    (target : string) (flowBuilder : FlowBuilder.t)
  : Completion (AiCodeResult.t AutoData.t) :=
  match FlowBuilder.buildAutoFlow target flowBuilder with
  | Throw e => Throw e
  | Normal flow =>
      let results := runSteps exec (Flow.steps flow) in
      Normal {| AiCodeResult.success :=
                  forallb (fun r => AiCodeResult.success r) results;
                AiCodeResult.data :=
                  Some {| AutoData.flow := flow; AutoData.results := results |};
                AiCodeResult.errors := None;
                AiCodeResult.warnings := None;
                AiCodeResult.suggestions := Some (aggregateSuggestions results) |}
  end.

Definition autoProcess : string -> FlowBuilder.t ->
    Completion (AiCodeResult.t AutoData.t) :=
  autoProcessWith executeStep.

(** [process()] in mode ['auto']: whatever is thrown becomes a failed
    result carrying the message. *)
Definition processAuto (target : string) (flowBuilder : FlowBuilder.t)
  : AiCodeResult.t AutoData.t :=
  match autoProcess target flowBuilder with
  | Normal result => result
  | Throw e =>
      {| AiCodeResult.success := false;
         AiCodeResult.data := None;
         AiCodeResult.errors := Some [e];
         AiCodeResult.warnings := None;
         AiCodeResult.suggestions := None |}
  end.

End AiCodeEngine.

(** ** workflow-builder.ts *)

(** What one invocation of a step's [action] does: its promise fulfils or
    rejects [after] milliseconds, or never settles. An action that throws
    synchronously is [Rejects e 0]. *)
Inductive ActionRun : Type :=
| Fulfils (value : JsValue) (after : Z)
| Rejects (error : string) (after : Z)
| Pending.

Module WorkflowStep.
Record t : Type := mk {
  id : string;
  name : string;
  (** [action n] is the [n]-th invocation of the closure, counted from 0. *)
  action : nat → ActionRun;
  parallel : option bool;
  condition : option (Completion bool);
  onSuccess : option (JsValue → Completion unit);
  onError : option (string → Completion unit);
  retries : option Z;
  timeout : option Z
}.
End WorkflowStep.

Module Workflow.
Record t : Type := mk {
  id : string;
  name : string;
  steps : list WorkflowStep.t;
  parallel : bool
}.
End Workflow.

Module WorkflowResult.
Record t : Type := mk {
  success : bool;
  results : JsMap.t JsValue;
  errors : JsMap.t string;
  duration : Z
}.
End WorkflowResult.

(** What a run does that its caller can observe besides the result. *)
Inductive Event : Type :=
| Evaluated (id : string)                          (* [step.condition()] *)
| Invoked (id : string) (attempt : Z) (time : Z)   (* [action()] is called *)
| Settled (id : string) (attempt : Z) (time : Z) (ok : bool)
                                                   (* the race with the timer settles *)
| Logged (msg : string)                            (* [console.log] *)
| LoggedError (msg : string)                       (* [console.error] *)
| CalledOnSuccess (id : string)
| CalledOnError (id : string).

Module WorkflowBuilder.

(** The [workflows] map of a builder. *)
Definition t : Type := JsMap.t Workflow.t.

Definition createWorkflow (now : Z) (name : string) (workflows : t) : t :=
  JsMap.set name
    {| Workflow.id := "workflow-" +:+ pretty now;
       Workflow.name := name;
       Workflow.steps := [];
       Workflow.parallel := false |}
    workflows.

Definition addStep (workflowName : string) (step : WorkflowStep.t) (workflows : t) : t :=
  match JsMap.get workflowName workflows with
  | Some workflow =>
      JsMap.set workflowName
        {| Workflow.id := Workflow.id workflow;
           Workflow.name := Workflow.name workflow;
           Workflow.steps := Workflow.steps workflow ++ [step];
           Workflow.parallel := Workflow.parallel workflow |}
        workflows
  | None => workflows
  end.

Definition setParallel (workflowName : string) (parallel : bool) (workflows : t) : t :=
  match JsMap.get workflowName workflows with
  | Some workflow =>
      JsMap.set workflowName
        {| Workflow.id := Workflow.id workflow;
           Workflow.name := Workflow.name workflow;
           Workflow.steps := Workflow.steps workflow;
           Workflow.parallel := parallel |}
        workflows
  | None => workflows
  end.

Definition getWorkflow (name : string) (workflows : t) : option Workflow.t :=
  JsMap.get name workflows.

Definition listWorkflows (workflows : t) : list string := JsMap.keys workflows.

(** [step.retries || 0] and [step.timeout || 30000]. *)
Definition retriesOf (step : WorkflowStep.t) : Z :=
  default 0%Z (WorkflowStep.retries step).

Definition timeoutOf (step : WorkflowStep.t) : Z :=
  match WorkflowStep.timeout step with
  | Some t => if (t =? 0)%Z then 30000%Z else t
  | None => 30000%Z
  end.

(** The delay [setTimeout] really waits: Node.js uses 1 ms for a delay
    below 1 or above 2^31 - 1. *)
Definition timerDelay (timeout : Z) : Z :=
  if ((1 <=? timeout) && (timeout <=? 2147483647))%Z then timeout else 1%Z.

(** [executeWithTimeout(action, timeout)] for an invocation that behaves as
    [run]: how the race settles and after how long. The action's promise
    was created first and wins a tie. *)
Definition executeWithTimeout (run : ActionRun) (timeout : Z)
  : Completion JsValue * Z :=
  let delay := timerDelay timeout in
  match run with
  | Fulfils v after =>
      if (after <=? delay)%Z then (Normal v, Z.max 0 after) else (Throw "Timeout", delay)
  | Rejects e after =>
      if (after <=? delay)%Z then (Throw e, Z.max 0 after) else (Throw "Timeout", delay)
  | Pending => (Throw "Timeout", delay)
  end.

(** The state of one [execute] call: the clock, what happened so far, and
    the two maps that end up in the result. *)
Record Run : Type := mkRun {
  clock : Z;
  trace : list Event;
  results : JsMap.t JsValue;
  errors : JsMap.t string
}.

Definition emit (e : Event) (r : Run) : Run :=
  {| clock := clock r; trace := trace r ++ [e];
     results := results r; errors := errors r |}.

Definition advanceTo (time : Z) (r : Run) : Run :=
  {| clock := Z.max (clock r) time; trace := trace r;
     results := results r; errors := errors r |}.

Definition setResult (id : string) (v : JsValue) (r : Run) : Run :=
  {| clock := clock r; trace := trace r;
     results := JsMap.set id v (results r); errors := errors r |}.

Definition setError (id : string) (e : string) (r : Run) : Run :=
  {| clock := clock r; trace := trace r;
     results := results r; errors := JsMap.set id e (errors r) |}.

(** An attempt in flight: [executeStep] is suspended at its [await]. When
    the loop of [executeStep] runs no iteration ([retries < 0]) nothing was
    invoked and the step resolves with [undefined]. *)
Record Task : Type := mkTask {
  step : WorkflowStep.t;
  attempt : Z;
  settlesAt : Z;
  outcome : Completion JsValue;
  invoked : bool
}.

Definition isNormal {A : Type} (c : Completion A) : bool :=
  match c with Normal _ => true | Throw _ => false end.

(** One iteration of the loop of [executeStep] up to its [await]. *)
Definition launch (s : WorkflowStep.t) (k : Z) (r : Run) : Task * Run :=
  let '(c, elapsed) :=
    executeWithTimeout (WorkflowStep.action s (Z.to_nat k)) (timeoutOf s) in
  ({| step := s; attempt := k; settlesAt := (clock r + elapsed)%Z;
      outcome := c; invoked := true |},
   emit (Invoked (WorkflowStep.id s) k (clock r)) r).

(** The [await] returns or throws. *)
Definition settle (t : Task) (r : Run) : Run :=
  let r1 := advanceTo (settlesAt t) r in
  if invoked t then
    emit (Settled (WorkflowStep.id (step t)) (attempt t) (clock r1)
                  (isNormal (outcome t))) r1
  else r1.

Definition retryMessage (s : WorkflowStep.t) (k : Z) : string :=
  "Retrying step " +:+ WorkflowStep.name s +:+ " (attempt " +:+ pretty (k + 1)%Z
    +:+ "/" +:+ pretty (retriesOf s) +:+ ")".

(** The loop of [executeStep] from iteration [k] on, when every [await] is
    waited for in turn; [remaining] counts the iterations for which
    [attempt <= retries] still holds. *)
Fixpoint attemptLoop (remaining : nat) (s : WorkflowStep.t) (k : Z) (r : Run)
  : Completion JsValue * Run :=
  match remaining with
  | O => (Normal JUndefined, r)
  | S remaining' =>
      let '(t, r1) := launch s k r in
      let r2 := settle t r1 in
      match outcome t with
      | Normal v => (Normal v, r2)
      | Throw e =>
          if (k =? retriesOf s)%Z then (Throw e, r2)
          else attemptLoop remaining' s (k + 1)%Z (emit (Logged (retryMessage s k)) r2)
      end
  end.

Definition executeStep (s : WorkflowStep.t) (r : Run) : Completion JsValue * Run :=
  attemptLoop (Z.to_nat (retriesOf s + 1)) s 0%Z r.

(** [if (step.condition && !step.condition())]. *)
Inductive Guard : Type := Proceed | Skip | GuardThrew (e : string).

Definition checkCondition (s : WorkflowStep.t) (r : Run) : Guard * Run :=
  match WorkflowStep.condition s with
  | None => (Proceed, r)
  | Some c =>
      let r1 := emit (Evaluated (WorkflowStep.id s)) r in
      match c with
      | Normal true => (Proceed, r1)
      | Normal false => (Skip, r1)
      | Throw e => (GuardThrew e, r1)
      end
  end.

(** The rest of the [try] block once [executeStep] has returned [v]. *)
Definition succeed (s : WorkflowStep.t) (v : JsValue) (r : Run)
  : Completion unit * Run :=
  let r1 := setResult (WorkflowStep.id s) v r in
  match WorkflowStep.onSuccess s with
  | Some f => (f v, emit (CalledOnSuccess (WorkflowStep.id s)) r1)
  | None => (Normal tt, r1)
  end.

(** The [catch] block. *)
Definition catchBlock (s : WorkflowStep.t) (e : string) (r : Run)
  : Completion unit * Run :=
  let r1 := setError (WorkflowStep.id s) e r in
  match WorkflowStep.onError s with
  | Some f => (f e, emit (CalledOnError (WorkflowStep.id s)) r1)
  | None => (Normal tt, r1)
  end.

(** How one iteration of the loop of [executeSequential] ends. *)
Inductive Control : Type := Continue | Break | Escaped (e : string).

Definition afterCatch (c : Completion unit * Run) : Control * Run :=
  match c with
  | (Normal _, r) => (Break, r)
  | (Throw e, r) => (Escaped e, r)
  end.

Definition runStep (s : WorkflowStep.t) (r : Run) : Control * Run :=
  match checkCondition s r with
  | (Skip, r1) => (Continue, r1)
  | (GuardThrew e, r1) => afterCatch (catchBlock s e r1)
  | (Proceed, r1) =>
      match executeStep s r1 with
      | (Throw e, r2) => afterCatch (catchBlock s e r2)
      | (Normal v, r2) =>
          match succeed s v r2 with
          | (Normal _, r3) => (Continue, r3)
          | (Throw e, r3) => afterCatch (catchBlock s e r3)
          end
      end
  end.

Fixpoint executeSequential (steps : list WorkflowStep.t) (r : Run)
  : Completion unit * Run :=
  match steps with
  | [] => (Normal tt, r)
  | s :: steps' =>
      match runStep s r with
      | (Continue, r1) => executeSequential steps' r1
      | (Break, r1) => (Normal tt, r1)
      | (Escaped e, r1) => (Throw e, r1)
      end
  end.

(** The state of [executeParallel]: the attempts in flight in the order
    they were started, and the time at which [Promise.all] rejected. *)
Record ParRun : Type := mkPar {
  run : Run;
  tasks : list Task;
  rejectedAt : option Z
}.

Definition withRun (r : Run) (p : ParRun) : ParRun :=
  {| run := r; tasks := tasks p; rejectedAt := rejectedAt p |}.

Definition addTask (t : Task) (p : ParRun) : ParRun :=
  {| run := run p; tasks := tasks p ++ [t]; rejectedAt := rejectedAt p |}.

(** The promise of a step's callback settles: a rejection is the first one
    [Promise.all] sees, or is ignored. *)
Definition finish (c : Completion unit * Run) (p : ParRun) : ParRun :=
  match c with
  | (Normal _, r) => withRun r p
  | (Throw _, r) =>
      {| run := r; tasks := tasks p;
         rejectedAt := match rejectedAt p with
                       | Some time => Some time
                       | None => Some (clock r)
                       end |}
  end.

(** [executeStep] up to its first [await]. *)
Definition beginStep (s : WorkflowStep.t) (r : Run) : Task * Run :=
  if (0 <=? retriesOf s)%Z then launch s 0%Z r
  else ({| step := s; attempt := 0%Z; settlesAt := clock r;
           outcome := Normal JUndefined; invoked := false |}, r).

(** The callback of [workflow.steps.map] up to its first [await]. *)
Definition startStep (s : WorkflowStep.t) (p : ParRun) : ParRun :=
  match checkCondition s (run p) with
  | (Skip, r1) => withRun r1 p
  | (GuardThrew e, r1) => finish (catchBlock s e r1) p
  | (Proceed, r1) => let '(t, r2) := beginStep s r1 in addTask t (withRun r2 p)
  end.

(** The callback resumes after the [await] of task [t]: the rest of the
    loop iteration of [executeStep], then the next iteration up to its
    [await] or the rest of the callback. *)
Definition resume (t : Task) (p : ParRun) : ParRun :=
  let s := step t in
  let r1 := settle t (run p) in
  match outcome t with
  | Normal v =>
      match succeed s v r1 with
      | (Normal _, r2) => withRun r2 p
      | (Throw e, r2) => finish (catchBlock s e r2) p
      end
  | Throw e =>
      if (attempt t =? retriesOf s)%Z then finish (catchBlock s e r1) p
      else
        let r2 := emit (Logged (retryMessage s (attempt t))) r1 in
        if (attempt t + 1 <=? retriesOf s)%Z then
          let '(t', r3) := launch s (attempt t + 1)%Z r2 in
          addTask t' (withRun r3 p)
        else
          match succeed s JUndefined r2 with
          | (Normal _, r3) => withRun r3 p
          | (Throw e', r3) => finish (catchBlock s e' r3) p
          end
  end.

(** The task that settles first, and the others; among tasks settling at
    the same time the one started first. *)
Fixpoint takeEarliest (t : Task) (ts : list Task) : Task * list Task :=
  match ts with
  | [] => (t, [])
  | t' :: ts' =>
      let '(m, rest) := takeEarliest t' ts' in
      if (settlesAt m <? settlesAt t)%Z then (m, t :: rest) else (t, t' :: ts')
  end.

(** [console.error('Workflow execution failed:', error)]. *)
Definition reportFailure (r : Run) : Run :=
  emit (LoggedError "Workflow execution failed:") r.

(** The event loop until no attempt is in flight; [budget] bounds the
    number of attempts still to settle. *)
Fixpoint drain (budget : nat) (p : ParRun) : option ParRun :=
  match tasks p with
  | [] => Some p
  | t :: ts =>
      match budget with
      | O => None
      | S budget' =>
          let '(m, rest) := takeEarliest t ts in
          let p1 := resume m {| run := run p; tasks := rest; rejectedAt := rejectedAt p |} in
          let p2 :=
            match rejectedAt p, rejectedAt p1 with
            | None, Some _ => withRun (reportFailure (run p1)) p1
            | _, _ => p1
            end in
          drain budget' p2
      end
  end.

(** The attempts a task can still make, itself included. *)
Definition attemptsLeft (t : Task) : nat :=
  S (Z.to_nat (retriesOf (step t) - attempt t)).

Definition launchAll (steps : list WorkflowStep.t) (r : Run) : ParRun :=
  let p := fold_left (fun p s => startStep s p) steps
                     {| run := r; tasks := []; rejectedAt := None |} in
  match rejectedAt p with
  | Some _ => withRun (reportFailure (run p)) p
  | None => p
  end.

Definition executeParallel (steps : list WorkflowStep.t) (r : Run) : option ParRun :=
  let p := launchAll steps r in
  drain (sum_list_with attemptsLeft (tasks p)) p.

(** A finished [execute] call: the result it returns and what happened.
    [results] and [errors] are the two map objects themselves, with the
    entries they hold once no attempt is in flight any more. *)
Record Execution : Type := mkExecution {
  result : WorkflowResult.t;
  events : list Event
}.

(** [execute(workflowName)], called at time [now]. [None]: the event loop
    exhausted its budget. *)
Definition execute (workflows : t) (workflowName : string) (now : Z)
  : option (Completion Execution) :=
  match JsMap.get workflowName workflows with
  | None => Some (Throw ("Workflow '" +:+ workflowName +:+ "' not found"))
  | Some workflow =>
      let r0 := {| clock := now; trace := []; results := JsMap.empty;
                   errors := JsMap.empty |} in
      let finished :=
        if Workflow.parallel workflow then
          match executeParallel (Workflow.steps workflow) r0 with
          | Some p => Some (run p, default (clock (run p)) (rejectedAt p))
          | None => None
          end
        else
          match executeSequential (Workflow.steps workflow) r0 with
          | (Normal _, r) => Some (r, clock r)
          | (Throw _, r) => Some (reportFailure r, clock r)
          end in
      match finished with
      | Some (r, returnedAt) =>
          Some (Normal
                  {| result :=
                       {| WorkflowResult.success :=
                            bool_decide (JsMap.size (errors r) = 0%nat);
                          WorkflowResult.results := results r;
                          WorkflowResult.errors := errors r;
                          WorkflowResult.duration := (returnedAt - now)%Z |};
                     events := trace r |})
      | None => None
      end
  end.

End WorkflowBuilder.

(** A node of a dependency graph handed to the engine: a workflow step with
    the dependency ids and the optional flag declared for it. [WorkflowStep]
    has no field for either; the engine is given the steps alone. *)
Module Node.
Record t : Type := mk {
  step : WorkflowStep.t;
  dependencies : list string;
  optional : bool
}.

Definition id (n : t) : string := WorkflowStep.id (step n).
End Node.

(** ** orchestrator.ts *)

Module OrchestratorConfig.
Record t : Type := mk {
  target : string;
  (** Declared as ['full' | 'development' | 'ci' | 'deployment']; the
      command line passes [process.argv[2]] through unchecked. *)
  mode : string;
  watch : option bool;
  interval : option Z;
  deployPlatform : option string
}.
End OrchestratorConfig.

Module OrchestratorResult.
Record t : Type := mk {
  success : bool;
  phases : JsMap.t JsValue;
  duration : Z;
  timestamp : Z
}.
End OrchestratorResult.

(** What a call to one of the automation utilities does: the value its
    promise fulfils with or the error it rejects with, and how long it
    takes. *)
Record ToolRun : Type := mkToolRun {
  completion : Completion JsValue;
  elapsed : Z
}.

(** The utilities the orchestrator drives, by the method it calls on them;
    each is given the target path, [deploy] the platform. What they do
    (shell commands, files) is outside the orchestration core: a run is
    described for arbitrary behaviours of the utilities. *)
Module Tools.
Record t : Type := mk {
  sync : string → ToolRun;          (* AutoSync.sync *)
  configure : string → ToolRun;     (* AutoConfig.configure *)
  initialize : string → ToolRun;    (* AiCodeEngine.initialize *)
  process : string → ToolRun;       (* AiCodeEngine.process *)
  repair : string → ToolRun;        (* AutoRepair.repair *)
  fix_ : string → ToolRun;          (* AutoFix.fix *)
  test : string → ToolRun;          (* AutoTest.test *)
  generate : string → ToolRun;      (* AutoComments.generate *)
  deploy : string → ToolRun         (* AutoDeploy.deploy *)
}.
End Tools.

Inductive OrchestratorEvent : Type :=
| Called (method : string) (argument : string)
| Reported (error : string).          (* [console.error] *)

Module AiCodeOrchestrator.

Record State : Type := mkState {
  clock : Z;
  calls : list OrchestratorEvent;
  phases : JsMap.t JsValue
}.

(** Code that reads and updates the state of a run and may throw. *)
Definition Orch (A : Type) : Type := State → Completion A * State.

#[export] Instance orch_ret : MRet Orch := λ A a s, (Normal a, s).

#[export] Instance orch_bind : MBind Orch := λ A B k m s,
  match m s with
  | (Normal a, s1) => k a s1
  | (Throw e, s1) => (Throw e, s1)
  end.

Definition throw {A : Type} (e : string) : Orch A := λ s, (Throw e, s).

(** [await tool.method()]. *)
Definition call (method argument : string) (run : ToolRun) : Orch JsValue := λ s,
  (completion run,
   {| clock := (clock s + Z.max 0 (elapsed run))%Z;
      calls := calls s ++ [Called method argument];
      phases := phases s |}).

(** [result.phases.set(name, value)]. *)
Definition setPhase (name : string) (value : JsValue) : Orch unit := λ s,
  (Normal tt,
   {| clock := clock s; calls := calls s;
      phases := JsMap.set name value (phases s) |}).

(** [value.key], which throws on [undefined] and [null]. *)
Definition prop (value : JsValue) (key : string) : Orch JsValue := λ s,
  (getProp value key, s).

Section Run.
Variable config : OrchestratorConfig.t.
Variable tools : Tools.t.

Definition target : string := OrchestratorConfig.target config.

Definition runAutoSync : Orch JsValue :=
  call "sync" target (Tools.sync tools target).

Definition runAutoConfig : Orch JsValue :=
  _ ← call "configure" target (Tools.configure tools target);
  mret (JObject [("success", JBool true)]).

Definition runAnalysis : Orch JsValue :=
  _ ← call "initialize" target (Tools.initialize tools target);
  call "process" target (Tools.process tools target).

Definition runAutoRepair : Orch JsValue :=
  call "repair" target (Tools.repair tools target).

Definition runAutoFix : Orch JsValue :=
  call "fix" target (Tools.fix_ tools target).

Definition runAutoTest : Orch JsValue :=
  call "test" target (Tools.test tools target).

Definition runAutoComments : Orch JsValue :=
  call "generate" target (Tools.generate tools target).

Definition runAutoDeploy : Orch JsValue :=
  let platform :=
    strOr (OrchestratorConfig.deployPlatform config) "vercel" in
  call "deploy" platform (Tools.deploy tools platform).

Definition runFullAutomation : Orch unit :=
  syncResult ← runAutoSync;
  _ ← setPhase "sync" syncResult;
  configResult ← runAutoConfig;
  _ ← setPhase "config" configResult;
  analysisResult ← runAnalysis;
  _ ← setPhase "analysis" analysisResult;
  repairResult ← runAutoRepair;
  _ ← setPhase "repair" repairResult;
  fixResult ← runAutoFix;
  _ ← setPhase "fix" fixResult;
  testResult ← runAutoTest;
  _ ← setPhase "test" testResult;
  commentsResult ← runAutoComments;
  _ ← setPhase "comments" commentsResult;
  match OrchestratorConfig.deployPlatform config with
  | Some platform =>
      if bool_decide (platform = "") then mret tt
      else
        deployResult ← runAutoDeploy;
        setPhase "deploy" deployResult
  | None => mret tt
  end.

Definition runDevelopmentMode : Orch unit :=
  _ ← runAutoSync;
  _ ← runAnalysis;
  _ ← runAutoRepair;
  _ ← runAutoTest;
  _ ← runAutoComments;
  mret tt.

Definition runCIMode : Orch unit :=
  analysisResult ← runAnalysis;
  _ ← setPhase "analysis" analysisResult;
  repairResult ← runAutoRepair;
  _ ← setPhase "repair" repairResult;
  testResult ← runAutoTest;
  _ ← setPhase "test" testResult;
  success ← prop testResult "success";
  if truthy success then mret tt else throw "Tests failed in CI mode".

Definition runDeploymentMode : Orch unit :=
  testResult ← runAutoTest;
  _ ← setPhase "test" testResult;
  success ← prop testResult "success";
  if truthy success then
    deployResult ← runAutoDeploy;
    setPhase "deploy" deployResult
  else throw "Tests must pass before deployment".

(** The [switch] of [orchestrate]; a mode without a case runs nothing. *)
Definition dispatch : Orch unit :=
  match OrchestratorConfig.mode config with
  | "full" => runFullAutomation
  | "development" => runDevelopmentMode
  | "ci" => runCIMode
  | "deployment" => runDeploymentMode
  | _ => mret tt
  end.

(** [orchestrate()], called at time [now]: the result and what the run
    did. The progress lines written with [console.log] are left out. *)
Definition orchestrate (now : Z) : OrchestratorResult.t * list OrchestratorEvent :=
  match dispatch {| clock := now; calls := []; phases := JsMap.empty |} with
  | (Normal _, s) =>
      ({| OrchestratorResult.success := true;
          OrchestratorResult.phases := phases s;
          OrchestratorResult.duration := (clock s - now)%Z;
          OrchestratorResult.timestamp := now |},
       calls s)
  | (Throw e, s) =>
      ({| OrchestratorResult.success := false;
          OrchestratorResult.phases := phases s;
          OrchestratorResult.duration := (clock s - now)%Z;
          OrchestratorResult.timestamp := now |},
       calls s ++ [Reported e])
  end.
End Run.

End AiCodeOrchestrator.

(** ** The dependency graph of a flow *)

Module Graph.

Definition ids (flow : Flow.t) : list string :=
  map FlowStep.id (Flow.steps flow).

(** Some step with id [x] declares the dependency [y]. *)
Definition dependsOn (flow : Flow.t) (x y : string) : Prop :=
  ∃ s, s ∈ Flow.steps flow ∧ FlowStep.id s = x ∧ y ∈ FlowStep.dependencies s.

Definition hasCycle (flow : Flow.t) : Prop := ∃ x, tc (dependsOn flow) x x.

Definition acyclic (flow : Flow.t) : Prop := ∀ x, ¬ tc (dependsOn flow) x x.

Definition fullyReferenced (flow : Flow.t) : Prop :=
  ∀ x y, dependsOn flow x y → y ∈ ids flow.

Definition distinctIds (flow : Flow.t) : Prop := NoDup (ids flow).

(** The dependencies the builder itself sees for an id: those of the first
    step carrying it. *)
Definition edge (flow : Flow.t) (x y : string) : Prop :=
  ∃ s, FlowBuilder.findStep flow x = Some s ∧ y ∈ FlowStep.dependencies s.

(** Consecutive elements of [l] are linked by declared dependencies. *)
Definition isChain (flow : Flow.t) (l : list string) : Prop :=
  ∀ i a b, l !! i = Some a → l !! S i = Some b → dependsOn flow a b.

(** A message of the cycle check that names a dependency chain leading back
    to a step already on it. *)
Definition namesCycle (flow : Flow.t) (msg : string) : Prop :=
  ∃ path x,
    msg = FlowBuilder.circularMessage path x ∧ x ∈ path ∧ isChain flow (path ++ [x]).

(** Every step of [l] comes after the steps its dependencies name. *)
Definition dependenciesFirst (l : list FlowStep.t) : Prop :=
  ∀ i s d,
    l !! i = Some s → d ∈ FlowStep.dependencies s →
    ∃ j t, (j < i)%nat ∧ l !! j = Some t ∧ FlowStep.id t = d.

End Graph.

(** ** Notions used to state the behaviour of the engine *)

Module Engine.
Import WorkflowBuilder.

(** Attempt [k] of the step rejects or is overtaken by the timer. *)
Definition attemptFails (s : WorkflowStep.t) (k : Z) : Prop :=
  isNormal (executeWithTimeout (WorkflowStep.action s (Z.to_nat k)) (timeoutOf s)).1
  = false.

Definition isInvocation (ev : Event) : bool :=
  match ev with Invoked _ _ _ => true | _ => false end.

Definition isSettlement (ev : Event) : bool :=
  match ev with Settled _ _ _ _ => true | _ => false end.

(** The step an event is about. *)
Definition eventId (ev : Event) : option string :=
  match ev with
  | Evaluated id | Invoked id _ _ | Settled id _ _ _
  | CalledOnSuccess id | CalledOnError id => Some id
  | Logged _ | LoggedError _ => None
  end.

(** The step's condition lets it run. *)
Definition enabled (s : WorkflowStep.t) : bool :=
  match WorkflowStep.condition s with
  | None | Some (Normal true) => true
  | Some (Normal false) | Some (Throw _) => false
  end.

(** The step is attempted and every attempt it is allowed fails. *)
Definition stepFails (s : WorkflowStep.t) : Prop :=
  enabled s = true ∧ (0 ≤ retriesOf s)%Z ∧
  ∀ k, (0 ≤ k ≤ retriesOf s)%Z → attemptFails s k.

(** The step is started: its condition lets it run and the loop of
    [executeStep] makes a first iteration. *)
Definition launchable (s : WorkflowStep.t) : bool :=
  enabled s && (0 <=? retriesOf s)%Z.

(** Every invocation of a node's action comes after an attempt of each of
    its declared dependencies has settled. *)
Definition respectsDependencies (nodes : list Node.t) (events : list Event) : Prop :=
  ∀ n d i k t,
    n ∈ nodes → d ∈ Node.dependencies n →
    events !! i = Some (Invoked (Node.id n) k t) →
    ∃ j k' t' ok, (j < i)%nat ∧ events !! j = Some (Settled d k' t' ok).

(** The steps of [nodes] as the workflow "graph", and a builder holding
    it. *)
Definition graphWorkflow (parallel : bool) (nodes : list Node.t) : Workflow.t :=
  {| Workflow.id := "workflow-0"; Workflow.name := "graph";
     Workflow.steps := map Node.step nodes; Workflow.parallel := parallel |}.

Definition workflowOf (parallel : bool) (nodes : list Node.t) : WorkflowBuilder.t :=
  [("graph", graphWorkflow parallel nodes)].

(** After an optional node that failed, the run goes on: the action of the
    next node is invoked if that node can start. *)
Definition optionalFailuresContinue
    (nodes : list Node.t) (ex : Execution) : Prop :=
  ∀ i n m,
    nodes !! i = Some n → nodes !! S i = Some m →
    Node.optional n = true →
    is_Some (JsMap.get (Node.id n) (WorkflowResult.errors (result ex))) →
    launchable (Node.step m) = true →
    ∃ k t, Invoked (Node.id m) k t ∈ events ex.

End Engine.

(** ** Invariants of the walks over a flow and of a run *)

Module Walk.
Import FlowBuilder.

(** What holds of the walk's state while the calls for the ids of [path]
    are still open. *)
Record visitInv (flow : Flow.t) (path : list string) (st : VisitState) : Prop := {
  vi_path_nodup : NoDup path;
  vi_path_ids : ∀ y, y ∈ path → y ∈ Graph.ids flow;
  vi_path_seen : ∀ y, y ∈ path → y ∈ seen st;
  vi_sorted_found : ∀ s, s ∈ sorted st → findStep flow (FlowStep.id s) = Some s;
  vi_sorted_seen : ∀ s, s ∈ sorted st → FlowStep.id s ∈ seen st;
  vi_sorted_nodup : NoDup (map FlowStep.id (sorted st));
  vi_sorted_fresh : ∀ y, y ∈ path → y ∉ map FlowStep.id (sorted st);
  vi_seen_done :
    ∀ y, y ∈ seen st → y ∈ Graph.ids flow →
         y ∈ map FlowStep.id (sorted st) ∨ y ∈ path;
  vi_order :
    Graph.acyclic flow → Graph.fullyReferenced flow →
    Graph.dependenciesFirst (sorted st)
}.

Definition seenGrows (st st' : VisitState) : Prop := seen st ⊆ seen st'.

(** An id is finished when its call has returned: visited and no longer on
    the path. *)
Definition finished (path : list string) (st : CheckState) (y : string) : Prop :=
  y ∈ visited st ∧ y ∉ path.

Record checkInv (flow : Flow.t) (path : list string) (st : CheckState) : Prop := {
  ci_path_nodup : NoDup path;
  ci_path_ids : ∀ y, y ∈ path → y ∈ Graph.ids flow;
  ci_path_visited : ∀ y, y ∈ path → y ∈ visited st;
  ci_errors : Forall (Graph.namesCycle flow) (errors st);
  ci_finished :
    errors st = [] →
    ∀ y, finished path st y →
         (∀ d, Graph.edge flow y d → finished path st d) ∧
         ¬ tc (Graph.edge flow) y y
}.

Definition checkStep (st st' : CheckState) : Prop :=
  visited st ⊆ visited st' ∧ (errors st' = [] → errors st = []).

End Walk.

Module Footprint.
Import WorkflowBuilder Engine.

(** The event is about one of the steps [ids], or about none. *)
Definition about (ids : list string) (ev : Event) : Prop :=
  ∀ i, eventId ev = Some i → i ∈ ids.

(** [r'] continues [r] and the difference concerns the steps [ids] only. *)
Record extends (ids : list string) (r r' : Run) : Prop := {
  ext_trace : ∃ new, trace r' = trace r ++ new ∧ Forall (about ids) new;
  ext_clock : (clock r ≤ clock r')%Z;
  ext_results :
    ∀ k, is_Some (JsMap.get k (results r')) →
         is_Some (JsMap.get k (results r)) ∨ k ∈ ids;
  ext_errors :
    ∀ k, is_Some (JsMap.get k (errors r')) →
         is_Some (JsMap.get k (errors r)) ∨ k ∈ ids;
  ext_errors_kept :
    ∀ k, is_Some (JsMap.get k (errors r)) → is_Some (JsMap.get k (errors r'))
}.

Definition stepsAmong (ids : list string) (ts : list Task) : Prop :=
  ∀ t, t ∈ ts → WorkflowStep.id (step t) ∈ ids.

Definition noSettlement (evs : list Event) : Prop :=
  Forall (λ ev, isSettlement ev = false) evs.

End Footprint.

(** ** Notions used to state the behaviour of the orchestrator *)

Module Utilities.

(** The value a call fulfils with. *)
Definition valueOf (run : ToolRun) : JsValue :=
  match completion run with
  | Normal v => v
  | Throw _ => JUndefined
  end.

Definition fulfils (run : ToolRun) : Prop :=
  completion run = Normal (valueOf run).

(** No call to a utility rejects. *)
Definition reliable (tools : Tools.t) : Prop :=
  ∀ argument,
    fulfils (Tools.sync tools argument) ∧ fulfils (Tools.configure tools argument) ∧
    fulfils (Tools.initialize tools argument) ∧ fulfils (Tools.process tools argument) ∧
    fulfils (Tools.repair tools argument) ∧ fulfils (Tools.fix_ tools argument) ∧
    fulfils (Tools.test tools argument) ∧ fulfils (Tools.generate tools argument) ∧
    fulfils (Tools.deploy tools argument).

(** [!value.success] is false: reading the property does not throw and
    gives a truthy value. *)
Definition reportsSuccess (value : JsValue) : bool :=
  match getProp value "success" with
  | Normal x => truthy x
  | Throw _ => false
  end.

(** [if (this.config.deployPlatform)]. *)
Definition deploys (config : OrchestratorConfig.t) : bool :=
  match OrchestratorConfig.deployPlatform config with
  | Some platform => negb (bool_decide (platform = ""))
  | None => false
  end.

(** The platform [runAutoDeploy] passes on. *)
Definition platform (config : OrchestratorConfig.t) : string :=
  strOr (OrchestratorConfig.deployPlatform config) "vercel".

Definition isCall (ev : OrchestratorEvent) : bool :=
  match ev with Called _ _ => true | Reported _ => false end.

End Utilities.

(** ** How a step of a workflow fares *)

Module Outcome.
Import WorkflowBuilder Engine.

(** Attempt [k] of the step settles with the value [v] before the timer. *)
Definition attemptSucceeds (s : WorkflowStep.t) (k : Z) (v : JsValue) : Prop :=
  (executeWithTimeout (WorkflowStep.action s (Z.to_nat k)) (timeoutOf s)).1 = Normal v.

(** Attempt [k] of the step is still unsettled when the timer fires. *)
Definition attemptTimesOut (s : WorkflowStep.t) (k : Z) : Prop :=
  match WorkflowStep.action s (Z.to_nat k) with
  | Fulfils _ after | Rejects _ after => (timerDelay (timeoutOf s) < after)%Z
  | Pending => True
  end.

(** The attempts before [k] fail and attempt [k], one the step is allowed,
    succeeds with [v]. *)
Definition succeedsAt (s : WorkflowStep.t) (k : Z) (v : JsValue) : Prop :=
  (0 ≤ k ≤ retriesOf s)%Z ∧
  (∀ j, (0 ≤ j < k)%Z → attemptFails s j) ∧
  attemptSucceeds s k v.

(** [onSuccess], if there is one, returns on [v]. *)
Definition callbackAccepts (s : WorkflowStep.t) (v : JsValue) : Prop :=
  match WorkflowStep.onSuccess s with
  | Some f => isNormal (f v) = true
  | None => True
  end.

(** The step runs and ends well with the value [v]. *)
Definition stepSucceeds (s : WorkflowStep.t) (v : JsValue) : Prop :=
  enabled s = true ∧ (∃ k, succeedsAt s k v) ∧ callbackAccepts s v.

(** The step's condition returns false. *)
Definition skipped (s : WorkflowStep.t) : Prop :=
  WorkflowStep.condition s = Some (Normal false).









(** The builders that the methods of [WorkflowBuilder] can produce. *)
Inductive built : WorkflowBuilder.t → Prop :=
| built_new : built JsMap.empty
| built_createWorkflow now name b :
    built b → built (createWorkflow now name b)
| built_addStep name step b :
    built b → built (addStep name step b)
| built_setParallel name parallel b :
    built b → built (setParallel name parallel b).

End Outcome.

(** ** Flows and workflows used as examples *)

Module Examples.

Definition flowStep (id : string) (dependencies : list string) : FlowStep.t :=
  {| FlowStep.id := id; FlowStep.name := id; FlowStep.type := FlowStep.custom;
     FlowStep.action := "process"; FlowStep.optional := false;
     FlowStep.dependencies := dependencies; FlowStep.config := JObject [] |}.

Definition flowOf (steps : list FlowStep.t) : Flow.t :=
  {| Flow.id := "flow-0"; Flow.name := "example"; Flow.description := "";
     Flow.steps := steps;
     Flow.metadata := {| Metadata.created := 0; Metadata.version := "1.0.0" |} |}.

(** A depends on B and B on A. *)
Definition cyclicFlow : Flow.t :=
  flowOf [flowStep "A" ["B"]; flowStep "B" ["A"]].

(** A depends on an id that no step carries. *)
Definition ghostFlow : Flow.t := flowOf [flowStep "A" ["ghost"]].

(** test after analyze after sync, declared in the reverse order. *)
Definition chainFlow : Flow.t :=
  flowOf [flowStep "test" ["analyze"]; flowStep "analyze" ["sync"];
          flowStep "sync" []].

(** Two declarations with the same id. *)
Definition duplicateConfig : FlowConfig.t :=
  let declaration :=
    {| PartialFlowStep.id := Some "a"; PartialFlowStep.name := None;
       PartialFlowStep.type := None; PartialFlowStep.action := None;
       PartialFlowStep.optional := None; PartialFlowStep.dependencies := None;
       PartialFlowStep.config := None |} in
  {| FlowConfig.name := "duplicates"; FlowConfig.description := "";
     FlowConfig.steps := [declaration; declaration] |}.

(** A step without condition, callbacks or timeout. *)
Definition workflowStep (id : string) (action : nat → ActionRun)
    (retries : option Z) : WorkflowStep.t :=
  {| WorkflowStep.id := id; WorkflowStep.name := id;
     WorkflowStep.action := action;
     WorkflowStep.parallel := None; WorkflowStep.condition := None;
     WorkflowStep.onSuccess := None; WorkflowStep.onError := None;
     WorkflowStep.retries := retries; WorkflowStep.timeout := None |}.

(** Fulfils with its own id after 10 ms. *)
Definition succeeding (id : string) : WorkflowStep.t :=
  workflowStep id (λ _, Fulfils (JString id) 10) None.

(** Rejects after 5 ms, every time. *)
Definition failing (id : string) (retries : option Z) : WorkflowStep.t :=
  workflowStep id (λ _, Rejects "boom" 5) retries.

Definition freshRun (now : Z) : WorkflowBuilder.Run :=
  {| WorkflowBuilder.clock := now; WorkflowBuilder.trace := [];
     WorkflowBuilder.results := JsMap.empty;
     WorkflowBuilder.errors := JsMap.empty |}.

(** B declares a dependency on A. *)
Definition dependentNodes : list Node.t :=
  [ {| Node.step := succeeding "A"; Node.dependencies := [];
       Node.optional := false |};
    {| Node.step := succeeding "B"; Node.dependencies := ["A"];
       Node.optional := false |} ].

(** A and B declare a dependency on each other. *)
Definition cyclicNodes : list Node.t :=
  [ {| Node.step := succeeding "A"; Node.dependencies := ["B"];
       Node.optional := false |};
    {| Node.step := succeeding "B"; Node.dependencies := ["A"];
       Node.optional := false |} ].

(** An optional node whose action fails, followed by B. *)
Definition optionalNodes : list Node.t :=
  [ {| Node.step := failing "A" None; Node.dependencies := [];
       Node.optional := true |};
    {| Node.step := succeeding "B"; Node.dependencies := [];
       Node.optional := false |} ].

(** Utilities that all report success, except that the tests fail. *)
Definition reports (success : bool) : string → ToolRun :=
  λ _, {| completion := Normal (JObject [("success", JBool success)]);
          elapsed := 1 |}.

Definition failingTests : Tools.t :=
  {| Tools.sync := reports true; Tools.configure := reports true;
     Tools.initialize := reports true; Tools.process := reports true;
     Tools.repair := reports true; Tools.fix_ := reports true;
     Tools.test := reports false; Tools.generate := reports true;
     Tools.deploy := reports true |}.

Definition orchestratorConfig (mode : string) : OrchestratorConfig.t :=
  {| OrchestratorConfig.target := "."; OrchestratorConfig.mode := mode;
     OrchestratorConfig.watch := None; OrchestratorConfig.interval := None;
     OrchestratorConfig.deployPlatform := None |}.

(** Utilities that all report success. *)
Definition passingTests : Tools.t :=
  {| Tools.sync := reports true; Tools.configure := reports true;
     Tools.initialize := reports true; Tools.process := reports true;
     Tools.repair := reports true; Tools.fix_ := reports true;
     Tools.test := reports true; Tools.generate := reports true;
     Tools.deploy := reports true |}.

(** Rejects twice, then fulfils; three retries allowed. *)
Definition flaky : WorkflowStep.t :=
  workflowStep "flaky"
    (λ n, if (n <? 2)%nat then Rejects "boom" 5 else Fulfils (JString "ok") 10)
    (Some 3%Z).

(** Never settles; one retry allowed. *)
Definition hanging : WorkflowStep.t :=
  workflowStep "hanging" (λ _, Pending) (Some 1%Z).

(** Succeeds, but its [onSuccess] callback throws. *)
Definition rejectingCallback : WorkflowStep.t :=
  {| WorkflowStep.id := "notify"; WorkflowStep.name := "notify";
     WorkflowStep.action := λ _, Fulfils (JString "sent") 10;
     WorkflowStep.parallel := None; WorkflowStep.condition := None;
     WorkflowStep.onSuccess := Some (λ _, Throw "callback failed");
     WorkflowStep.onError := None;
     WorkflowStep.retries := None; WorkflowStep.timeout := None |}.

(** A step execution that fails on the step with the given id. *)
Definition failingAt (id : string) (step : FlowStep.t) : AiCodeResult.t FlowStep.t :=
  {| AiCodeResult.success := negb (bool_decide (FlowStep.id step = id));
     AiCodeResult.data := Some step;
     AiCodeResult.errors := None;
     AiCodeResult.warnings := None;
     AiCodeResult.suggestions := None |}.

(** sync, then analyze, then test, declared in that order. *)
Definition orderedFlow : Flow.t :=
  flowOf [flowStep "sync" []; flowStep "analyze" ["sync"];
          flowStep "test" ["analyze"]].

(** Two declarations that leave every field out. *)
Definition anonymousConfig : FlowConfig.t :=
  let declaration :=
    {| PartialFlowStep.id := None; PartialFlowStep.name := None;
       PartialFlowStep.type := None; PartialFlowStep.action := None;
       PartialFlowStep.optional := None; PartialFlowStep.dependencies := None;
       PartialFlowStep.config := None |} in
  {| FlowConfig.name := "anonymous"; FlowConfig.description := "";
     FlowConfig.steps := [declaration; declaration] |}.

End Examples.

(** * Properties *)

(** ** Iteration *)

Section ForEach.
Context {A S : Type} (f : A → S → option S).
Context (P : S → Prop) (R : S → S → Prop) (Q : A → S → Prop).
Hypothesis R_refl : ∀ s, R s s.
Hypothesis R_trans : ∀ s1 s2 s3, R s1 s2 → R s2 s3 → R s1 s3.
Hypothesis Q_mono : ∀ x s s', Q x s → R s s' → Q x s'.

Lemma forEachM_spec (xs : list A) (s : S) :
  P s →
  (∀ x s0, x ∈ xs → P s0 → R s s0 →
           ∃ s1, f x s0 = Some s1 ∧ P s1 ∧ R s0 s1 ∧ Q x s1) →
  ∃ s', forEachM f xs s = Some s' ∧ P s' ∧ R s s' ∧ ∀ x, x ∈ xs → Q x s'.
Proof using R_refl R_trans Q_mono.
  revert s. induction xs as [|x xs IH]; intros s HP Hstep; simpl.
  - exists s. split_and!; auto. intros x Hx. by apply elem_of_nil in Hx.
  - destruct (Hstep x s) as (s1 & Hf & HP1 & HR1 & HQ1); auto.
    { apply elem_of_cons; auto. }
    rewrite Hf.
    destruct (IH s1 HP1) as (s' & Hfold & HP' & HR' & HQ').
    { intros y s0 Hy HP0 HR0. apply Hstep; eauto. apply elem_of_cons; auto. }
    exists s'. split_and!; eauto.
    intros y Hy. apply elem_of_cons in Hy as [->|Hy]; eauto.
Qed.
End ForEach.

(** ** Looking steps up by id *)

Section FindStep.
Variable flow : Flow.t.

Lemma findStep_Some x s :
  FlowBuilder.findStep flow x = Some s → s ∈ Flow.steps flow ∧ FlowStep.id s = x.
Proof.
  unfold FlowBuilder.findStep. intros H.
  apply find_some in H as [Hin Heq].
  apply bool_decide_eq_true in Heq. split; [by apply list_elem_of_In | done].
Qed.

Lemma findStep_None x :
  FlowBuilder.findStep flow x = None ↔ x ∉ Graph.ids flow.
Proof.
  unfold FlowBuilder.findStep, Graph.ids. split.
  - intros H Hin. apply list_elem_of_fmap in Hin as (s & -> & Hs).
    apply list_elem_of_In in Hs.
    pose proof (find_none _ _ H _ Hs) as Hf. simpl in Hf.
    by apply bool_decide_eq_false in Hf.
  - intros Hnin. destruct (find _ _) as [s|] eqn:Hf; [|done].
    exfalso. apply Hnin. apply find_some in Hf as [Hin Heq].
    apply bool_decide_eq_true in Heq. subst x.
    apply list_elem_of_fmap. exists s. split; [done | by apply list_elem_of_In].
Qed.

Lemma findStep_is_Some x :
  x ∈ Graph.ids flow → ∃ s, FlowBuilder.findStep flow x = Some s.
Proof.
  intros Hin. destruct (FlowBuilder.findStep flow x) as [s|] eqn:Hf; eauto.
  by apply findStep_None in Hf.
Qed.

Lemma findStep_ids x s :
  FlowBuilder.findStep flow x = Some s → x ∈ Graph.ids flow.
Proof.
  intros H. apply findStep_Some in H as [Hin <-].
  apply list_elem_of_fmap. eauto.
Qed.

Lemma NoDup_ids_inj s t :
  Graph.distinctIds flow → s ∈ Flow.steps flow → t ∈ Flow.steps flow →
  FlowStep.id s = FlowStep.id t → s = t.
Proof.
  unfold Graph.distinctIds, Graph.ids.
  induction (Flow.steps flow) as [|a l IH]; intros Hnd Hs Ht Heq.
  - by apply elem_of_nil in Hs.
  - simpl in Hnd. apply NoDup_cons in Hnd as [Ha Hnd].
    apply elem_of_cons in Hs as [->|Hs]; apply elem_of_cons in Ht as [->|Ht]; auto.
    + exfalso. apply Ha. rewrite Heq. apply list_elem_of_fmap. eauto.
    + exfalso. apply Ha. rewrite <- Heq. apply list_elem_of_fmap. eauto.
Qed.

Lemma findStep_distinct s :
  Graph.distinctIds flow → s ∈ Flow.steps flow →
  FlowBuilder.findStep flow (FlowStep.id s) = Some s.
Proof.
  intros Hnd Hs.
  destruct (findStep_is_Some (FlowStep.id s)) as [t Ht].
  { apply list_elem_of_fmap. eauto. }
  rewrite Ht. f_equal. apply findStep_Some in Ht as [Hin Heq].
  by apply NoDup_ids_inj.
Qed.

Lemma edge_dependsOn x y : Graph.edge flow x y → Graph.dependsOn flow x y.
Proof.
  intros (s & Hf & Hy). apply findStep_Some in Hf as [Hin Hid].
  exists s. done.
Qed.

Lemma dependsOn_edge x y :
  Graph.distinctIds flow → Graph.dependsOn flow x y → Graph.edge flow x y.
Proof.
  intros Hnd (s & Hin & <- & Hy). exists s. split; [|done].
  by apply findStep_distinct.
Qed.

Lemma edge_source x y : Graph.edge flow x y → x ∈ Graph.ids flow.
Proof. intros (s & Hf & _). by eapply findStep_ids. Qed.

Lemma path_length_bound (path : list string) :
  NoDup path → (∀ y, y ∈ path → y ∈ Graph.ids flow) →
  (length path ≤ length (Flow.steps flow))%nat.
Proof.
  intros Hnd Hsub.
  replace (length (Flow.steps flow)) with (length (Graph.ids flow))
    by apply length_map.
  apply submseteq_length. by apply NoDup_submseteq.
Qed.
End FindStep.

(** ** optimizeFlow: the post-order walk *)

Section Visit.
Import FlowBuilder Walk.
Variable flow : Flow.t.

#[local] Abbreviation visitInv := (Walk.visitInv flow).

Lemma visitInv_init : visitInv [] {| seen := ∅; sorted := [] |}.
Proof.
  split; simpl.
  - constructor.
  - intros y Hy. by apply elem_of_nil in Hy.
  - intros y Hy. by apply elem_of_nil in Hy.
  - intros s Hs. by apply elem_of_nil in Hs.
  - intros s Hs. by apply elem_of_nil in Hs.
  - constructor.
  - intros y Hy. by apply elem_of_nil in Hy.
  - intros y Hy. by apply elem_of_empty in Hy.
  - intros _ _ i s d Hi. by rewrite lookup_nil in Hi.
Qed.

Lemma dependenciesFirst_snoc l s :
  Graph.dependenciesFirst l →
  (∀ d, d ∈ FlowStep.dependencies s → d ∈ map FlowStep.id l) →
  Graph.dependenciesFirst (l ++ [s]).
Proof.
  intros Hl Hs i t d Hi Hd.
  destruct (decide (i < length l)%nat) as [Hlt|Hge].
  - rewrite lookup_app_l in Hi by done.
    destruct (Hl i t d Hi Hd) as (j & u & Hj & Hu & Hid).
    exists j, u. split_and!; auto. rewrite lookup_app_l; [done | lia].
  - rewrite lookup_app_r in Hi by lia.
    apply list_lookup_singleton_Some in Hi as [Hi ->].
    apply Hs in Hd. apply list_elem_of_fmap in Hd as (u & -> & Hu).
    apply list_elem_of_lookup in Hu as [j Hj].
    exists j, u. split_and!; auto.
    + apply lookup_lt_Some in Hj. lia.
    + rewrite lookup_app_l; [done | by eapply lookup_lt_Some].
Qed.

Lemma seenGrows_refl st : seenGrows st st.
Proof. unfold seenGrows. done. Qed.

Lemma seenGrows_trans st1 st2 st3 :
  seenGrows st1 st2 → seenGrows st2 st3 → seenGrows st1 st3.
Proof. unfold seenGrows. intros H1 H2 y Hy. auto. Qed.

Lemma seen_mono d st st' : d ∈ seen st → seenGrows st st' → d ∈ seen st'.
Proof. unfold seenGrows. intros Hd H. auto. Qed.

(** Entering the call for a fresh id [x]. *)
Lemma visitInv_enter path st x step :
  visitInv path st → x ∉ seen st → findStep flow x = Some step →
  visitInv (path ++ [x]) {| seen := {[x]} ∪ seen st; sorted := sorted st |}.
Proof.
  intros [Hnd Hids Hps Hfound Hss Hsnd Hfresh Hdone Hord] Hseen Hfind.
  split; simpl; auto.
  - apply NoDup_app. split_and!; auto; [|apply NoDup_singleton].
    intros y Hy Hy'. apply list_elem_of_singleton in Hy' as ->. auto.
  - intros y Hy. apply elem_of_app in Hy as [Hy|Hy]; auto.
    apply list_elem_of_singleton in Hy as ->. by eapply findStep_ids.
  - intros y Hy. apply elem_of_union.
    apply elem_of_app in Hy as [Hy|Hy]; auto.
    apply list_elem_of_singleton in Hy as ->. left. by apply elem_of_singleton.
  - intros s Hs. apply elem_of_union. auto.
  - intros y Hy. apply elem_of_app in Hy as [Hy|Hy]; auto.
    apply list_elem_of_singleton in Hy as ->.
    intros Hin. apply list_elem_of_fmap in Hin as (s & -> & Hs). auto.
  - intros y Hy Hy'. apply elem_of_union in Hy as [Hy|Hy].
    + apply elem_of_singleton in Hy as ->. right.
      apply elem_of_app. right. by apply list_elem_of_singleton.
    + destruct (Hdone y Hy Hy'); auto. right. apply elem_of_app. auto.
Qed.

(** Returning from the call for [x] once its dependencies are done. *)
Lemma visitInv_leave path st x step :
  visitInv (path ++ [x]) st → findStep flow x = Some step →
  (∀ y, y ∈ path → rtc (Graph.dependsOn flow) y x) →
  (∀ d, d ∈ FlowStep.dependencies step → d ∈ seen st) →
  visitInv path {| seen := seen st; sorted := sorted st ++ [step] |}.
Proof.
  intros [Hnd Hids Hps Hfound Hss Hsnd Hfresh Hdone Hord] Hfind Hreach Hdeps.
  pose proof (findStep_Some _ _ _ Hfind) as [Hstep Hid].
  assert (Hxp : x ∈ path ++ [x]).
  { apply elem_of_app. right. by apply list_elem_of_singleton. }
  split; simpl.
  - by apply NoDup_app in Hnd as (? & _ & _).
  - intros y Hy. apply Hids. apply elem_of_app. auto.
  - intros y Hy. apply Hps. apply elem_of_app. auto.
  - intros s Hs. apply elem_of_app in Hs as [Hs|Hs]; auto.
    apply list_elem_of_singleton in Hs as ->. by rewrite Hid.
  - intros s Hs. apply elem_of_app in Hs as [Hs|Hs]; auto.
    apply list_elem_of_singleton in Hs as ->. rewrite Hid. auto.
  - rewrite map_app. simpl. apply NoDup_app. split_and!; auto.
    + intros y Hy Hy'. apply list_elem_of_singleton in Hy' as ->.
      rewrite Hid in Hy. by apply (Hfresh x).
    + apply NoDup_singleton.
  - intros y Hy. rewrite map_app. simpl. intros Hin.
    apply elem_of_app in Hin as [Hin|Hin].
    + apply (Hfresh y); [|done]. apply elem_of_app. auto.
    + apply list_elem_of_singleton in Hin. rewrite Hid in Hin. subst y.
      apply NoDup_app in Hnd as (_ & Hnd & _). apply (Hnd x Hy).
      by apply list_elem_of_singleton.
  - intros y Hy Hy'. rewrite map_app. simpl.
    destruct (Hdone y Hy Hy') as [Hd|Hp].
    + left. apply elem_of_app. auto.
    + apply elem_of_app in Hp as [Hp|Hp]; auto.
      apply list_elem_of_singleton in Hp as ->. left.
      apply elem_of_app. right. rewrite Hid. by apply list_elem_of_singleton.
  - intros Hacyc Hfull. apply dependenciesFirst_snoc; auto.
    intros d Hd.
    assert (Hdx : Graph.dependsOn flow x d) by (exists step; done).
    destruct (Hdone d) as [Hd'|Hp]; auto.
    { by eapply Hfull. }
    exfalso. apply (Hacyc d).
    apply elem_of_app in Hp as [Hp|Hp].
    + eapply tc_rtc_l; [by apply Hreach|]. by apply tc_once.
    + apply list_elem_of_singleton in Hp as ->. by apply tc_once.
Qed.

Lemma visitInv_miss path st x :
  visitInv path st → findStep flow x = None →
  visitInv path {| seen := {[x]} ∪ seen st; sorted := sorted st |}.
Proof.
  intros [Hnd Hids Hps Hfound Hss Hsnd Hfresh Hdone Hord] Hfind.
  split; simpl; auto.
  - intros y Hy. apply elem_of_union. auto.
  - intros s Hs. apply elem_of_union. auto.
  - intros y Hy Hy'. apply elem_of_union in Hy as [Hy|Hy]; auto.
    apply elem_of_singleton in Hy as ->.
    apply findStep_None in Hfind. done.
Qed.

Lemma visit_spec (depth : nat) :
  ∀ x path st,
    visitInv path st →
    (∀ y, y ∈ path → rtc (Graph.dependsOn flow) y x) →
    (length (Flow.steps flow) < length path + depth)%nat →
    ∃ st', visit depth flow x st = Some st' ∧ visitInv path st' ∧
           seenGrows st st' ∧ x ∈ seen st'.
Proof.
  induction depth as [|depth IH]; intros x path st Hinv Hreach Hlen.
  { pose proof (path_length_bound flow path (vi_path_nodup _ _ _ Hinv)
                  (vi_path_ids _ _ _ Hinv)). lia. }
  simpl. case_bool_decide as Hseen.
  { exists st. split_and!; auto using seenGrows_refl. }
  set (st1 := {| seen := {[x]} ∪ seen st; sorted := sorted st |}).
  assert (Hgrow1 : seenGrows st st1).
  { intros y Hy. apply elem_of_union. auto. }
  assert (Hx1 : x ∈ seen st1).
  { apply elem_of_union. left. by apply elem_of_singleton. }
  destruct (findStep flow x) as [step|] eqn:Hfind.
  2:{ exists st1. split_and!; auto. by apply visitInv_miss. }
  destruct (forEachM_spec (visit depth flow) (visitInv (path ++ [x])) seenGrows
              (fun d st => d ∈ seen st) seenGrows_refl seenGrows_trans seen_mono
              (FlowStep.dependencies step) st1)
    as (st2 & Hfold & Hinv2 & Hgrow2 & Hdeps).
  { by eapply visitInv_enter. }
  { intros d s0 Hd Hinv0 _. apply IH; auto.
    - intros y Hy. apply elem_of_app in Hy as [Hy|Hy].
      + eapply rtc_r; [by apply Hreach|]. exists step.
        apply findStep_Some in Hfind as [? ?]. done.
      + apply list_elem_of_singleton in Hy as ->.
        apply rtc_once. exists step.
        apply findStep_Some in Hfind as [? ?]. done.
    - rewrite length_app. simpl. lia. }
  rewrite Hfold.
  eexists. split; [reflexivity|]. split_and!.
  - by eapply visitInv_leave.
  - eapply seenGrows_trans; [exact Hgrow1|exact Hgrow2].
  - simpl. by eapply seen_mono.
Qed.

(** The top-level loop [flow.steps.forEach(step => visit(step.id))]. *)
Lemma visit_all_spec :
  ∃ st,
    forEachM (fun step => visit (depthBudget flow) flow (FlowStep.id step))
             (Flow.steps flow) {| seen := ∅; sorted := [] |} = Some st ∧
    visitInv [] st ∧
    ∀ s, s ∈ Flow.steps flow → FlowStep.id s ∈ seen st.
Proof.
  destruct (forEachM_spec
              (fun step => visit (depthBudget flow) flow (FlowStep.id step))
              (visitInv []) seenGrows (fun s st => FlowStep.id s ∈ seen st)
              seenGrows_refl seenGrows_trans
              (fun s => seen_mono (FlowStep.id s))
              (Flow.steps flow) {| seen := ∅; sorted := [] |})
    as (st & Hfold & Hinv & _ & Hall).
  - apply visitInv_init.
  - intros s s0 Hs Hinv0 _. apply visit_spec; [exact Hinv0| |].
    + intros y Hy. by apply elem_of_nil in Hy.
    + unfold depthBudget. simpl. lia.
  - eauto.
Qed.
End Visit.

(** ** validateFlow: the cycle check *)

Section CycleCheck.
Import FlowBuilder Walk.
Variable flow : Flow.t.

#[local] Abbreviation checkInv := (Walk.checkInv flow).

Lemma checkStep_refl st : checkStep st st.
Proof. split; auto. Qed.

Lemma checkStep_trans st1 st2 st3 :
  checkStep st1 st2 → checkStep st2 st3 → checkStep st1 st3.
Proof. intros [H1 H1'] [H2 H2']. split; auto. intros y Hy. auto. Qed.

Lemma finished_mono path d st st' :
  (errors st = [] → finished path st d) → checkStep st st' →
  errors st' = [] → finished path st' d.
Proof. intros Hd [Hv He] He'. destruct (Hd (He He')) as [? ?]. split; auto. Qed.

Lemma checkInv_init : checkInv [] {| visited := ∅; errors := [] |}.
Proof.
  split; simpl.
  - constructor.
  - intros y Hy. by apply elem_of_nil in Hy.
  - intros y Hy. by apply elem_of_nil in Hy.
  - constructor.
  - intros _ y [Hy _]. by apply elem_of_empty in Hy.
Qed.

Lemma isChain_singleton x : Graph.isChain flow [x].
Proof. intros i a b _ Hb. simpl in Hb. by rewrite lookup_nil in Hb. Qed.

Lemma isChain_snoc l a b :
  Graph.isChain flow (l ++ [a]) → Graph.dependsOn flow a b →
  Graph.isChain flow ((l ++ [a]) ++ [b]).
Proof.
  intros Hl Hab i u v Hu Hv.
  destruct (decide (S i < length (l ++ [a]))%nat) as [Hlt|Hge].
  - rewrite lookup_app_l in Hu by lia. rewrite lookup_app_l in Hv by lia.
    by eapply Hl.
  - pose proof (lookup_lt_Some _ _ _ Hv) as Hlen.
    rewrite !length_app in Hlen. rewrite length_app in Hge.
    simpl in Hlen, Hge.
    assert (i = length l) as -> by lia.
    rewrite lookup_app_l in Hu by (rewrite length_app; simpl; lia).
    rewrite lookup_app_r in Hu by lia.
    rewrite lookup_app_r in Hv by (rewrite length_app; simpl; lia).
    rewrite length_app in Hv. simpl in Hv.
    replace (length l - length l)%nat with 0%nat in Hu by lia.
    replace (S (length l) - (length l + 1))%nat with 0%nat in Hv by lia.
    simpl in Hu, Hv. by simplify_eq.
Qed.

(** Finished ids only reach finished ids. *)
Lemma finished_closed path st y z :
  checkInv path st → errors st = [] →
  finished path st y → rtc (Graph.edge flow) y z → finished path st z.
Proof.
  intros Hinv He Hy Hyz. induction Hyz as [|y d z Hyd _ IH]; auto.
  apply IH. by apply (ci_finished _ _ _ Hinv He y Hy).
Qed.

(** The call reports a cycle: [stepId] is already on the path. *)
Lemma checkInv_report path st x :
  checkInv path st → x ∈ path → Graph.isChain flow (path ++ [x]) →
  checkInv path {| visited := visited st;
                   errors := errors st ++ [circularMessage path x] |}.
Proof.
  intros [Hnd Hids Hpv Herr Hfin] Hx Hchain. split; simpl; auto.
  - apply Forall_app. split; auto. apply Forall_singleton.
    exists path, x. done.
  - intros He. by apply app_eq_nil in He as [_ ?].
Qed.

Lemma checkInv_enter path st x step :
  checkInv path st → x ∉ visited st → findStep flow x = Some step →
  checkInv (path ++ [x]) {| visited := {[x]} ∪ visited st; errors := errors st |}.
Proof.
  intros [Hnd Hids Hpv Herr Hfin] Hx Hfind. split; simpl; auto.
  - apply NoDup_app. split_and!; auto; [|apply NoDup_singleton].
    intros y Hy Hy'. apply list_elem_of_singleton in Hy' as ->. auto.
  - intros y Hy. apply elem_of_app in Hy as [Hy|Hy]; auto.
    apply list_elem_of_singleton in Hy as ->. by eapply findStep_ids.
  - intros y Hy. apply elem_of_union.
    apply elem_of_app in Hy as [Hy|Hy]; auto.
    apply list_elem_of_singleton in Hy as ->. left. by apply elem_of_singleton.
  - intros He y [Hy Hyp]. simpl in Hy.
    assert (Hyx : y ≠ x).
    { intros ->. apply Hyp. apply elem_of_app. right.
      by apply list_elem_of_singleton. }
    assert (Hfy : finished path st y).
    { split.
      - apply elem_of_union in Hy as [Hy|Hy]; auto.
        by apply elem_of_singleton in Hy.
      - intros Hin. apply Hyp. apply elem_of_app. auto. }
    destruct (Hfin He y Hfy) as [Hcl Hac]. split; auto.
    intros d Hd. destruct (Hcl d Hd) as [Hdv Hdp]. split; simpl.
    + apply elem_of_union. auto.
    + intros Hin. apply elem_of_app in Hin as [Hin|Hin]; auto.
      apply list_elem_of_singleton in Hin as ->. auto.
Qed.

Lemma checkInv_miss path st x :
  checkInv path st → findStep flow x = None →
  checkInv path {| visited := {[x]} ∪ visited st; errors := errors st |}.
Proof.
  intros [Hnd Hids Hpv Herr Hfin] Hfind. split; simpl; auto.
  - intros y Hy. apply elem_of_union. auto.
  - intros He y [Hy Hyp]. simpl in Hy.
    apply elem_of_union in Hy as [Hy|Hy].
    + apply elem_of_singleton in Hy as ->. split.
      * intros d (s & Hs & _). congruence.
      * intros Htc. inversion Htc as [? ? (s & Hs & _)|? ? ? (s & Hs & _)];
          congruence.
    + destruct (Hfin He y (conj Hy Hyp)) as [Hcl Hac]. split; auto.
      intros d Hd. destruct (Hcl d Hd) as [Hdv Hdp]. split; auto.
      simpl. apply elem_of_union. auto.
Qed.

Lemma checkInv_leave path st x step :
  checkInv (path ++ [x]) st → findStep flow x = Some step →
  (∀ d, d ∈ FlowStep.dependencies step →
        errors st = [] → finished (path ++ [x]) st d) →
  checkInv path st.
Proof.
  intros Hinv Hfind Hdeps.
  pose proof Hinv as [Hnd Hids Hpv Herr Hfin].
  assert (Hxp : x ∈ path ++ [x]).
  { apply elem_of_app. right. by apply list_elem_of_singleton. }
  assert (Hweak : ∀ d, finished (path ++ [x]) st d → finished path st d).
  { intros d [Hd Hdp]. split; auto. intros Hin. apply Hdp.
    apply elem_of_app. auto. }
  split; auto.
  - by apply NoDup_app in Hnd as (? & _ & _).
  - intros y Hy. apply Hids. apply elem_of_app. auto.
  - intros y Hy. apply Hpv. apply elem_of_app. auto.
  - intros He y [Hy Hyp].
    destruct (decide (y = x)) as [->|Hyx].
    + assert (Hxd : ∀ d, Graph.edge flow x d → finished (path ++ [x]) st d).
      { intros d (s & Hs & Hd). rewrite Hfind in Hs. simplify_eq. auto. }
      split; [by auto|].
      intros Htc.
      assert (∃ d, Graph.edge flow x d ∧ rtc (Graph.edge flow) d x)
        as (d & Hd & Hdx).
      { inversion Htc as [? ? Hd|? d ? Hd Hdx]; subst.
        - exists x. split; auto. apply rtc_refl.
        - exists d. split; auto. by apply tc_rtc. }
      destruct (finished_closed (path ++ [x]) st d x Hinv He (Hxd d Hd) Hdx)
        as [_ Hnot].
      auto.
    + assert (Hfy : finished (path ++ [x]) st y).
      { split; auto. intros Hin. apply elem_of_app in Hin as [Hin|Hin]; auto.
        apply list_elem_of_singleton in Hin. auto. }
      destruct (Hfin He y Hfy) as [Hcl Hac]. split; auto.
Qed.

Lemma check_spec (depth : nat) :
  ∀ x path st,
    checkInv path st →
    Graph.isChain flow (path ++ [x]) →
    (length (Flow.steps flow) < length path + depth)%nat →
    ∃ st', checkDependencies depth flow x path st = Some st' ∧
           checkInv path st' ∧ checkStep st st' ∧
           (errors st' = [] → finished path st' x).
Proof.
  induction depth as [|depth IH]; intros x path st Hinv Hchain Hlen.
  { pose proof (path_length_bound flow path (ci_path_nodup _ _ _ Hinv)
                  (ci_path_ids _ _ _ Hinv)). lia. }
  simpl. case_bool_decide as Hpath.
  { eexists. split; [reflexivity|]. split_and!.
    - by apply checkInv_report.
    - split; simpl; auto. intros He. by apply app_eq_nil in He as [? _].
    - simpl. intros He. by apply app_eq_nil in He as [_ ?]. }
  case_bool_decide as Hvis.
  { exists st. split_and!; auto using checkStep_refl. intros _. by split. }
  set (st1 := {| visited := {[x]} ∪ visited st; errors := errors st |}).
  assert (Hstep1 : checkStep st st1).
  { split; simpl; auto. intros y Hy. apply elem_of_union. auto. }
  assert (Hx1 : x ∈ visited st1).
  { apply elem_of_union. left. by apply elem_of_singleton. }
  destruct (findStep flow x) as [step|] eqn:Hfind.
  2:{ exists st1. split_and!; auto; [by apply checkInv_miss|]. intros _. by split. }
  destruct (forEachM_spec
              (fun dep => checkDependencies depth flow dep (path ++ [x]))
              (checkInv (path ++ [x])) checkStep
              (fun d st => errors st = [] → finished (path ++ [x]) st d)
              checkStep_refl checkStep_trans
              (finished_mono (path ++ [x]))
              (FlowStep.dependencies step) st1)
    as (st2 & Hfold & Hinv2 & Hstep2 & Hdeps).
  { by eapply checkInv_enter. }
  { intros d s0 Hd Hinv0 _. apply IH; [exact Hinv0| |].
    - apply isChain_snoc; auto. exists step.
      apply findStep_Some in Hfind as [? ?]. done.
    - rewrite length_app. simpl. lia. }
  rewrite Hfold. exists st2. split_and!; auto.
  - eapply checkInv_leave; eauto.
  - eapply checkStep_trans; eauto.
  - intros He. split; auto. destruct Hstep2 as [Hsub _]. auto.
Qed.

(** The top-level loop
    [flow.steps.forEach(step => checkDependencies(step.id))]. *)
Lemma check_all_spec :
  ∃ st,
    forEachM
      (fun step => checkDependencies (depthBudget flow) flow (FlowStep.id step) [])
      (Flow.steps flow) {| visited := ∅; errors := [] |} = Some st ∧
    checkInv [] st ∧
    ∀ s, s ∈ Flow.steps flow → errors st = [] → finished [] st (FlowStep.id s).
Proof.
  destruct (forEachM_spec
              (fun step =>
                 checkDependencies (depthBudget flow) flow (FlowStep.id step) [])
              (checkInv []) checkStep
              (fun s st => errors st = [] → finished [] st (FlowStep.id s))
              checkStep_refl checkStep_trans
              (fun s => finished_mono [] (FlowStep.id s))
              (Flow.steps flow) {| visited := ∅; errors := [] |})
    as (st & Hfold & Hinv & _ & Hall).
  - apply checkInv_init.
  - intros s s0 Hs Hinv0 _. apply check_spec; [exact Hinv0| |].
    + apply isChain_singleton.
    + unfold depthBudget. simpl. lia.
  - eauto.
Qed.

Lemma validateFlow_total : ∃ r, validateFlow flow = Some r.
Proof.
  unfold validateFlow. destruct check_all_spec as (st & -> & _). eauto.
Qed.
End CycleCheck.

(** ** FlowBuilder: validation and ordering *)

Section FlowBuilderFacts.
Import FlowBuilder Walk.
Variable flow : Flow.t.

Lemma tc_edge_dependsOn x y :
  tc (Graph.edge flow) x y → tc (Graph.dependsOn flow) x y.
Proof.
  induction 1 as [x y H|x y z H _ IH].
  - apply tc_once. by apply edge_dependsOn.
  - eapply tc_l; [by apply edge_dependsOn | done].
Qed.

Lemma tc_dependsOn_edge x y :
  Graph.distinctIds flow →
  tc (Graph.dependsOn flow) x y → tc (Graph.edge flow) x y.
Proof.
  intros Hnd. induction 1 as [x y H|x y z H _ IH].
  - apply tc_once. by apply dependsOn_edge.
  - eapply tc_l; [by apply dependsOn_edge | done].
Qed.

Lemma tc_edge_source x y : tc (Graph.edge flow) x y → x ∈ Graph.ids flow.
Proof. intros H. inversion H; subst; by eapply edge_source. Qed.

(** The cycle check finds every cycle through the first steps of each id. *)
Lemma check_all_complete st x :
  forEachM
    (fun step => checkDependencies (depthBudget flow) flow (FlowStep.id step) [])
    (Flow.steps flow) {| visited := ∅; errors := [] |} = Some st →
  tc (Graph.edge flow) x x → errors st ≠ [].
Proof.
  intros Hrun Hcyc He.
  destruct (check_all_spec flow) as (st' & Hrun' & Hinv & Hall).
  rewrite Hrun in Hrun'. injection Hrun' as <-.
  pose proof (tc_edge_source _ _ Hcyc) as Hx.
  apply list_elem_of_fmap in Hx as (s & -> & Hs).
  destruct (ci_finished _ _ _ Hinv He _ (Hall s Hs He)) as [_ Hno].
  by apply Hno.
Qed.

Lemma missingDependencies_spec msg :
  msg ∈ missingDependencies flow ↔
  ∃ s d, msg = missingMessage (FlowStep.id s) d ∧ s ∈ Flow.steps flow ∧
         d ∈ FlowStep.dependencies s ∧ d ∉ Graph.ids flow.
Proof.
  unfold missingDependencies. rewrite list_elem_of_In, in_flat_map. split.
  - intros (s & Hs & Hmsg). apply in_flat_map in Hmsg as (d & Hd & Hmsg).
    exists s, d. rewrite <- !list_elem_of_In in *.
    destruct (findStep flow d) eqn:Hf; [by apply elem_of_nil in Hmsg|].
    apply list_elem_of_singleton in Hmsg. split_and!; auto.
    by apply findStep_None.
  - intros (s & d & -> & Hs & Hd & Hnot). exists s.
    rewrite <- list_elem_of_In. split; [done|].
    apply in_flat_map. exists d. rewrite <- !list_elem_of_In. split; [done|].
    apply findStep_None in Hnot. rewrite Hnot. by apply list_elem_of_singleton.
Qed.

(** A flow that [validateFlow] accepts is acyclic and fully referenced. *)
Lemma validateFlow_valid r :
  Graph.distinctIds flow →
  validateFlow flow = Some r → ValidationResult.valid r = true →
  Graph.acyclic flow ∧ Graph.fullyReferenced flow.
Proof.
  intros Hnd Hval Hvalid. unfold validateFlow in Hval.
  destruct (forEachM _ _ _) as [st|] eqn:Hrun; [|done].
  injection Hval as <-. simpl in Hvalid.
  apply bool_decide_eq_true in Hvalid. apply app_eq_nil in Hvalid as [He Hmiss].
  split.
  - intros x Hcyc. apply tc_dependsOn_edge in Hcyc; [|done].
    by eapply check_all_complete.
  - intros x y (s & Hs & <- & Hy).
    destruct (decide (y ∈ Graph.ids flow)) as [|Hnot]; [done|].
    assert (missingMessage (FlowStep.id s) y ∈ missingDependencies flow) as Hin.
    { apply missingDependencies_spec. eauto 10. }
    rewrite Hmiss in Hin. by apply elem_of_nil in Hin.
Qed.

Lemma optimizeFlow_spec :
  Graph.distinctIds flow →
  ∃ flow',
    optimizeFlow flow = Some flow' ∧
    Flow.steps flow' ≡ₚ Flow.steps flow ∧
    (Graph.acyclic flow → Graph.fullyReferenced flow →
     Graph.dependenciesFirst (Flow.steps flow')).
Proof.
  intros Hnd. unfold optimizeFlow.
  destruct (visit_all_spec flow) as (st & -> & Hinv & Hall).
  eexists. split; [reflexivity|]. simpl.
  destruct Hinv as [_ _ _ Hfound _ Hsnd _ Hdone Hord]. split; [|done].
  apply NoDup_Permutation.
  - by eapply NoDup_fmap_1.
  - by eapply NoDup_fmap_1.
  - intros s. split.
    + intros Hs. by apply Hfound, findStep_Some in Hs as [? _].
    + intros Hs.
      destruct (Hdone (FlowStep.id s)) as [Hin|Hin]; auto.
      * apply list_elem_of_fmap. eauto.
      * apply list_elem_of_fmap in Hin as (s' & Heq & Hs').
        pose proof (Hfound s' Hs') as Hf. apply findStep_Some in Hf as [Hin' _].
        by rewrite (NoDup_ids_inj flow s s' Hnd Hs Hin' Heq).
      * by apply elem_of_nil in Hin.
Qed.
End FlowBuilderFacts.

(** ** Claims about FlowBuilder *)

(** C10. For every flow whose steps have pairwise-distinct ids, with or
    without dependency cycles and dependency ids that no step carries,
    [optimizeFlow] returns a flow whose steps are a permutation of the input
    steps: each input step occurs exactly once in the output. *)
Theorem optimizeFlow_permutation (flow : Flow.t) :
  Graph.distinctIds flow →
  ∃ flow',
    FlowBuilder.optimizeFlow flow = Some flow' ∧
    Flow.steps flow' ≡ₚ Flow.steps flow.
Proof.
  intros Hnd. destruct (optimizeFlow_spec flow Hnd) as (flow' & Hopt & Hperm & _).
  eauto.
Qed.

Lemma optimizeFlow_permutation_witness :
  Graph.distinctIds Examples.cyclicFlow ∧
  ∃ flow',
    FlowBuilder.optimizeFlow Examples.cyclicFlow = Some flow' ∧
    Flow.steps flow' ≡ₚ Flow.steps Examples.cyclicFlow.
Proof.
  assert (Hnd : Graph.distinctIds Examples.cyclicFlow).
  { unfold Graph.distinctIds. apply (bool_decide_unpack _). vm_compute. exact I. }
  split; [exact Hnd | exact (optimizeFlow_permutation Examples.cyclicFlow Hnd)].
Defined.

(** C5. For every valid flow (distinct step ids, no dependency cycle, every
    dependency id carried by a step), the order computed by [optimizeFlow] is
    a permutation of the flow's steps in which every step comes after the
    steps its dependencies name. *)
Theorem optimizeFlow_topological (flow : Flow.t) :
  Graph.distinctIds flow → Graph.acyclic flow → Graph.fullyReferenced flow →
  ∃ flow',
    FlowBuilder.optimizeFlow flow = Some flow' ∧
    Flow.steps flow' ≡ₚ Flow.steps flow ∧
    Graph.dependenciesFirst (Flow.steps flow').
Proof.
  intros Hnd Hacyc Hfull.
  destruct (optimizeFlow_spec flow Hnd) as (flow' & Hopt & Hperm & Hord).
  exists flow'. auto.
Qed.

Lemma chainFlow_valid :
  Graph.distinctIds Examples.chainFlow ∧
  Graph.acyclic Examples.chainFlow ∧ Graph.fullyReferenced Examples.chainFlow.
Proof.
  assert (Hnd : Graph.distinctIds Examples.chainFlow).
  { unfold Graph.distinctIds. apply (bool_decide_unpack _). vm_compute. exact I. }
  split; [exact Hnd|].
  eapply validateFlow_valid; [exact Hnd | vm_compute; reflexivity | reflexivity].
Defined.

Lemma optimizeFlow_topological_witness :
  Graph.distinctIds Examples.chainFlow ∧
  Graph.acyclic Examples.chainFlow ∧
  Graph.fullyReferenced Examples.chainFlow ∧
  ∃ flow',
    FlowBuilder.optimizeFlow Examples.chainFlow = Some flow' ∧
    Flow.steps flow' ≡ₚ Flow.steps Examples.chainFlow ∧
    Graph.dependenciesFirst (Flow.steps flow').
Proof.
  destruct chainFlow_valid as (Hnd & Hacyc & Hfull).
  split_and!; [exact Hnd | exact Hacyc | exact Hfull |].
  exact (optimizeFlow_topological Examples.chainFlow Hnd Hacyc Hfull).
Defined.

(** The order computed for the chain sync, analyze, test. *)
Example optimizeFlow_chain :
  (λ flow', map FlowStep.id (Flow.steps flow')) <$>
    FlowBuilder.optimizeFlow Examples.chainFlow
  = Some ["sync"; "analyze"; "test"].
Proof. vm_compute. reflexivity. Qed.

Lemma JsMap_get_set {V : Type} (k : string) (v : V) (m : JsMap.t V) :
  JsMap.get k (JsMap.set k v m) = Some v.
Proof.
  unfold JsMap.get. induction m as [|[k' v'] m IH]; simpl.
  - by rewrite bool_decide_eq_true_2.
  - case_bool_decide as Hk; simpl.
    + by rewrite bool_decide_eq_true_2.
    + by rewrite bool_decide_eq_false_2.
Qed.

(** C6, as stated, at the flow whose only step A depends on "ghost": the
    message the claim quotes is not the one reported. *)
Lemma validateFlow_missing_counterexample :
  FlowBuilder.validateFlow Examples.ghostFlow
  ≠ Some {| ValidationResult.valid := false;
            ValidationResult.errors := ["node 'A' has missing dependency: ghost"] |}.
Proof. vm_compute. discriminate. Qed.

(** C6, amended. For every flow in which a step references a dependency id
    that no step carries, [validateFlow] returns [valid = false] and reports
    "Step '<id>' has missing dependency: <dep>", naming the referencing step
    and the missing id; these messages follow whatever the cycle check
    reported and do not depend on it. For the flow whose only step A depends
    on "ghost" the result is valid = false with the single error
    "Step 'A' has missing dependency: ghost". *)
Theorem validateFlow_missing_dependency :
  (∀ flow s d,
     s ∈ Flow.steps flow → d ∈ FlowStep.dependencies s → d ∉ Graph.ids flow →
     ∃ r cyclic,
       FlowBuilder.validateFlow flow = Some r ∧
       ValidationResult.valid r = false ∧
       ValidationResult.errors r = cyclic ++ FlowBuilder.missingDependencies flow ∧
       FlowBuilder.missingMessage (FlowStep.id s) d
         ∈ FlowBuilder.missingDependencies flow) ∧
  FlowBuilder.validateFlow Examples.ghostFlow
  = Some {| ValidationResult.valid := false;
            ValidationResult.errors := ["Step 'A' has missing dependency: ghost"] |}.
Proof.
  split; [|vm_compute; reflexivity].
  intros flow s d Hs Hd Hnot. unfold FlowBuilder.validateFlow.
  destruct (check_all_spec flow) as (st & -> & _).
  assert (Hin : FlowBuilder.missingMessage (FlowStep.id s) d
                  ∈ FlowBuilder.missingDependencies flow).
  { apply missingDependencies_spec. eauto 10. }
  eexists _, (FlowBuilder.errors st). split; [reflexivity|]. simpl.
  split_and!; auto.
  apply bool_decide_eq_false. intros Hnil.
  apply app_eq_nil in Hnil as [_ Hnil]. rewrite Hnil in Hin.
  by apply elem_of_nil in Hin.
Qed.

Lemma validateFlow_missing_dependency_witness :
  ∃ r cyclic,
    FlowBuilder.validateFlow Examples.ghostFlow = Some r ∧
    ValidationResult.valid r = false ∧
    ValidationResult.errors r
      = cyclic ++ FlowBuilder.missingDependencies Examples.ghostFlow ∧
    FlowBuilder.missingMessage "A" "ghost"
      ∈ FlowBuilder.missingDependencies Examples.ghostFlow.
Proof.
  apply (proj1 validateFlow_missing_dependency Examples.ghostFlow
           (Examples.flowStep "A" ["ghost"]) "ghost").
  - vm_compute. apply list_elem_of_here.
  - vm_compute. apply list_elem_of_here.
  - apply (bool_decide_unpack _). vm_compute. exact I.
Defined.

(** C7, as stated, at two declarations with the id "a": [buildFlow] returns a
    flow that holds both, and [addStep] stores a second step under an id the
    workflow already has. *)
Lemma duplicate_ids_counterexample :
  map FlowStep.id (Flow.steps (FlowBuilder.buildFlow 0 Examples.duplicateConfig))
  = ["a"; "a"] ∧
  let step :=
    {| WorkflowStep.id := "a"; WorkflowStep.name := "a";
       WorkflowStep.action := λ _, Fulfils JUndefined 0;
       WorkflowStep.parallel := None; WorkflowStep.condition := None;
       WorkflowStep.onSuccess := None; WorkflowStep.onError := None;
       WorkflowStep.retries := None; WorkflowStep.timeout := None |} in
  (λ w, map WorkflowStep.id (Workflow.steps w)) <$>
    WorkflowBuilder.getWorkflow "w"
      (WorkflowBuilder.addStep "w" step
         (WorkflowBuilder.addStep "w" step
            (WorkflowBuilder.createWorkflow 0 "w" JsMap.empty)))
  = Some ["a"; "a"].
Proof. split; vm_compute; reflexivity. Qed.

(** C7, amended. Building a flow never rejects its declarations:
    [buildFlow] returns one step per declaration, in declaration order, and
    every declaration with a non-empty id keeps that id, so two declarations
    with the same id yield two steps with that id. [addStep] appends the step
    to an existing workflow whatever ids its steps already have. *)
Theorem duplicate_ids_are_kept :
  (∀ now config,
     length (Flow.steps (FlowBuilder.buildFlow now config))
     = length (FlowConfig.steps config)) ∧
  (∀ now config i p x,
     FlowConfig.steps config !! i = Some p →
     PartialFlowStep.id p = Some x → x ≠ "" →
     FlowStep.id <$> Flow.steps (FlowBuilder.buildFlow now config) !! i = Some x) ∧
  (∀ workflows name workflow step,
     WorkflowBuilder.getWorkflow name workflows = Some workflow →
     Workflow.steps <$>
       WorkflowBuilder.getWorkflow name (WorkflowBuilder.addStep name step workflows)
     = Some (Workflow.steps workflow ++ [step])).
Proof.
  split_and!.
  - intros now config. simpl. apply length_imap.
  - intros now config i p x Hp Hid Hx. simpl.
    rewrite list_lookup_imap, Hp. simpl. f_equal.
    rewrite Hid. simpl. by rewrite bool_decide_eq_false_2.
  - intros workflows name workflow step Hget.
    unfold WorkflowBuilder.addStep, WorkflowBuilder.getWorkflow in *.
    rewrite Hget. by rewrite JsMap_get_set.
Qed.

Lemma duplicate_ids_are_kept_witness :
  FlowStep.id <$>
    Flow.steps (FlowBuilder.buildFlow 0 Examples.duplicateConfig) !! 1%nat
  = Some "a".
Proof.
  eapply (proj1 (proj2 duplicate_ids_are_kept) 0%Z Examples.duplicateConfig 1%nat).
  - vm_compute. reflexivity.
  - reflexivity.
  - apply (bool_decide_unpack _). vm_compute. exact I.
Defined.

(** ** WorkflowBuilder: one step *)

Section ExecuteStep.
Import WorkflowBuilder Engine.
Variable s : WorkflowStep.t.

Lemma launch_failing k r :
  attemptFails s k →
  ∃ e t, launch s k r = (t, emit (Invoked (WorkflowStep.id s) k (clock r)) r) ∧
         outcome t = Throw e ∧ step t = s ∧ attempt t = k ∧ invoked t = true ∧
         (clock r ≤ settlesAt t)%Z.
Proof.
  unfold attemptFails, launch.
  destruct (executeWithTimeout _ _) as [c el] eqn:Hrun. simpl.
  destruct c as [v|e]; [discriminate|]. intros _.
  exists e. eexists. split; [reflexivity|]. simpl. split_and!; auto.
  unfold executeWithTimeout, timerDelay in Hrun.
  destruct (WorkflowStep.action s (Z.to_nat k)); repeat case_match; simplify_eq; lia.
Qed.

(** The loop of [executeStep] when every remaining attempt fails. *)
Lemma attemptLoop_all_fail (n : nat) :
  ∀ k r,
    Z.of_nat n = (retriesOf s - k + 1)%Z → (k ≤ retriesOf s)%Z →
    (∀ j, (k ≤ j ≤ retriesOf s)%Z → attemptFails s j) →
    ∃ e r' rest,
      attemptLoop n s k r = (Throw e, r') ∧
      trace r' = trace r ++ Invoked (WorkflowStep.id s) k (clock r) :: rest ∧
      results r' = results r ∧ errors r' = errors r ∧
      length (filter isInvocation rest) = pred n ∧
      Forall (λ ev, eventId ev = None ∨ eventId ev = Some (WorkflowStep.id s)) rest ∧
      (∀ j, (k < j ≤ retriesOf s)%Z → ∃ t, Invoked (WorkflowStep.id s) j t ∈ rest) ∧
      (∀ j, (k ≤ j < retriesOf s)%Z →
            ∃ t, Settled (WorkflowStep.id s) j t false ∈ rest ∧
                 Invoked (WorkflowStep.id s) (j + 1) t ∈ rest).
Proof.
  induction n as [|n IH]; intros k r Hn Hk Hfail; [lia|].
  destruct (launch_failing k r) as (e & t & Hlaunch & Hout & Hstep & Hatt & Hinv & Htime).
  { apply Hfail. lia. }
  simpl. rewrite Hlaunch, Hout.
  set (r1 := emit (Invoked (WorkflowStep.id s) k (clock r)) r).
  assert (Hsettle : settle t r1
                    = emit (Settled (WorkflowStep.id s) k (settlesAt t) false)
                           (advanceTo (settlesAt t) r1)).
  { unfold settle. rewrite Hinv, Hstep, Hatt, Hout. simpl.
    by rewrite Z.max_r by done. }
  rewrite Hsettle.
  destruct (k =? retriesOf s)%Z eqn:Hlast.
  - apply Z.eqb_eq in Hlast.
    exists e. eexists. exists [Settled (WorkflowStep.id s) k (settlesAt t) false].
    split; [reflexivity|]. simpl. rewrite <- app_assoc. simpl.
    split_and!; auto.
    + lia.
    + intros j Hj. lia.
    + intros j Hj. lia.
  - apply Z.eqb_neq in Hlast.
    set (r3 := emit (Logged (retryMessage s k))
                 (emit (Settled (WorkflowStep.id s) k (settlesAt t) false)
                       (advanceTo (settlesAt t) r1))).
    destruct (IH (k + 1)%Z r3) as (e' & r' & rest & Hloop & Htrace & Hres & Herr
                                    & Hcount & Hids & Hall & Hnext).
    { lia. } { lia. } { intros j Hj. apply Hfail. lia. }
    assert (Hclock : clock r3 = settlesAt t).
    { simpl. by rewrite Z.max_r by done. }
    rewrite Hclock in Htrace.
    exists e', r'.
    exists (Settled (WorkflowStep.id s) k (settlesAt t) false
              :: Logged (retryMessage s k)
              :: Invoked (WorkflowStep.id s) (k + 1) (settlesAt t) :: rest).
    split; [exact Hloop|]. split_and!.
    + rewrite Htrace. simpl. rewrite <- !app_assoc. reflexivity.
    + by rewrite Hres.
    + by rewrite Herr.
    + simpl. rewrite Hcount. lia.
    + repeat (constructor; [simpl; auto|]). exact Hids.
    + intros j Hj. destruct (decide (j = k + 1)%Z) as [->|Hne].
      * exists (settlesAt t). do 2 apply list_elem_of_further. apply list_elem_of_here.
      * destruct (Hall j) as [t' Ht']; [lia|]. exists t'.
        by do 3 apply list_elem_of_further.
    + intros j Hj. destruct (decide (j = k)) as [->|Hne].
      * exists (settlesAt t). split; [apply list_elem_of_here|].
        do 2 apply list_elem_of_further. apply list_elem_of_here.
      * destruct (Hnext j) as (t' & H1 & H2); [lia|]. exists t'.
        split; by do 3 apply list_elem_of_further.
Qed.
End ExecuteStep.

(** ** WorkflowBuilder: what a piece of a run may touch *)

Section RunFootprint.
Import WorkflowBuilder Engine Footprint.

Lemma JsMap_get_set_cases {V : Type} (k k' : string) (v : V) (m : JsMap.t V) :
  JsMap.get k (JsMap.set k' v m)
  = if bool_decide (k' = k) then Some v else JsMap.get k m.
Proof.
  unfold JsMap.get. induction m as [|[k0 v0] m IH]; simpl.
  - done.
  - destruct (bool_decide (k0 = k')) eqn:H0; simpl.
    + apply bool_decide_eq_true in H0 as ->. by case_bool_decide.
    + apply bool_decide_eq_false in H0. rewrite IH.
      repeat case_bool_decide; congruence.
Qed.

Lemma extends_refl ids r : extends ids r r.
Proof.
  split; auto; [|lia]. exists []. by rewrite app_nil_r.
Qed.

Lemma extends_trans ids r1 r2 r3 :
  extends ids r1 r2 → extends ids r2 r3 → extends ids r1 r3.
Proof.
  intros [(n1 & H1 & F1) C1 R1 E1 K1] [(n2 & H2 & F2) C2 R2 E2 K2]. split.
  - exists (n1 ++ n2). rewrite H2, H1, app_assoc. split; [done|].
    by apply Forall_app.
  - lia.
  - intros k Hk. destruct (R2 k Hk); auto.
  - intros k Hk. destruct (E2 k Hk); auto.
  - auto.
Qed.

Lemma extends_weaken ids ids' r r' :
  (∀ i, i ∈ ids → i ∈ ids') → extends ids r r' → extends ids' r r'.
Proof.
  intros Hsub [(n & H & F) C R E K]. split; auto.
  - exists n. split; [done|]. eapply Forall_impl; [exact F|].
    intros ev Hev i Hi. auto.
  - intros k Hk. destruct (R k Hk); auto.
  - intros k Hk. destruct (E k Hk); auto.
Qed.

Lemma extends_emit ids ev r : about ids ev → extends ids r (emit ev r).
Proof.
  intros Hev. split; simpl; auto; [|lia].
  exists [ev]. split; [done|]. by apply Forall_singleton.
Qed.

Lemma extends_advanceTo ids time r : extends ids r (advanceTo time r).
Proof.
  split; simpl; auto; [|lia]. exists []. by rewrite app_nil_r.
Qed.

Lemma extends_setResult ids id v r : id ∈ ids → extends ids r (setResult id v r).
Proof.
  intros Hid. split; simpl; auto; [| lia |].
  - exists []. by rewrite app_nil_r.
  - intros k. rewrite JsMap_get_set_cases. case_bool_decide; subst; auto.
Qed.

Lemma extends_setError ids id e r : id ∈ ids → extends ids r (setError id e r).
Proof.
  intros Hid. split; simpl; auto; [| lia | |].
  - exists []. by rewrite app_nil_r.
  - intros k. rewrite JsMap_get_set_cases. case_bool_decide; subst; auto.
  - intros k Hk. rewrite JsMap_get_set_cases. case_bool_decide; eauto.
Qed.

Lemma about_here id (ids : list string) ev :
  id ∈ ids → eventId ev = Some id ∨ eventId ev = None → about ids ev.
Proof. intros Hid [H|H] i Hi; rewrite H in Hi; by simplify_eq. Qed.

Variable s : WorkflowStep.t.
Variable ids : list string.
Hypothesis s_in_ids : WorkflowStep.id s ∈ ids.

Lemma extends_launch k r : extends ids r (launch s k r).2.
Proof using s_in_ids.
  unfold launch. destruct (executeWithTimeout _ _) as [c el]. simpl.
  apply extends_emit. eapply about_here; eauto.
Qed.

Lemma launch_step k r : step (launch s k r).1 = s.
Proof. unfold launch. by destruct (executeWithTimeout _ _). Qed.

Lemma extends_settle t r : step t = s → extends ids r (settle t r).
Proof using s_in_ids.
  intros Hs. unfold settle. destruct (invoked t).
  - eapply extends_trans; [apply extends_advanceTo|].
    apply extends_emit. eapply about_here; eauto. rewrite Hs. auto.
  - apply extends_advanceTo.
Qed.

Lemma extends_attemptLoop n : ∀ k r, extends ids r (attemptLoop n s k r).2.
Proof using s_in_ids.
  induction n as [|n IH]; intros k r; simpl; [apply extends_refl|].
  pose proof (extends_launch k r) as H1. pose proof (launch_step k r) as Hs.
  destruct (launch s k r) as [t r1]. simpl in *.
  pose proof (extends_settle t r1 Hs) as H2.
  destruct (outcome t) as [v|e]; simpl.
  - eapply extends_trans; eauto.
  - destruct (k =? retriesOf s)%Z; simpl.
    + eapply extends_trans; eauto.
    + eapply extends_trans; [|apply IH].
      eapply extends_trans; [exact H1|]. eapply extends_trans; [exact H2|].
      apply extends_emit. eapply about_here; eauto.
Qed.

Lemma extends_executeStep r : extends ids r (executeStep s r).2.
Proof using s_in_ids. apply extends_attemptLoop. Qed.

Lemma extends_checkCondition r : extends ids r (checkCondition s r).2.
Proof using s_in_ids.
  unfold checkCondition. destruct (WorkflowStep.condition s) as [[[|]|e]|]; simpl;
    try apply extends_refl; apply extends_emit; eapply about_here; eauto.
Qed.

Lemma extends_succeed v r : extends ids r (succeed s v r).2.
Proof using s_in_ids.
  unfold succeed. destruct (WorkflowStep.onSuccess s); simpl.
  - eapply extends_trans; [by apply extends_setResult|].
    apply extends_emit. eapply about_here; eauto.
  - by apply extends_setResult.
Qed.

Lemma extends_catchBlock e r : extends ids r (catchBlock s e r).2.
Proof using s_in_ids.
  unfold catchBlock. destruct (WorkflowStep.onError s); simpl.
  - eapply extends_trans; [by apply extends_setError|].
    apply extends_emit. eapply about_here; eauto.
  - by apply extends_setError.
Qed.

Lemma catchBlock_records e r :
  is_Some (JsMap.get (WorkflowStep.id s) (errors (catchBlock s e r).2)).
Proof.
  unfold catchBlock. destruct (WorkflowStep.onError s); simpl;
    rewrite JsMap_get_set_cases, bool_decide_eq_true_2; eauto.
Qed.

Lemma afterCatch_run c : (afterCatch c).2 = c.2.
Proof. by destruct c as [[[]|e] r]. Qed.

Lemma afterCatch_halts c : (afterCatch c).1 ≠ Continue.
Proof. by destruct c as [[[]|e] r]. Qed.

Lemma extends_runStep r : extends ids r (runStep s r).2.
Proof using s_in_ids.
  unfold runStep.
  pose proof (extends_checkCondition r) as H1.
  destruct (checkCondition s r) as [[| |e] r1]; simpl in *; auto.
  - pose proof (extends_executeStep r1) as H2.
    destruct (executeStep s r1) as [[v|e] r2]; simpl in *.
    + pose proof (extends_succeed v r2) as H3.
      destruct (succeed s v r2) as [[[]|e] r3]; simpl in *.
      * eauto using extends_trans.
      * rewrite afterCatch_run.
        eauto using extends_trans, extends_catchBlock.
    + rewrite afterCatch_run. eauto using extends_trans, extends_catchBlock.
  - rewrite afterCatch_run. eauto using extends_trans, extends_catchBlock.
Qed.

(** An iteration that does not continue the loop went through the [catch]
    block, which recorded the step. *)
Lemma runStep_halt_records r :
  (runStep s r).1 ≠ Continue →
  is_Some (JsMap.get (WorkflowStep.id s) (errors (runStep s r).2)).
Proof.
  unfold runStep.
  destruct (checkCondition s r) as [[| |e] r1]; simpl.
  - destruct (executeStep s r1) as [[v|e] r2]; simpl.
    + destruct (succeed s v r2) as [[[]|e] r3]; simpl; [done|].
      intros _. rewrite afterCatch_run. apply catchBlock_records.
    + intros _. rewrite afterCatch_run. apply catchBlock_records.
  - done.
  - intros _. rewrite afterCatch_run. apply catchBlock_records.
Qed.

Lemma runStep_fails r : stepFails s → (runStep s r).1 ≠ Continue.
Proof.
  intros (Hen & Hret & Hfail). unfold runStep.
  assert (∃ r1, checkCondition s r = (Proceed, r1)) as [r1 ->].
  { unfold checkCondition, enabled in *.
    destruct (WorkflowStep.condition s) as [[[|]|e]|]; try discriminate; eauto. }
  destruct (attemptLoop_all_fail s (Z.to_nat (retriesOf s + 1)) 0%Z r1)
    as (e & r2 & rest & Hloop & _); [lia | lia | done |].
  unfold executeStep. rewrite Hloop. apply afterCatch_halts.
Qed.
End RunFootprint.

(** ** WorkflowBuilder: the sequential policy *)

Section Sequential.
Import WorkflowBuilder Engine Footprint.

Lemma extends_executeSequential steps :
  ∀ r, extends (map WorkflowStep.id steps) r (executeSequential steps r).2.
Proof.
  induction steps as [|s steps IH]; intros r; simpl; [apply extends_refl|].
  assert (Hs : extends (WorkflowStep.id s :: map WorkflowStep.id steps) r
                       (runStep s r).2).
  { apply extends_runStep. apply list_elem_of_here. }
  destruct (runStep s r) as [[| |e] r1]; simpl in *; auto.
  eapply extends_trans; [exact Hs|].
  eapply extends_weaken; [|apply IH]. intros i Hi. by apply list_elem_of_further.
Qed.

(** Once a step fails, the steps declared after it make no difference. *)
Lemma executeSequential_cut pre s post :
  stepFails s →
  ∀ r, executeSequential (pre ++ s :: post) r = executeSequential (pre ++ [s]) r.
Proof.
  intros Hfail. induction pre as [|p pre IH]; intros r; simpl.
  - pose proof (runStep_fails s r Hfail) as Hhalt.
    by destruct (runStep s r) as [[| |e] r1].
  - destruct (runStep p r) as [[| |e] r1]; auto.
Qed.

(** A run through a failing step records a failure. *)
Lemma executeSequential_records pre s :
  stepFails s →
  ∀ r, ∃ q, q ∈ pre ++ [s] ∧
            is_Some (JsMap.get (WorkflowStep.id q)
                       (errors (executeSequential (pre ++ [s]) r).2)).
Proof.
  intros Hfail. induction pre as [|p pre IH]; intros r; simpl.
  - exists s. split; [apply list_elem_of_here|].
    pose proof (runStep_fails s r Hfail) as Hhalt.
    pose proof (runStep_halt_records s r Hhalt) as Hrec.
    by destruct (runStep s r) as [[| |e] r1].
  - pose proof (runStep_halt_records p r) as Hrec.
    destruct (runStep p r) as [[| |e] r1]; simpl in *.
    + destruct (IH r1) as (q & Hq & Hget). exists q. split; [|done].
      by apply list_elem_of_further.
    + exists p. split; [apply list_elem_of_here | by apply Hrec].
    + exists p. split; [apply list_elem_of_here | by apply Hrec].
Qed.

Lemma JsMap_size_positive {V : Type} (k : string) (m : JsMap.t V) :
  is_Some (JsMap.get k m) → JsMap.size m ≠ 0%nat.
Proof. destruct m; [by intros [? ?] | done]. Qed.

Lemma reportFailure_extends ids r : extends ids r (reportFailure r).
Proof. apply extends_emit. intros i Hi. discriminate. Qed.
End Sequential.

(** ** Claims about the sequential policy and retries *)

(** C3. For every step whose [retries] field is N (N ≥ 0) and whose action
    fails or times out on every attempt, [executeStep] throws after exactly
    N + 1 invocations of the action, attempts 0 to N; the first starts when
    [executeStep] is called and each later one at the very time the previous
    attempt settled, with no delay in between. *)
Theorem executeStep_attempts (s : WorkflowStep.t) (N : Z) (r : WorkflowBuilder.Run) :
  WorkflowStep.retries s = Some N → (0 ≤ N)%Z →
  (∀ k, (0 ≤ k ≤ N)%Z → Engine.attemptFails s k) →
  ∃ e r' new,
    WorkflowBuilder.executeStep s r = (Throw e, r') ∧
    WorkflowBuilder.trace r' = WorkflowBuilder.trace r ++ new ∧
    Z.of_nat (length (filter Engine.isInvocation new)) = (N + 1)%Z ∧
    (∀ k, (0 ≤ k ≤ N)%Z → ∃ t, Invoked (WorkflowStep.id s) k t ∈ new) ∧
    (∃ rest, new = Invoked (WorkflowStep.id s) 0 (WorkflowBuilder.clock r) :: rest) ∧
    (∀ k, (0 ≤ k < N)%Z →
          ∃ t, Settled (WorkflowStep.id s) k t false ∈ new ∧
               Invoked (WorkflowStep.id s) (k + 1) t ∈ new).
Proof.
  intros Hretries HN Hfail.
  assert (HretriesOf : WorkflowBuilder.retriesOf s = N).
  { unfold WorkflowBuilder.retriesOf. by rewrite Hretries. }
  destruct (attemptLoop_all_fail s (Z.to_nat (N + 1)) 0%Z r)
    as (e & r' & rest & Hloop & Htrace & _ & _ & Hcount & _ & Hall & Hnext).
  { rewrite HretriesOf. lia. }
  { rewrite HretriesOf. lia. }
  { rewrite HretriesOf. done. }
  rewrite HretriesOf in Hall, Hnext.
  exists e, r', (Invoked (WorkflowStep.id s) 0 (WorkflowBuilder.clock r) :: rest).
  unfold WorkflowBuilder.executeStep. rewrite HretriesOf.
  split_and!; auto.
  - rewrite filter_cons. simpl. rewrite Hcount. lia.
  - intros k Hk. destruct (decide (k = 0%Z)) as [->|Hne].
    + eexists. apply list_elem_of_here.
    + destruct (Hall k) as [t Ht]; [lia|]. exists t. by apply list_elem_of_further.
  - eauto.
  - intros k Hk. destruct (Hnext k Hk) as (t & H1 & H2).
    exists t. split; by apply list_elem_of_further.
Qed.

Lemma executeStep_attempts_witness :
  ∃ e r' new,
    WorkflowBuilder.executeStep (Examples.failing "flaky" (Some 2%Z))
      (Examples.freshRun 0) = (Throw e, r') ∧
    WorkflowBuilder.trace r' = [] ++ new ∧
    Z.of_nat (length (filter Engine.isInvocation new)) = (2 + 1)%Z ∧
    (∀ k, (0 ≤ k ≤ 2)%Z → ∃ t, Invoked "flaky" k t ∈ new) ∧
    (∃ rest, new = Invoked "flaky" 0 0 :: rest) ∧
    (∀ k, (0 ≤ k < 2)%Z →
          ∃ t, Settled "flaky" k t false ∈ new ∧ Invoked "flaky" (k + 1) t ∈ new).
Proof.
  apply (executeStep_attempts (Examples.failing "flaky" (Some 2%Z)) 2%Z
           (Examples.freshRun 0)).
  - reflexivity.
  - lia.
  - intros k _. reflexivity.
Defined.

(** C2, as stated, at an optional node A whose action fails, followed by B:
    the run halts and B is never invoked. *)
Lemma sequential_optional_counterexample :
  ∃ ex,
    WorkflowBuilder.execute (Engine.workflowOf false Examples.optionalNodes) "graph" 0
    = Some (Normal ex) ∧
    ¬ Engine.optionalFailuresContinue Examples.optionalNodes ex.
Proof.
  eexists. split; [vm_compute; reflexivity|].
  intros Hclaim.
  destruct (Hclaim 0%nat _ _ eq_refl eq_refl eq_refl) as (k & t & Hin).
  { vm_compute. eauto. }
  { reflexivity. }
  simpl in Hin.
  repeat (apply elem_of_cons in Hin as [Hin|Hin]; [discriminate|]).
  by apply elem_of_nil in Hin.
Qed.

(** C2, amended. Under the sequential policy, when the action of a step fails
    on every attempt it is allowed, the run halts there at the latest: the
    returned result has [success = false], the failure of that step or of an
    earlier one is recorded in [errors], and the steps declared after it are
    skipped: the run is the one of the workflow cut after that step, so that
    for a later step (under an id of its own) neither its condition nor its
    action is invoked and it gets no entry in [results] or [errors]. A step
    has no optional flag: the failure of any step halts the run. *)
Theorem sequential_halts_on_failure
    (workflows : WorkflowBuilder.t) (name : string) (workflow : Workflow.t)
    (now : Z) (pre post : list WorkflowStep.t) (s : WorkflowStep.t) :
  WorkflowBuilder.getWorkflow name workflows = Some workflow →
  Workflow.parallel workflow = false →
  Workflow.steps workflow = pre ++ s :: post →
  Engine.stepFails s →
  ∃ ex,
    WorkflowBuilder.execute workflows name now = Some (Normal ex) ∧
    WorkflowResult.success (WorkflowBuilder.result ex) = false ∧
    (∃ q, q ∈ pre ++ [s] ∧
          is_Some (JsMap.get (WorkflowStep.id q)
                     (WorkflowResult.errors (WorkflowBuilder.result ex)))) ∧
    (∀ r, WorkflowBuilder.executeSequential (pre ++ s :: post) r
          = WorkflowBuilder.executeSequential (pre ++ [s]) r) ∧
    ∀ m, m ∈ post → WorkflowStep.id m ∉ map WorkflowStep.id (pre ++ [s]) →
         (∀ ev, ev ∈ WorkflowBuilder.events ex →
                Engine.eventId ev ≠ Some (WorkflowStep.id m)) ∧
         JsMap.get (WorkflowStep.id m)
           (WorkflowResult.results (WorkflowBuilder.result ex)) = None ∧
         JsMap.get (WorkflowStep.id m)
           (WorkflowResult.errors (WorkflowBuilder.result ex)) = None.
Proof.
  intros Hget Hseq Hsteps Hfail.
  unfold WorkflowBuilder.execute, WorkflowBuilder.getWorkflow in *.
  rewrite Hget, Hseq, Hsteps, (executeSequential_cut pre s post Hfail).
  set (r0 := {| WorkflowBuilder.clock := now; WorkflowBuilder.trace := [];
                WorkflowBuilder.results := JsMap.empty;
                WorkflowBuilder.errors := JsMap.empty |}).
  pose proof (extends_executeSequential (pre ++ [s]) r0) as Hext.
  destruct (executeSequential_records pre s Hfail r0) as (q & Hq & Hrec).
  assert (∃ r, Footprint.extends (map WorkflowStep.id (pre ++ [s])) r0 r ∧
               is_Some (JsMap.get (WorkflowStep.id q) (WorkflowBuilder.errors r)) ∧
               (let finished :=
                  match WorkflowBuilder.executeSequential (pre ++ [s]) r0 with
                  | (Normal _, r) => Some (r, WorkflowBuilder.clock r)
                  | (Throw _, r) =>
                      Some (WorkflowBuilder.reportFailure r, WorkflowBuilder.clock r)
                  end in
                ∃ time, finished = Some (r, time)))
    as (r & Hr & Hqr & time & Hfin).
  { destruct (WorkflowBuilder.executeSequential (pre ++ [s]) r0) as [[[]|e] r1];
      simpl in *.
    - exists r1. eauto.
    - exists (WorkflowBuilder.reportFailure r1). split_and!; eauto.
      eapply extends_trans; [exact Hext | apply reportFailure_extends]. }
  simpl in Hfin. rewrite Hfin.
  eexists. split; [reflexivity|]. simpl.
  destruct Hr as [(new & Htrace & Hnew) _ Hres Herr _]. simpl in *.
  split_and!.
  - apply bool_decide_eq_false. by eapply JsMap_size_positive.
  - eauto.
  - by apply executeSequential_cut.
  - intros m Hm Hfresh. split_and!.
    + intros ev Hev Hid. rewrite Htrace in Hev.
      rewrite Forall_forall in Hnew. by apply Hfresh, (Hnew ev Hev).
    + destruct (JsMap.get (WorkflowStep.id m) (WorkflowBuilder.results r)) eqn:Hg;
        [|done].
      destruct (Hres (WorkflowStep.id m)) as [[? H]|H];
        [by rewrite Hg | discriminate H | by apply Hfresh in H].
    + destruct (JsMap.get (WorkflowStep.id m) (WorkflowBuilder.errors r)) eqn:Hg;
        [|done].
      destruct (Herr (WorkflowStep.id m)) as [[? H]|H];
        [by rewrite Hg | discriminate H | by apply Hfresh in H].
Qed.

Lemma sequential_halts_on_failure_witness :
  ∃ ex,
    WorkflowBuilder.execute (Engine.workflowOf false Examples.optionalNodes) "graph" 0
    = Some (Normal ex) ∧
    WorkflowResult.success (WorkflowBuilder.result ex) = false ∧
    (∃ q, q ∈ [] ++ [Examples.failing "A" None] ∧
          is_Some (JsMap.get (WorkflowStep.id q)
                     (WorkflowResult.errors (WorkflowBuilder.result ex)))) ∧
    (∀ r, WorkflowBuilder.executeSequential
            ([] ++ Examples.failing "A" None :: [Examples.succeeding "B"]) r
          = WorkflowBuilder.executeSequential ([] ++ [Examples.failing "A" None]) r) ∧
    ∀ m, m ∈ [Examples.succeeding "B"] →
         WorkflowStep.id m ∉ map WorkflowStep.id ([] ++ [Examples.failing "A" None]) →
         (∀ ev, ev ∈ WorkflowBuilder.events ex →
                Engine.eventId ev ≠ Some (WorkflowStep.id m)) ∧
         JsMap.get (WorkflowStep.id m)
           (WorkflowResult.results (WorkflowBuilder.result ex)) = None ∧
         JsMap.get (WorkflowStep.id m)
           (WorkflowResult.errors (WorkflowBuilder.result ex)) = None.
Proof.
  apply (sequential_halts_on_failure
           (Engine.workflowOf false Examples.optionalNodes) "graph"
           (Engine.graphWorkflow false Examples.optionalNodes) 0%Z
           [] [Examples.succeeding "B"] (Examples.failing "A" None)).
  - reflexivity.
  - reflexivity.
  - reflexivity.
  - split_and!.
    + reflexivity.
    + vm_compute. discriminate.
    + intros k _. reflexivity.
Defined.

(** ** WorkflowBuilder: the parallel policy *)

Section Parallel.
Import WorkflowBuilder Engine Footprint.

Lemma takeEarliest_perm ts :
  ∀ t, (takeEarliest t ts).1 :: (takeEarliest t ts).2 ≡ₚ t :: ts.
Proof.
  induction ts as [|t' ts IH]; intros t; simpl; [done|].
  specialize (IH t'). destruct (takeEarliest t' ts) as [m rest]. simpl in IH.
  destruct (settlesAt m <? settlesAt t)%Z; simpl; [|done].
  rewrite perm_swap. by rewrite IH.
Qed.

(** One turn of the event loop: the callback of [m] resumes. *)
Lemma resume_spec ids m p :
  WorkflowStep.id (step m) ∈ ids → stepsAmong ids (tasks p) →
  extends ids (run p) (run (resume m p)) ∧
  stepsAmong ids (tasks (resume m p)) ∧
  (sum_list_with attemptsLeft (tasks (resume m p)) + 1
   ≤ attemptsLeft m + sum_list_with attemptsLeft (tasks p))%nat.
Proof.
  intros Hm Hts. unfold resume.
  pose proof (extends_settle (step m) ids Hm m (run p) eq_refl) as H1.
  set (r1 := settle m (run p)) in *.
  assert (Hfinish : ∀ c, extends ids (run p) c.2 →
            extends ids (run p) (run (finish c p)) ∧
            stepsAmong ids (tasks (finish c p)) ∧
            (sum_list_with attemptsLeft (tasks (finish c p)) + 1
             ≤ attemptsLeft m + sum_list_with attemptsLeft (tasks p))%nat).
  { intros [[[]|e] r] Hr; simpl in *; split_and!; auto;
      unfold attemptsLeft; lia. }
  assert (Hsucceed : ∀ v r, extends ids (run p) r →
            let p' := match succeed (step m) v r with
                      | (Normal _, r3) => withRun r3 p
                      | (Throw e', r3) => finish (catchBlock (step m) e' r3) p
                      end in
            extends ids (run p) (run p') ∧ stepsAmong ids (tasks p') ∧
            (sum_list_with attemptsLeft (tasks p') + 1
             ≤ attemptsLeft m + sum_list_with attemptsLeft (tasks p))%nat).
  { intros v r Hr.
    pose proof (extends_succeed (step m) ids Hm v r) as H2.
    destruct (succeed (step m) v r) as [[[]|e'] r3]; simpl in *.
    - split_and!; eauto using extends_trans. unfold attemptsLeft. lia.
    - apply Hfinish.
      eauto using extends_trans, extends_catchBlock. }
  destruct (outcome m) as [v|e].
  - by apply Hsucceed.
  - destruct (attempt m =? retriesOf (step m))%Z.
    + apply Hfinish. eauto using extends_trans, extends_catchBlock.
    + set (r2 := emit (Logged (retryMessage (step m) (attempt m))) r1).
      assert (H2 : extends ids (run p) r2).
      { eapply extends_trans; [exact H1|]. apply extends_emit.
        intros i Hi. discriminate. }
      destruct (attempt m + 1 <=? retriesOf (step m))%Z eqn:Hle.
      * apply Z.leb_le in Hle.
        pose proof (extends_launch (step m) ids Hm (attempt m + 1) r2) as H3.
        pose proof (launch_step (step m) (attempt m + 1) r2) as Hs.
        assert (Hatt : attempt (launch (step m) (attempt m + 1) r2).1
                       = (attempt m + 1)%Z).
        { unfold launch. by destruct (executeWithTimeout _ _). }
        destruct (launch (step m) (attempt m + 1) r2) as [t' r3]. simpl in *.
        split_and!.
        -- eauto using extends_trans.
        -- intros t Ht. apply elem_of_app in Ht as [Ht|Ht]; auto.
           apply list_elem_of_singleton in Ht as ->. by rewrite Hs.
        -- rewrite sum_list_with_app. simpl. rewrite Hs, Hatt. lia.
      * by apply Hsucceed.
Qed.

(** The event loop ends, with no attempt left in flight. *)
Lemma drain_spec ids (budget : nat) :
  ∀ p,
    (sum_list_with attemptsLeft (tasks p) ≤ budget)%nat →
    stepsAmong ids (tasks p) →
    ∃ p', drain budget p = Some p' ∧ extends ids (run p) (run p') ∧ tasks p' = [].
Proof.
  induction budget as [|budget IH]; intros p Hsum Hids.
  - destruct (tasks p) as [|t ts] eqn:Hts.
    + exists p. simpl. rewrite Hts. split_and!; auto using extends_refl.
    + simpl in Hsum. unfold attemptsLeft in Hsum. lia.
  - simpl. destruct (tasks p) as [|t ts] eqn:Hts.
    { exists p. split_and!; auto using extends_refl. }
    pose proof (takeEarliest_perm ts t) as Hperm.
    destruct (takeEarliest t ts) as [m rest]. simpl in Hperm.
    set (p0 := {| run := run p; tasks := rest; rejectedAt := rejectedAt p |}).
    assert (Hm : WorkflowStep.id (step m) ∈ ids).
    { apply Hids. rewrite <- Hperm. apply list_elem_of_here. }
    assert (Hrest : stepsAmong ids (tasks p0)).
    { intros t' Ht'. apply Hids. rewrite <- Hperm. by apply list_elem_of_further. }
    destruct (resume_spec ids m p0 Hm Hrest) as (Hext & Hamong & Hless).
    set (p1 := resume m p0) in *.
    set (p2 := match rejectedAt p, rejectedAt p1 with
               | None, Some _ => withRun (reportFailure (run p1)) p1
               | _, _ => p1
               end).
    assert (Htasks : tasks p2 = tasks p1).
    { unfold p2. by destruct (rejectedAt p), (rejectedAt p1). }
    assert (Hext2 : extends ids (run p) (run p2)).
    { unfold p2. destruct (rejectedAt p), (rejectedAt p1); simpl; auto.
      eapply extends_trans; [exact Hext | apply reportFailure_extends]. }
    destruct (IH p2) as (p' & Hdrain & Hext' & Hdone).
    { rewrite Htasks. simpl in Hless.
      rewrite <- Hperm in Hsum. simpl in Hsum. lia. }
    { by rewrite Htasks. }
    exists p'. split_and!; eauto using extends_trans.
Qed.

(** The callback of one step up to its first [await]. *)
Lemma startStep_spec s p :
  ∃ new,
    trace (run (startStep s p)) = trace (run p) ++ new ∧
    clock (run (startStep s p)) = clock (run p) ∧
    noSettlement new ∧
    filter isInvocation new
    = (if launchable s then [Invoked (WorkflowStep.id s) 0 (clock (run p))] else []) ∧
    Forall (about [WorkflowStep.id s]) new ∧
    ∀ t, t ∈ tasks (startStep s p) → t ∈ tasks p ∨ step t = s.
Proof.
  unfold startStep, checkCondition, launchable, enabled, beginStep, launch,
    catchBlock, noSettlement.
  destruct (WorkflowStep.condition s) as [[[|]|e]|]; simpl;
    repeat
      match goal with
      | |- context [(0 <=? ?x)%Z] => destruct (0 <=? x)%Z
      | |- context [executeWithTimeout ?a ?b] => destruct (executeWithTimeout a b)
      | |- context [WorkflowStep.onError ?s] => destruct (WorkflowStep.onError s)
      | |- context [finish (?f ?e, ?r) ?p] => is_var f; destruct (f e) as [[]|?]
      end; simpl; rewrite <- ?app_assoc; simpl;
    (eexists; split_and!;
     [ first [reflexivity | symmetry; apply app_nil_r]
     | reflexivity
     | repeat (apply Forall_cons_2; [reflexivity|]); apply Forall_nil_2
     | reflexivity
     | repeat (apply Forall_cons_2;
               [intros i Hi; simplify_eq/=; apply list_elem_of_here|]);
       apply Forall_nil_2
     | intros t Ht;
       first [ by left
             | apply elem_of_app in Ht as [Ht|Ht];
               [by left | apply list_elem_of_singleton in Ht as ->; by right] ] ]).
Qed.

Lemma startSteps_spec steps :
  ∀ p,
    let p' := fold_left (λ p s, startStep s p) steps p in
    ∃ new,
      trace (run p') = trace (run p) ++ new ∧
      clock (run p') = clock (run p) ∧
      noSettlement new ∧
      filter isInvocation new
      = map (λ s, Invoked (WorkflowStep.id s) 0 (clock (run p)))
            (filter launchable steps) ∧
      Forall (about (map WorkflowStep.id steps)) new ∧
      ∀ t, t ∈ tasks p' → t ∈ tasks p ∨ step t ∈ steps.
Proof.
  induction steps as [|s steps IH]; intros p; simpl.
  - exists []. rewrite app_nil_r. split_and!; auto; constructor.
  - destruct (startStep_spec s p) as (n1 & Ht1 & Hc1 & Hs1 & Hi1 & Ha1 & Hk1).
    destruct (IH (startStep s p)) as (n2 & Ht2 & Hc2 & Hs2 & Hi2 & Ha2 & Hk2).
    exists (n1 ++ n2). split_and!.
    + by rewrite Ht2, Ht1, app_assoc.
    + by rewrite Hc2.
    + by apply Forall_app.
    + rewrite filter_app, Hi1, Hi2, Hc1.
      rewrite filter_cons.
      destruct (decide (launchable s)) as [Hd|Hd];
        destruct (launchable s); simpl in *; done.
    + apply Forall_app. split.
      * eapply Forall_impl; [exact Ha1|]. intros ev Hev i Hi.
        specialize (Hev i Hi). apply list_elem_of_singleton in Hev as ->.
        apply list_elem_of_here.
      * eapply Forall_impl; [exact Ha2|]. intros ev Hev i Hi.
        by apply list_elem_of_further, Hev.
    + intros t Ht. destruct (Hk2 t Ht) as [Ht'|Ht'].
      * destruct (Hk1 t Ht') as [?|Hst]; auto. right. rewrite Hst.
        apply list_elem_of_here.
      * right. by apply list_elem_of_further.
Qed.
End Parallel.

Section Execute.
Import WorkflowBuilder Engine Footprint.

Lemma launchAll_spec steps r :
  ∃ launched,
    trace (run (launchAll steps r)) = trace r ++ launched ∧
    noSettlement launched ∧
    filter isInvocation launched
    = map (λ s, Invoked (WorkflowStep.id s) 0 (clock r)) (filter launchable steps) ∧
    Forall (about (map WorkflowStep.id steps)) launched ∧
    stepsAmong (map WorkflowStep.id steps) (tasks (launchAll steps r)).
Proof.
  unfold launchAll.
  destruct (startSteps_spec steps {| run := r; tasks := []; rejectedAt := None |})
    as (new & Ht & Hc & Hs & Hi & Ha & Hk).
  simpl in *.
  set (p := fold_left (λ p s, startStep s p) steps
              {| run := r; tasks := []; rejectedAt := None |}) in *.
  assert (Hamong : stepsAmong (map WorkflowStep.id steps) (tasks p)).
  { intros t Ht'. destruct (Hk t Ht') as [Hnil|Hin].
    - by apply elem_of_nil in Hnil.
    - apply list_elem_of_fmap. eauto. }
  destruct (rejectedAt p); simpl.
  - exists (new ++ [LoggedError "Workflow execution failed:"]).
    rewrite Ht, app_assoc. split_and!; auto.
    + apply Forall_app. split; [done|]. by apply Forall_singleton.
    + rewrite filter_app, Hi. simpl. by rewrite app_nil_r.
    + apply Forall_app. split; [done|]. apply Forall_singleton.
      intros i Hi'. discriminate.
  - exists new. split_and!; auto.
Qed.

(** [executeParallel] ends; its events start with the launch of every
    step that can start. *)
Lemma executeParallel_spec steps r :
  ∃ p launched rest,
    executeParallel steps r = Some p ∧
    trace (run p) = trace r ++ launched ++ rest ∧
    noSettlement launched ∧
    filter isInvocation launched
    = map (λ s, Invoked (WorkflowStep.id s) 0 (clock r)) (filter launchable steps) ∧
    Forall (about (map WorkflowStep.id steps)) (launched ++ rest).
Proof.
  unfold executeParallel.
  destruct (launchAll_spec steps r) as (launched & Ht & Hs & Hi & Ha & Hamong).
  destruct (drain_spec (map WorkflowStep.id steps)
              (sum_list_with attemptsLeft (tasks (launchAll steps r)))
              (launchAll steps r)) as (p & Hdrain & Hext & _); [lia | done |].
  destruct Hext as [(rest & Hrest & Hr) _ _ _ _].
  exists p, launched, rest. split_and!; auto.
  - by rewrite Hrest, Ht, app_assoc.
  - by apply Forall_app.
Qed.

(** [execute] returns a result for every workflow the builder holds, and
    what it does concerns the steps of that workflow only. *)
Lemma execute_returns workflows name workflow now :
  getWorkflow name workflows = Some workflow →
  ∃ ex,
    execute workflows name now = Some (Normal ex) ∧
    Forall (about (map WorkflowStep.id (Workflow.steps workflow))) (events ex).
Proof.
  intros Hget. unfold execute, getWorkflow in *. rewrite Hget.
  set (r0 := {| clock := now; trace := []; results := JsMap.empty;
                errors := JsMap.empty |}).
  destruct (Workflow.parallel workflow).
  - destruct (executeParallel_spec (Workflow.steps workflow) r0)
      as (p & launched & rest & -> & Ht & _ & _ & Ha).
    eexists. split; [reflexivity|]. simpl. by rewrite Ht.
  - pose proof (extends_executeSequential (Workflow.steps workflow) r0) as Hext.
    destruct (executeSequential (Workflow.steps workflow) r0) as [[[]|e] r];
      simpl in Hext.
    + eexists. split; [reflexivity|]. simpl.
      destruct Hext as [(new & -> & Hnew) _ _ _ _]. done.
    + eexists. split; [reflexivity|]. simpl.
      destruct Hext as [(new & -> & Hnew) _ _ _ _]. simpl.
      apply Forall_app. split; [done|]. apply Forall_singleton.
      intros i Hi. discriminate.
Qed.
End Execute.

(** ** Claims about the parallel policy *)

(** C1, as stated, at the graph in which B declares a dependency on A: the
    action of B is invoked before any attempt of A has settled. *)
Lemma parallel_dependencies_counterexample :
  ∃ ex,
    WorkflowBuilder.execute (Engine.workflowOf true Examples.dependentNodes) "graph" 0
    = Some (Normal ex) ∧
    ¬ Engine.respectsDependencies Examples.dependentNodes (WorkflowBuilder.events ex).
Proof.
  eexists. split; [vm_compute; reflexivity|].
  intros Hclaim.
  destruct (Hclaim {| Node.step := Examples.succeeding "B";
                      Node.dependencies := ["A"]; Node.optional := false |}
              "A" 1%nat 0%Z 0%Z) as (j & k' & t' & ok & Hj & Hev).
  - apply list_elem_of_further, list_elem_of_here.
  - apply list_elem_of_here.
  - reflexivity.
  - assert (j = 0%nat) as -> by lia. discriminate Hev.
Qed.

(** C1, amended. Under the parallel policy [execute] starts all steps at
    once: it invokes the action of every step that can start (its condition
    lets it run and its retry count is not negative) in declaration order, at
    the time of the call and before any attempt has settled. No step waits
    for another one; a step declares no dependencies to the engine. *)
Theorem parallel_launches_all_at_once
    (workflows : WorkflowBuilder.t) (name : string) (workflow : Workflow.t) (now : Z) :
  WorkflowBuilder.getWorkflow name workflows = Some workflow →
  Workflow.parallel workflow = true →
  ∃ ex launched rest,
    WorkflowBuilder.execute workflows name now = Some (Normal ex) ∧
    WorkflowBuilder.events ex = launched ++ rest ∧
    Forall (λ ev, Engine.isSettlement ev = false) launched ∧
    filter Engine.isInvocation launched
    = map (λ s, Invoked (WorkflowStep.id s) 0 now)
          (filter Engine.launchable (Workflow.steps workflow)).
Proof.
  intros Hget Hpar. unfold WorkflowBuilder.execute, WorkflowBuilder.getWorkflow in *.
  rewrite Hget, Hpar.
  destruct (executeParallel_spec (Workflow.steps workflow)
              {| WorkflowBuilder.clock := now; WorkflowBuilder.trace := [];
                 WorkflowBuilder.results := JsMap.empty;
                 WorkflowBuilder.errors := JsMap.empty |})
    as (p & launched & rest & -> & Ht & Hs & Hi & _).
  eexists _, launched, rest. split; [reflexivity|]. simpl. auto.
Qed.

Lemma parallel_launches_all_at_once_witness :
  ∃ ex launched rest,
    WorkflowBuilder.execute (Engine.workflowOf true Examples.dependentNodes) "graph" 0
    = Some (Normal ex) ∧
    WorkflowBuilder.events ex = launched ++ rest ∧
    Forall (λ ev, Engine.isSettlement ev = false) launched ∧
    filter Engine.isInvocation launched
    = map (λ s, Invoked (WorkflowStep.id s) 0 0)
          (filter Engine.launchable (map Node.step Examples.dependentNodes)).
Proof.
  apply (parallel_launches_all_at_once
           (Engine.workflowOf true Examples.dependentNodes) "graph"
           (Engine.graphWorkflow true Examples.dependentNodes) 0%Z).
  - reflexivity.
  - reflexivity.
Defined.

(** ** Claims about cycles *)

(** C4, as stated, at the flow in which A depends on B and B on A: the
    message the claim quotes is not the one reported, and [execute] runs the
    two steps of that graph instead of refusing it. *)
Lemma cycle_counterexample :
  FlowBuilder.validateFlow Examples.cyclicFlow
  ≠ Some {| ValidationResult.valid := false;
            ValidationResult.errors := ["circular dependency: A -> B -> A"] |} ∧
  ∃ ex,
    WorkflowBuilder.execute (Engine.workflowOf false Examples.cyclicNodes) "graph" 0
    = Some (Normal ex) ∧
    Invoked "A" 0 0 ∈ WorkflowBuilder.events ex ∧
    WorkflowResult.success (WorkflowBuilder.result ex) = true.
Proof.
  split; [vm_compute; discriminate|].
  eexists. split; [vm_compute; reflexivity|]. split; [|reflexivity].
  apply list_elem_of_here.
Qed.

(** C4, amended. For every flow with pairwise-distinct step ids that contains
    a dependency cycle, [validateFlow] returns [valid = false] with at least
    one error "Circular dependency detected: <path> -> <id>" in which <path>
    is a chain of declared dependencies that already contains <id>; for the
    flow in which A depends on B and B on A the error list is exactly
    ["Circular dependency detected: A -> B -> A"]. [execute] does not
    validate anything: for every workflow the builder holds it runs the
    workflow and returns a result. *)
Theorem validateFlow_reports_cycle :
  (∀ flow,
     Graph.distinctIds flow → Graph.hasCycle flow →
     ∃ r msg,
       FlowBuilder.validateFlow flow = Some r ∧
       ValidationResult.valid r = false ∧
       msg ∈ ValidationResult.errors r ∧
       Graph.namesCycle flow msg) ∧
  FlowBuilder.validateFlow Examples.cyclicFlow
  = Some {| ValidationResult.valid := false;
            ValidationResult.errors :=
              ["Circular dependency detected: A -> B -> A"] |} ∧
  (∀ workflows name workflow now,
     WorkflowBuilder.getWorkflow name workflows = Some workflow →
     ∃ ex, WorkflowBuilder.execute workflows name now = Some (Normal ex)).
Proof.
  split_and!; [|vm_compute; reflexivity|].
  - intros flow Hnd [x Hcyc]. unfold FlowBuilder.validateFlow.
    destruct (check_all_spec flow) as (st & Hrun & Hinv & _). rewrite Hrun.
    pose proof (check_all_complete flow st x Hrun
                  (tc_dependsOn_edge flow x x Hnd Hcyc)) as Herr.
    pose proof (Walk.ci_errors _ _ _ Hinv) as Hnames.
    destruct (FlowBuilder.errors st) as [|msg errs] eqn:He; [done|].
    eexists _, msg. split; [reflexivity|]. simpl. split_and!.
    + reflexivity.
    + apply list_elem_of_here.
    + by apply Forall_cons in Hnames as [? _].
  - intros workflows name workflow now Hget.
    destruct (execute_returns workflows name workflow now Hget) as (ex & Hex & _).
    eauto.
Qed.

Lemma cyclicFlow_hasCycle : Graph.hasCycle Examples.cyclicFlow.
Proof.
  exists "A". eapply tc_l; [|apply tc_once].
  - exists (Examples.flowStep "A" ["B"]). split_and!.
    + apply list_elem_of_here.
    + reflexivity.
    + apply list_elem_of_here.
  - exists (Examples.flowStep "B" ["A"]). split_and!.
    + apply list_elem_of_further, list_elem_of_here.
    + reflexivity.
    + apply list_elem_of_here.
Defined.

Lemma validateFlow_reports_cycle_witness :
  ∃ r msg,
    FlowBuilder.validateFlow Examples.cyclicFlow = Some r ∧
    ValidationResult.valid r = false ∧
    msg ∈ ValidationResult.errors r ∧
    Graph.namesCycle Examples.cyclicFlow msg.
Proof.
  apply (proj1 validateFlow_reports_cycle Examples.cyclicFlow).
  - unfold Graph.distinctIds. apply (bool_decide_unpack _). vm_compute. exact I.
  - exact cyclicFlow_hasCycle.
Defined.

(** ** Claims about the orchestrator *)

(** C8. In deployment mode, when the test step returns a result whose
    [success] is false, the deploy step is never called, the overall result
    has [success = false] and holds the test phase only, and the run reports
    the failed precondition: the error "Tests must pass before deployment"
    is written to the console. *)
Theorem deployment_requires_passing_tests
    (config : OrchestratorConfig.t) (tools : Tools.t) (now : Z)
    (testResult : JsValue) :
  OrchestratorConfig.mode config = "deployment" →
  completion (Tools.test tools (OrchestratorConfig.target config)) = Normal testResult →
  getProp testResult "success" = Normal (JBool false) →
  ∃ result events,
    AiCodeOrchestrator.orchestrate config tools now = (result, events) ∧
    OrchestratorResult.success result = false ∧
    OrchestratorResult.phases result = [("test", testResult)] ∧
    (∀ argument, Called "deploy" argument ∉ events) ∧
    Reported "Tests must pass before deployment" ∈ events.
Proof.
  intros Hmode Htest Hsuccess.
  unfold AiCodeOrchestrator.orchestrate, AiCodeOrchestrator.dispatch.
  rewrite Hmode.
  unfold AiCodeOrchestrator.runDeploymentMode, AiCodeOrchestrator.runAutoTest,
    AiCodeOrchestrator.call, AiCodeOrchestrator.setPhase, AiCodeOrchestrator.prop,
    AiCodeOrchestrator.target, mbind, AiCodeOrchestrator.orch_bind.
  simpl. rewrite Htest. simpl. rewrite Hsuccess. simpl.
  eexists _, _. split; [reflexivity|]. simpl. split_and!; auto.
  - intros argument Hin.
    apply elem_of_cons in Hin as [Hin|Hin]; [discriminate|].
    apply elem_of_cons in Hin as [Hin|Hin]; [discriminate|].
    by apply elem_of_nil in Hin.
  - apply list_elem_of_further, list_elem_of_here.
Qed.

Lemma deployment_requires_passing_tests_witness :
  ∃ result events,
    AiCodeOrchestrator.orchestrate (Examples.orchestratorConfig "deployment")
      Examples.failingTests 0 = (result, events) ∧
    OrchestratorResult.success result = false ∧
    OrchestratorResult.phases result
    = [("test", JObject [("success", JBool false)])] ∧
    (∀ argument, Called "deploy" argument ∉ events) ∧
    Reported "Tests must pass before deployment" ∈ events.
Proof.
  apply (deployment_requires_passing_tests
           (Examples.orchestratorConfig "deployment") Examples.failingTests 0%Z
           (JObject [("success", JBool false)])).
  - reflexivity.
  - reflexivity.
  - reflexivity.
Defined.

(** C9, on the code. Orchestrating in the mode "components" calls none of the
    utilities, records no phase and reports success: the switch of
    [orchestrate] has no case for it. *)
Theorem components_mode_runs_nothing (tools : Tools.t) (target : string) (now : Z) :
  AiCodeOrchestrator.orchestrate
    {| OrchestratorConfig.target := target;
       OrchestratorConfig.mode := "components";
       OrchestratorConfig.watch := None;
       OrchestratorConfig.interval := None;
       OrchestratorConfig.deployPlatform := None |}
    tools now
  = ({| OrchestratorResult.success := true;
        OrchestratorResult.phases := [];
        OrchestratorResult.duration := 0;
        OrchestratorResult.timestamp := now |}, []).
Proof.
  unfold AiCodeOrchestrator.orchestrate, AiCodeOrchestrator.dispatch. simpl.
  by rewrite Z.sub_diag.
Qed.

(** * Further properties of the code *)

(** ** FlowBuilder: what validateFlow accepts *)

Section ValidateExact.
Import FlowBuilder Walk.
Variable flow : Flow.t.

Lemma isChain_suffix l1 l2 :
  Graph.isChain flow (l1 ++ l2) → Graph.isChain flow l2.
Proof.
  intros Hchain i a b Ha Hb.
  apply (Hchain (length l1 + i)%nat).
  - rewrite lookup_app_r by lia. by replace (length l1 + i - length l1)%nat with i by lia.
  - rewrite lookup_app_r by lia.
    by replace (S (length l1 + i) - length l1)%nat with (S i) by lia.
Qed.

Lemma isChain_tc l a b :
  Graph.isChain flow (a :: l ++ [b]) → tc (Graph.dependsOn flow) a b.
Proof.
  revert a. induction l as [|c l IH]; intros a Hchain.
  - apply tc_once. by apply (Hchain 0%nat).
  - apply tc_l with c.
    + by apply (Hchain 0%nat).
    + apply IH. intros i x y Hx Hy. by apply (Hchain (S i)).
Qed.

Lemma namesCycle_hasCycle msg : Graph.namesCycle flow msg → Graph.hasCycle flow.
Proof.
  intros (path & x & _ & Hin & Hchain).
  apply list_elem_of_split in Hin as (l1 & l2 & ->).
  exists x. apply (isChain_tc l2).
  apply (isChain_suffix l1). by rewrite <- app_assoc in Hchain.
Qed.

Lemma validateFlow_errors r msg :
  validateFlow flow = Some r → msg ∈ ValidationResult.errors r →
  (Graph.namesCycle flow msg ∧ Graph.hasCycle flow) ∨
  (∃ s d, msg = missingMessage (FlowStep.id s) d ∧ s ∈ Flow.steps flow ∧
          d ∈ FlowStep.dependencies s ∧ d ∉ Graph.ids flow).
Proof.
  unfold validateFlow.
  destruct (check_all_spec flow) as (st & -> & Hinv & _).
  intros [= <-]; simpl. intros [Hmsg|Hmsg]%elem_of_app.
  - left. pose proof (ci_errors _ _ _ Hinv) as Herr.
    rewrite Forall_forall in Herr. specialize (Herr _ Hmsg).
    split; [done|]. by eapply namesCycle_hasCycle.
  - right. by apply missingDependencies_spec.
Qed.

Lemma validateFlow_accepts r :
  validateFlow flow = Some r →
  Graph.acyclic flow → Graph.fullyReferenced flow →
  r = {| ValidationResult.valid := true; ValidationResult.errors := [] |}.
Proof.
  intros Hr Hacyc Hfull.
  assert (Hnil : ValidationResult.errors r = []).
  { destruct (ValidationResult.errors r) as [|msg l] eqn:Herrs; [done|].
    exfalso.
    destruct (validateFlow_errors r msg Hr) as [[_ [x Hx]]|(s & d & _ & Hs & Hd & Hno)].
    - rewrite Herrs. apply list_elem_of_here.
    - by apply (Hacyc x).
    - apply Hno, (Hfull (FlowStep.id s)). by exists s. }
  revert Hr Hnil. unfold validateFlow.
  destruct (forEachM _ _ _) as [st|]; [|done].
  intros [= <-]; simpl. by intros ->.
Qed.

End ValidateExact.

(** X1. A flow whose step ids are distinct is accepted by [validateFlow]
    exactly when its dependency graph has no cycle and every dependency
    names a step of the flow. *)
Theorem validateFlow_accepts_exactly (flow : Flow.t) :
  Graph.distinctIds flow →
  ∃ r, FlowBuilder.validateFlow flow = Some r ∧
       (ValidationResult.valid r = true ↔
        Graph.acyclic flow ∧ Graph.fullyReferenced flow).
Proof.
  intros Hnd. destruct (validateFlow_total flow) as [r Hr].
  exists r. split; [done|]. split.
  - by apply validateFlow_valid.
  - intros [Hacyc Hfull]. by rewrite (validateFlow_accepts flow r Hr Hacyc Hfull).
Qed.

Lemma validateFlow_accepts_exactly_witness :
  Graph.distinctIds Examples.chainFlow ∧
  ∃ r, FlowBuilder.validateFlow Examples.chainFlow = Some r ∧
       (ValidationResult.valid r = true ↔
        Graph.acyclic Examples.chainFlow ∧
        Graph.fullyReferenced Examples.chainFlow).
Proof.
  assert (Hnd : Graph.distinctIds Examples.chainFlow).
  { unfold Graph.distinctIds. apply (bool_decide_unpack _). vm_compute. exact I. }
  split; [exact Hnd|].
  exact (validateFlow_accepts_exactly Examples.chainFlow Hnd).
Defined.

(** X2. [validateFlow] never reports an error without cause: every message
    it returns either names a dependency chain that leads back to a step
    already on it, in a flow that has a cycle, or names a step together
    with a dependency of it that no step of the flow carries. *)
Theorem validateFlow_errors_are_genuine (flow : Flow.t) :
  ∃ r, FlowBuilder.validateFlow flow = Some r ∧
       ∀ msg, msg ∈ ValidationResult.errors r →
         (Graph.namesCycle flow msg ∧ Graph.hasCycle flow) ∨
         (∃ s d, msg = FlowBuilder.missingMessage (FlowStep.id s) d ∧
                 s ∈ Flow.steps flow ∧
                 d ∈ FlowStep.dependencies s ∧ d ∉ Graph.ids flow).
Proof.
  destruct (validateFlow_total flow) as [r Hr].
  exists r. split; [done|]. intros msg. by apply validateFlow_errors.
Qed.

(** ** FlowBuilder: optimizeFlow on ordered flows and on duplicates *)

Section OptimizeOrdered.
Import FlowBuilder Walk.
Variable flow : Flow.t.

Lemma forEachM_skip {A S : Type} (f : A → S → option S) (xs : list A) (s : S) :
  (∀ x, x ∈ xs → f x s = Some s) → forEachM f xs s = Some s.
Proof.
  induction xs as [|x xs IH]; intros Hf; simpl; [done|].
  rewrite Hf by apply list_elem_of_here.
  apply IH. intros y Hy. apply Hf. by apply list_elem_of_further.
Qed.

Lemma visit_seen depth x st :
  x ∈ seen st → visit (S depth) flow x st = Some st.
Proof. intros Hx. simpl. by rewrite bool_decide_eq_true_2. Qed.

Lemma visit_ready depth x st step :
  findStep flow x = Some step → x ∉ seen st →
  (∀ d, d ∈ FlowStep.dependencies step → d ∈ seen st) →
  visit (S (S depth)) flow x st
  = Some {| seen := {[x]} ∪ seen st; sorted := sorted st ++ [step] |}.
Proof.
  intros Hfind Hx Hdeps.
  change (visit (S (S depth)) flow x st) with
    (if bool_decide (x ∈ seen st) then Some st
     else
       let st1 := {| seen := {[x]} ∪ seen st; sorted := sorted st |} in
       match findStep flow x with
       | Some step =>
           match forEachM (visit (S depth) flow) (FlowStep.dependencies step) st1 with
           | Some st2 => Some {| seen := seen st2; sorted := sorted st2 ++ [step] |}
           | None => None
           end
       | None => Some st1
       end).
  rewrite bool_decide_eq_false_2 by done. cbv zeta. rewrite Hfind.
  rewrite forEachM_skip; [done|].
  intros d Hd. apply visit_seen. simpl. apply elem_of_union_r. by apply Hdeps.
Qed.

Lemma optimize_ordered_loop :
  Graph.distinctIds flow → Graph.dependenciesFirst (Flow.steps flow) →
  ∀ suf pre st,
    Flow.steps flow = pre ++ suf → sorted st = pre →
    (∀ y, y ∈ seen st ↔ y ∈ map FlowStep.id pre) →
    ∃ st',
      forEachM (fun step => visit (depthBudget flow) flow (FlowStep.id step)) suf st
      = Some st' ∧ sorted st' = Flow.steps flow.
Proof.
  intros Hnd Hord. induction suf as [|s suf IH]; intros pre st Hsteps Hsorted Hseen.
  - exists st. rewrite app_nil_r in Hsteps. simpl. split; congruence.
  - assert (Hin : s ∈ Flow.steps flow).
    { rewrite Hsteps. apply elem_of_app. right. apply list_elem_of_here. }
    assert (Hlen : ∃ n, length (Flow.steps flow) = S n).
    { rewrite Hsteps, length_app. simpl. exists (length pre + length suf)%nat. lia. }
    destruct Hlen as [n Hn].
    assert (Hfresh : FlowStep.id s ∉ seen st).
    { rewrite Hseen. unfold Graph.distinctIds, Graph.ids in Hnd.
      rewrite Hsteps, map_app in Hnd. apply NoDup_app in Hnd as (_ & Hdis & _).
      intros Hid. apply (Hdis _ Hid). simpl. apply list_elem_of_here. }
    assert (Hdeps : ∀ d, d ∈ FlowStep.dependencies s → d ∈ seen st).
    { intros d Hd. destruct (Hord (length pre) s d) as (j & t & Hj & Ht & <-); auto.
      - rewrite Hsteps. by rewrite list_lookup_middle.
      - apply Hseen. rewrite Hsteps, lookup_app_l in Ht by done.
        apply list_elem_of_fmap. exists t. split; [done|].
        by eapply list_elem_of_lookup_2. }
    destruct (IH (pre ++ [s])
                {| seen := {[FlowStep.id s]} ∪ seen st; sorted := sorted st ++ [s] |})
      as (st' & Hloop & Hst').
    + by rewrite <- app_assoc.
    + simpl. by rewrite Hsorted.
    + intros y. simpl. rewrite map_app, elem_of_union, elem_of_app, Hseen.
      simpl. rewrite elem_of_singleton, list_elem_of_singleton. tauto.
    + exists st'. split; [|done].
      cbn [forEachM]. unfold depthBudget in Hloop |- *. rewrite Hn in Hloop |- *.
      rewrite (visit_ready n (FlowStep.id s) st s); auto.
      by apply findStep_distinct.
Qed.

Lemma optimizeFlow_ordered :
  Graph.distinctIds flow → Graph.dependenciesFirst (Flow.steps flow) →
  optimizeFlow flow = Some flow.
Proof.
  intros Hnd Hord. unfold optimizeFlow.
  destruct (optimize_ordered_loop Hnd Hord (Flow.steps flow) [] {| seen := ∅; sorted := [] |})
    as (st' & -> & Hst'); auto.
  { intros y. simpl. rewrite elem_of_empty, elem_of_nil. tauto. }
  rewrite Hst'. by destruct flow.
Qed.

Lemma optimizeFlow_first_steps :
  ∃ flow',
    optimizeFlow flow = Some flow' ∧
    NoDup (Graph.ids flow') ∧
    ∀ s, s ∈ Flow.steps flow' ↔ findStep flow (FlowStep.id s) = Some s.
Proof.
  unfold optimizeFlow.
  destruct (visit_all_spec flow) as (st & -> & Hinv & Hall).
  eexists. split; [reflexivity|]. unfold Graph.ids. simpl. split.
  - apply (vi_sorted_nodup _ _ _ Hinv).
  - intros s. split; [apply (vi_sorted_found _ _ _ Hinv)|].
    intros Hfind. destruct (findStep_Some flow _ _ Hfind) as [Hin _].
    destruct (vi_seen_done _ _ _ Hinv (FlowStep.id s)) as [Hdone|Hpath].
    + by apply Hall.
    + apply list_elem_of_fmap. by exists s.
    + apply list_elem_of_fmap in Hdone as (s' & Hid & Hs').
      pose proof (vi_sorted_found _ _ _ Hinv s' Hs') as Hfind'.
      rewrite <- Hid, Hfind in Hfind'. by injection Hfind' as <-.
    + by apply elem_of_nil in Hpath.
Qed.

End OptimizeOrdered.

Lemma orderedFlow_ordered :
  Graph.distinctIds Examples.orderedFlow ∧
  Graph.dependenciesFirst (Flow.steps Examples.orderedFlow).
Proof.
  split.
  - unfold Graph.distinctIds. apply (bool_decide_unpack _). vm_compute. exact I.
  - destruct chainFlow_valid as (Hnd & Hacyc & Hfull).
    destruct (optimizeFlow_spec Examples.chainFlow Hnd) as (flow' & Heq & _ & Hord).
    vm_compute in Heq. injection Heq as <-. exact (Hord Hacyc Hfull).
Defined.

(** X3. [optimizeFlow] changes nothing in a flow with distinct step ids
    whose steps already come after the steps they depend on. *)
Theorem optimizeFlow_keeps_ordered_flow (flow : Flow.t) :
  Graph.distinctIds flow → Graph.dependenciesFirst (Flow.steps flow) →
  FlowBuilder.optimizeFlow flow = Some flow.
Proof. apply optimizeFlow_ordered. Qed.

Lemma optimizeFlow_keeps_ordered_flow_witness :
  Graph.distinctIds Examples.orderedFlow ∧
  Graph.dependenciesFirst (Flow.steps Examples.orderedFlow) ∧
  FlowBuilder.optimizeFlow Examples.orderedFlow = Some Examples.orderedFlow.
Proof.
  destruct orderedFlow_ordered as [Hnd Hord].
  split_and!; [exact Hnd | exact Hord |].
  exact (optimizeFlow_keeps_ordered_flow Examples.orderedFlow Hnd Hord).
Defined.

(** X4. On a valid flow (distinct ids, no cycle, no missing dependency)
    [optimizeFlow] is idempotent: optimizing its result again returns the
    same flow. *)
Theorem optimizeFlow_idempotent (flow : Flow.t) :
  Graph.distinctIds flow → Graph.acyclic flow → Graph.fullyReferenced flow →
  ∃ flow',
    FlowBuilder.optimizeFlow flow = Some flow' ∧
    FlowBuilder.optimizeFlow flow' = Some flow'.
Proof.
  intros Hnd Hacyc Hfull.
  destruct (optimizeFlow_spec flow Hnd) as (flow' & Heq & Hperm & Hord).
  exists flow'. split; [done|]. apply optimizeFlow_ordered; [|by apply Hord].
  unfold Graph.distinctIds, Graph.ids. rewrite Hperm. exact Hnd.
Qed.

Lemma optimizeFlow_idempotent_witness :
  Graph.distinctIds Examples.chainFlow ∧
  Graph.acyclic Examples.chainFlow ∧
  Graph.fullyReferenced Examples.chainFlow ∧
  ∃ flow',
    FlowBuilder.optimizeFlow Examples.chainFlow = Some flow' ∧
    FlowBuilder.optimizeFlow flow' = Some flow'.
Proof.
  destruct chainFlow_valid as (Hnd & Hacyc & Hfull).
  split_and!; [exact Hnd | exact Hacyc | exact Hfull |].
  exact (optimizeFlow_idempotent Examples.chainFlow Hnd Hacyc Hfull).
Defined.

(** X5. Whatever the flow, [optimizeFlow] returns: its result carries every
    step id at most once, and holds exactly the steps that [find] returns
    for their own id, that is the first step declared for each id. Later
    steps with an id already used are dropped. *)
Theorem optimizeFlow_keeps_first_of_each_id (flow : Flow.t) :
  ∃ flow',
    FlowBuilder.optimizeFlow flow = Some flow' ∧
    NoDup (Graph.ids flow') ∧
    ∀ s, s ∈ Flow.steps flow' ↔
         FlowBuilder.findStep flow (FlowStep.id s) = Some s.
Proof. apply optimizeFlow_first_steps. Qed.

(** ** FlowBuilder: default ids, templates and clones *)

Section BuildFlow.
Import FlowBuilder.

Lemma defaultId_inj : Inj (=) (=) (λ i : nat, "step-" +:+ pretty i).
Proof.
  intros i j Heq. simpl in Heq. injection Heq as Heq.
  by apply (inj pretty).
Qed.

Lemma buildFlow_ids_default now config :
  Forall (λ p, strOr (PartialFlowStep.id p) "" = "") (FlowConfig.steps config) →
  Graph.ids (buildFlow now config)
  = (λ i : nat, "step-" +:+ pretty i) <$> seq 0 (length (FlowConfig.steps config)).
Proof.
  intros Hnone. unfold Graph.ids, buildFlow. simpl.
  change (map FlowStep.id (imap buildStep (FlowConfig.steps config)))
    with (FlowStep.id <$> imap buildStep (FlowConfig.steps config)).
  rewrite fmap_imap, <- imap_seq_0.
  apply imap_ext. intros i p Hp. simpl.
  rewrite Forall_lookup in Hnone. specialize (Hnone i p Hp).
  unfold strOr in *. destruct (PartialFlowStep.id p) as [x|]; [|done].
  destruct (bool_decide (x = "")) eqn:Hx; [done|].
  apply bool_decide_eq_false in Hx. congruence.
Qed.

End BuildFlow.

(** X6. When no declaration passed to [buildFlow] carries an id (absent or
    empty), the steps get the ids step-0, step-1, ... in order, and these
    are pairwise distinct. *)
Theorem buildFlow_default_ids_distinct (now : Z) (config : FlowConfig.t) :
  Forall (λ p, strOr (PartialFlowStep.id p) "" = "") (FlowConfig.steps config) →
  Graph.ids (FlowBuilder.buildFlow now config)
  = (λ i : nat, "step-" +:+ pretty i) <$> seq 0 (length (FlowConfig.steps config)) ∧
  Graph.distinctIds (FlowBuilder.buildFlow now config).
Proof.
  intros Hnone. pose proof (buildFlow_ids_default now config Hnone) as Hids.
  split; [done|]. unfold Graph.distinctIds. rewrite Hids.
  pose proof defaultId_inj as Hinj. apply (NoDup_fmap_2 _), NoDup_seq.
Qed.

Lemma buildFlow_default_ids_distinct_witness :
  Forall (λ p, strOr (PartialFlowStep.id p) "" = "")
         (FlowConfig.steps Examples.anonymousConfig) ∧
  Graph.ids (FlowBuilder.buildFlow 0 Examples.anonymousConfig)
  = (λ i : nat, "step-" +:+ pretty i)
      <$> seq 0 (length (FlowConfig.steps Examples.anonymousConfig)) ∧
  Graph.distinctIds (FlowBuilder.buildFlow 0 Examples.anonymousConfig).
Proof.
  assert (Hnone : Forall (λ p, strOr (PartialFlowStep.id p) "" = "")
                         (FlowConfig.steps Examples.anonymousConfig)).
  { repeat constructor. }
  split; [exact Hnone|].
  exact (buildFlow_default_ids_distinct 0 Examples.anonymousConfig Hnone).
Defined.

Section Templates.
Import FlowBuilder.

Lemma getFlow_initialize now b name :
  getFlow name (initialize now b)
  = if bool_decide (name = "deploy") then Some (deployTemplate now)
    else if bool_decide (name = "dev") then Some (devTemplate now)
    else if bool_decide (name = "auto") then Some (autoTemplate now)
    else getFlow name b.
Proof.
  unfold getFlow, initialize, loadDefaultFlows. simpl.
  rewrite !JsMap_get_set_cases.
  repeat case_bool_decide; congruence.
Qed.

Lemma ownProps_target target props k :
  k ≠ "target" →
  assoc k (JsMap.set "target" (JString target) props) = assoc k props.
Proof.
  intros Hk. pose proof (JsMap_get_set_cases k "target" (JString target) props) as H.
  unfold JsMap.get in H. rewrite H. by rewrite bool_decide_eq_false_2.
Qed.

End Templates.

(** X7. [buildAutoFlow] on a builder that was never initialised throws
    'Flow Builder not initialized'. After [initialize], whatever flows the
    builder held and for every target, it returns the five steps sync,
    analyze, repair, test, comment; every step's config carries the target
    and keeps each other entry of the template's config; the flow passes
    [validateFlow] without errors and is left unchanged by
    [optimizeFlow]. *)
Theorem buildAutoFlow_after_initialize (now : Z) (b : FlowBuilder.t) (target : string) :
  FlowBuilder.buildAutoFlow target FlowBuilder.new
  = Throw "Flow Builder not initialized" ∧
  ∃ flow,
    FlowBuilder.buildAutoFlow target (FlowBuilder.initialize now b) = Normal flow ∧
    Graph.ids flow = ["sync"; "analyze"; "repair"; "test"; "comment"] ∧
    Forall2
      (λ built template,
         getProp (FlowStep.config built) "target" = Normal (JString target) ∧
         ∀ k, k ≠ "target" →
              getProp (FlowStep.config built) k
              = getProp (FlowStep.config template) k)
      (Flow.steps flow) (Flow.steps (FlowBuilder.autoTemplate now)) ∧
    FlowBuilder.validateFlow flow
    = Some {| ValidationResult.valid := true; ValidationResult.errors := [] |} ∧
    FlowBuilder.optimizeFlow flow = Some flow.
Proof.
  split; [reflexivity|].
  unfold FlowBuilder.buildAutoFlow.
  change (JsMap.get "auto" (FlowBuilder.flows (FlowBuilder.initialize now b)))
    with (FlowBuilder.getFlow "auto" (FlowBuilder.initialize now b)).
  rewrite getFlow_initialize. simpl.
  eexists. split; [reflexivity|]. split_and!.
  - reflexivity.
  - repeat match goal with |- Forall2 _ _ _ => constructor end;
      (split; [reflexivity|]); intros k Hk; simpl;
      repeat (case_bool_decide; simpl; try congruence).
  - vm_compute. reflexivity.
  - vm_compute. reflexivity.
Qed.

(** X8. After [initialize], whatever the builder held before, [getFlow]
    returns for each of the names auto, dev and deploy a flow whose id is
    that name, which [validateFlow] accepts without errors and which
    [optimizeFlow] leaves unchanged. *)
Theorem default_flows_are_valid (now : Z) (b : FlowBuilder.t) :
  Forall
    (λ name,
       ∃ flow,
         FlowBuilder.getFlow name (FlowBuilder.initialize now b) = Some flow ∧
         Flow.id flow = name ∧
         FlowBuilder.validateFlow flow
         = Some {| ValidationResult.valid := true; ValidationResult.errors := [] |} ∧
         FlowBuilder.optimizeFlow flow = Some flow)
    ["auto"; "dev"; "deploy"].
Proof.
  repeat apply Forall_cons_2; try apply Forall_nil_2;
    rewrite getFlow_initialize; simpl;
    (eexists; split; [reflexivity|]); split_and!;
    try reflexivity; vm_compute; reflexivity.
Qed.

Section SameSteps.
Import FlowBuilder.
Variables flow flow' : Flow.t.
Hypothesis same_steps : Flow.steps flow' = Flow.steps flow.

Lemma forEachM_ext {A S : Type} (f g : A → S → option S) (xs : list A) (s : S) :
  (∀ x s0, f x s0 = g x s0) → forEachM f xs s = forEachM g xs s.
Proof.
  intros Hfg. revert s. induction xs as [|x xs IH]; intros s; simpl; [done|].
  rewrite Hfg. destruct (g x s); auto.
Qed.

Lemma findStep_same x : findStep flow' x = findStep flow x.
Proof using same_steps. unfold findStep. by rewrite same_steps. Qed.

Lemma checkDependencies_same depth :
  ∀ x path st,
    checkDependencies depth flow' x path st = checkDependencies depth flow x path st.
Proof using same_steps.
  induction depth as [|depth IH]; intros x path st; simpl; [done|].
  rewrite findStep_same.
  repeat case_bool_decide; try done.
  destruct (findStep flow x); [|done].
  apply forEachM_ext. intros; apply IH.
Qed.

Lemma visit_same depth :
  ∀ x st, visit depth flow' x st = visit depth flow x st.
Proof using same_steps.
  induction depth as [|depth IH]; intros x st; simpl; [done|].
  rewrite findStep_same.
  case_bool_decide; try done.
  destruct (findStep flow x); [|done].
  by rewrite (forEachM_ext _ (visit depth flow)).
Qed.

Lemma validateFlow_same : validateFlow flow' = validateFlow flow.
Proof using same_steps.
  assert (Hmiss : missingDependencies flow' = missingDependencies flow).
  { unfold missingDependencies. rewrite same_steps.
    apply flat_map_ext; intros s. apply flat_map_ext; intros d.
    by rewrite findStep_same. }
  unfold validateFlow, depthBudget. rewrite Hmiss, same_steps.
  by rewrite (forEachM_ext _
    (λ step, checkDependencies (S (length (Flow.steps flow))) flow
                               (FlowStep.id step) []))
    by (intros; apply checkDependencies_same).
Qed.

Lemma optimizeFlow_same_steps :
  Flow.steps <$> optimizeFlow flow' = Flow.steps <$> optimizeFlow flow.
Proof using same_steps.
  unfold optimizeFlow, depthBudget. rewrite same_steps.
  rewrite (forEachM_ext _
    (λ step, visit (S (length (Flow.steps flow))) flow (FlowStep.id step)))
    by (intros; apply visit_same).
  by destruct (forEachM _ _ _).
Qed.

End SameSteps.

(** X9. Validation and ordering look at the steps only, so they commute with
    [cloneFlow]: a clone gets the same validation result as the original,
    and optimizing a clone gives the clone of the optimized original. *)
Theorem cloneFlow_commutes (now : Z) (flow : Flow.t) (newName : string) :
  FlowBuilder.validateFlow (FlowBuilder.cloneFlow now flow newName)
  = FlowBuilder.validateFlow flow ∧
  FlowBuilder.optimizeFlow (FlowBuilder.cloneFlow now flow newName)
  = (λ flow', FlowBuilder.cloneFlow now flow' newName)
      <$> FlowBuilder.optimizeFlow flow.
Proof.
  split.
  - by apply validateFlow_same.
  - pose proof (optimizeFlow_same_steps flow (FlowBuilder.cloneFlow now flow newName)
                  eq_refl) as Hsteps.
    unfold FlowBuilder.optimizeFlow in *.
    destruct (forEachM _ _ _) as [st'|], (forEachM _ _ _) as [st|];
      simpl in *; try done.
    injection Hsteps as ->. reflexivity.
Qed.

(** ** WorkflowBuilder: attempts of one step *)

Section Attempts.
Import WorkflowBuilder Engine Outcome.
Variable s : WorkflowStep.t.

Lemma executeWithTimeout_elapsed run timeout :
  (0 ≤ (executeWithTimeout run timeout).2)%Z.
Proof.
  unfold executeWithTimeout, timerDelay.
  destruct run; repeat case_match; simpl; lia.
Qed.

Lemma launch_task k r :
  ∃ t, launch s k r = (t, emit (Invoked (WorkflowStep.id s) k (clock r)) r) ∧
       step t = s ∧ attempt t = k ∧ invoked t = true ∧
       outcome t
       = (executeWithTimeout (WorkflowStep.action s (Z.to_nat k)) (timeoutOf s)).1 ∧
       settlesAt t
       = (clock r
          + (executeWithTimeout (WorkflowStep.action s (Z.to_nat k)) (timeoutOf s)).2)%Z.
Proof.
  unfold launch. destruct (executeWithTimeout _ _) as [c el]. simpl.
  eexists. split; [reflexivity|]. simpl. auto.
Qed.

Lemma settle_launched t r :
  invoked t = true → (clock r ≤ settlesAt t)%Z →
  settle t r
  = emit (Settled (WorkflowStep.id (step t)) (attempt t) (settlesAt t)
                  (isNormal (outcome t)))
         (advanceTo (settlesAt t) r).
Proof.
  intros Hinv Htime. unfold settle. rewrite Hinv. simpl.
  by rewrite Z.max_r by done.
Qed.

(** One iteration of the loop up to the end of its [await]. *)
Lemma attempt_run k r :
  ∃ t,
    launch s k r = (t, emit (Invoked (WorkflowStep.id s) k (clock r)) r) ∧
    outcome t
    = (executeWithTimeout (WorkflowStep.action s (Z.to_nat k)) (timeoutOf s)).1 ∧
    settle t (emit (Invoked (WorkflowStep.id s) k (clock r)) r)
    = {| clock := (clock r
                   + (executeWithTimeout (WorkflowStep.action s (Z.to_nat k))
                                         (timeoutOf s)).2)%Z;
         trace := trace r
                  ++ [Invoked (WorkflowStep.id s) k (clock r);
                      Settled (WorkflowStep.id s) k (settlesAt t)
                              (isNormal (outcome t))];
         results := results r; errors := errors r |}.
Proof.
  destruct (launch_task k r) as (t & Hlaunch & Hstep & Hatt & Hinv & Hout & Htime).
  exists t. split; [done|]. split; [done|].
  pose proof (executeWithTimeout_elapsed
                (WorkflowStep.action s (Z.to_nat k)) (timeoutOf s)) as Hel.
  rewrite settle_launched; [|done|simpl; lia].
  rewrite Hstep, Hatt. unfold emit, advanceTo. simpl.
  rewrite <- app_assoc. simpl. f_equal. rewrite Htime. lia.
Qed.

Lemma invocations_cons ev (l : list Event) :
  length (filter isInvocation (ev :: l))
  = ((if isInvocation ev then 1 else 0) + length (filter isInvocation l))%nat.
Proof. rewrite filter_cons. by destruct ev. Qed.

Lemma attemptLoop_bound (n : nat) :
  ∀ k r,
    ∃ new,
      trace (attemptLoop n s k r).2 = trace r ++ new ∧
      (length (filter isInvocation new) ≤ n)%nat ∧
      ∀ j t, Invoked (WorkflowStep.id s) j t ∈ new → (k ≤ j < k + Z.of_nat n)%Z.
Proof.
  induction n as [|n IH]; intros k r.
  - exists []. simpl. rewrite app_nil_r. split_and!; auto.
    intros j t Hin. by apply elem_of_nil in Hin.
  - destruct (attempt_run k r) as (t & Hlaunch & Hout & Hsettle).
    cbn [attemptLoop]. rewrite Hlaunch, Hsettle.
    set (r2 := {| clock := _; trace := _; results := _; errors := _ |}).
    assert (Hhere : ∀ j t0 rest,
              (∀ j' t', Invoked (WorkflowStep.id s) j' t' ∈ rest →
                        (k + 1 ≤ j' < k + 1 + Z.of_nat n)%Z) →
              Invoked (WorkflowStep.id s) j t0
                ∈ Invoked (WorkflowStep.id s) k (clock r)
                  :: Settled (WorkflowStep.id s) k (settlesAt t) (isNormal (outcome t))
                  :: rest →
              (k ≤ j < k + Z.of_nat (S n))%Z).
    { intros j t0 rest Hrest Hin.
      apply elem_of_cons in Hin as [[= -> ->]|Hin]; [lia|].
      apply elem_of_cons in Hin as [Hin|Hin]; [discriminate|].
      specialize (Hrest _ _ Hin). lia. }
    destruct (outcome t) as [v|e] eqn:Hc.
    + exists [Invoked (WorkflowStep.id s) k (clock r);
              Settled (WorkflowStep.id s) k (settlesAt t) true].
      simpl. split_and!; [done|lia|].
      intros j t0 Hin. apply (Hhere j t0 []); [|done].
      intros j' t' Hnil. by apply elem_of_nil in Hnil.
    + destruct (k =? retriesOf s)%Z.
      * exists [Invoked (WorkflowStep.id s) k (clock r);
                Settled (WorkflowStep.id s) k (settlesAt t) false].
        simpl. split_and!; [done|lia|].
        intros j t0 Hin. apply (Hhere j t0 []); [|done].
        intros j' t' Hnil. by apply elem_of_nil in Hnil.
      * destruct (IH (k + 1)%Z (emit (Logged (retryMessage s k)) r2))
          as (new & Htrace & Hcount & Hrange).
        exists (Invoked (WorkflowStep.id s) k (clock r)
                  :: Settled (WorkflowStep.id s) k (settlesAt t) false
                  :: Logged (retryMessage s k) :: new).
        split_and!.
        -- rewrite Htrace. simpl. rewrite <- !app_assoc. reflexivity.
        -- rewrite !invocations_cons. simpl. lia.
        -- intros j t0 Hin.
           apply (Hhere j t0 (Logged (retryMessage s k) :: new)); [|done].
           intros j' t' [Hin'|Hin']%elem_of_cons; [discriminate|].
           by apply (Hrange j' t').
Qed.

Lemma executeStep_none r :
  (retriesOf s < 0)%Z → executeStep s r = (Normal JUndefined, r).
Proof.
  intros Hneg. unfold executeStep.
  by replace (Z.to_nat (retriesOf s + 1)) with 0%nat by lia.
Qed.

Lemma attemptLoop_succeeds v (failures : nat) :
  ∀ (n : nat) k r,
    (failures < n)%nat →
    (k + Z.of_nat failures ≤ retriesOf s)%Z → (0 ≤ k)%Z →
    (∀ j, (k ≤ j < k + Z.of_nat failures)%Z → attemptFails s j) →
    attemptSucceeds s (k + Z.of_nat failures) v →
    ∃ r' new,
      attemptLoop n s k r = (Normal v, r') ∧
      trace r' = trace r ++ new ∧
      length (filter isInvocation new) = S failures ∧
      results r' = results r ∧ errors r' = errors r ∧
      Forall (λ ev, eventId ev = None ∨ eventId ev = Some (WorkflowStep.id s)) new.
Proof.
  induction failures as [|failures IH]; intros n k r Hn Hk H0 Hfail Hsucc.
  - destruct n as [|n]; [lia|].
    destruct (attempt_run k r) as (t & Hlaunch & Hout & Hsettle).
    cbn [attemptLoop]. rewrite Hlaunch, Hsettle.
    unfold attemptSucceeds in Hsucc. rewrite Z.add_0_r in Hsucc.
    rewrite Hout, Hsucc.
    eexists. eexists. split; [reflexivity|]. simpl.
    split_and!; auto; repeat constructor; simpl; auto.
  - destruct n as [|n]; [lia|].
    destruct (attempt_run k r) as (t & Hlaunch & Hout & Hsettle).
    cbn [attemptLoop]. rewrite Hlaunch, Hsettle.
    assert (Hthrow : ∃ e, outcome t = Throw e).
    { specialize (Hfail k). unfold attemptFails in Hfail. rewrite <- Hout in Hfail.
      destruct (outcome t) as [v'|e]; [|by exists e].
      simpl in Hfail. lia. }
    destruct Hthrow as [e He]. rewrite He.
    rewrite (proj2 (Z.eqb_neq k (retriesOf s))) by lia.
    set (r3 := emit _ _).
    destruct (IH n (k + 1)%Z r3) as (r' & new & Hloop & Htrace & Hcount & Hres & Herr & Hids).
    { lia. } { lia. } { lia. }
    { intros j Hj. apply Hfail. lia. }
    { by replace (k + 1 + Z.of_nat failures)%Z with (k + Z.of_nat (S failures))%Z by lia. }
    exists r'. eexists. split; [exact Hloop|]. split_and!.
    + rewrite Htrace. unfold r3. simpl. rewrite <- !app_assoc. simpl. reflexivity.
    + rewrite !invocations_cons. simpl. by rewrite Hcount.
    + by rewrite Hres.
    + by rewrite Herr.
    + repeat (constructor; [simpl; auto|]). exact Hids.
Qed.

Lemma executeStep_succeeds k v r :
  succeedsAt s k v →
  ∃ r' new,
    executeStep s r = (Normal v, r') ∧
    trace r' = trace r ++ new ∧
    Z.of_nat (length (filter isInvocation new)) = (k + 1)%Z ∧
    results r' = results r ∧ errors r' = errors r ∧
    Forall (λ ev, eventId ev = None ∨ eventId ev = Some (WorkflowStep.id s)) new.
Proof.
  intros (Hk & Hfail & Hsucc). unfold executeStep.
  destruct (attemptLoop_succeeds v (Z.to_nat k) (Z.to_nat (retriesOf s + 1)) 0%Z r)
    as (r' & new & Hloop & Htrace & Hcount & Hres & Herr & Hids).
  { lia. } { lia. } { lia. }
  { intros j Hj. apply Hfail. lia. }
  { by replace (0 + Z.of_nat (Z.to_nat k))%Z with k by lia. }
  exists r', new. split_and!; auto. rewrite Hcount. lia.
Qed.

Lemma attemptTimesOut_run k :
  attemptTimesOut s k →
  executeWithTimeout (WorkflowStep.action s (Z.to_nat k)) (timeoutOf s)
  = (Throw "Timeout", timerDelay (timeoutOf s)).
Proof.
  unfold attemptTimesOut, executeWithTimeout.
  destruct (WorkflowStep.action s (Z.to_nat k)) as [v after|e after|]; try done;
    intros Hlate; by rewrite (proj2 (Z.leb_gt _ _)) by done.
Qed.

Lemma attemptLoop_times_out (n : nat) :
  ∀ k r,
    Z.of_nat n = (retriesOf s - k + 1)%Z → (0 ≤ k ≤ retriesOf s)%Z →
    (∀ j, (k ≤ j ≤ retriesOf s)%Z → attemptTimesOut s j) →
    ∃ r',
      attemptLoop n s k r = (Throw "Timeout", r') ∧
      clock r' = (clock r + Z.of_nat n * timerDelay (timeoutOf s))%Z ∧
      results r' = results r ∧ errors r' = errors r.
Proof.
  induction n as [|n IH]; intros k r Hn Hk Hlate; [lia|].
  destruct (attempt_run k r) as (t & Hlaunch & Hout & Hsettle).
  cbn [attemptLoop]. rewrite Hlaunch, Hsettle.
  rewrite attemptTimesOut_run in Hout, Hsettle |- * by (apply Hlate; lia).
  simpl in Hout. rewrite Hout. simpl.
  destruct (k =? retriesOf s)%Z eqn:Hlast.
  - apply Z.eqb_eq in Hlast. eexists. split; [reflexivity|]. simpl.
    split_and!; auto. lia.
  - apply Z.eqb_neq in Hlast.
    set (r3 := emit _ _).
    destruct (IH (k + 1)%Z r3) as (r' & Hloop & Hclock & Hres & Herr).
    { lia. } { lia. } { intros j Hj. apply Hlate. lia. }
    exists r'. split; [exact Hloop|]. split_and!; auto.
    rewrite Hclock. unfold r3. simpl. lia.
Qed.

End Attempts.

(** X10. Whatever its action does, [executeStep] invokes the action of a
    step at most [retries + 1] times, and the attempts it makes are
    numbered from 0 to [retries] at most. *)
Theorem executeStep_attempt_bound (s : WorkflowStep.t) (r : WorkflowBuilder.Run) :
  ∃ new,
    WorkflowBuilder.trace (WorkflowBuilder.executeStep s r).2
    = WorkflowBuilder.trace r ++ new ∧
    (length (filter Engine.isInvocation new)
     ≤ Z.to_nat (WorkflowBuilder.retriesOf s + 1))%nat ∧
    ∀ k t, Invoked (WorkflowStep.id s) k t ∈ new →
           (0 ≤ k ≤ WorkflowBuilder.retriesOf s)%Z.
Proof.
  unfold WorkflowBuilder.executeStep.
  destruct (attemptLoop_bound s (Z.to_nat (WorkflowBuilder.retriesOf s + 1)) 0%Z r)
    as (new & Htrace & Hcount & Hrange).
  exists new. split_and!; auto.
  intros k t Hin. specialize (Hrange k t Hin). lia.
Qed.

(** X11. A step whose [retries] is negative is never attempted:
    [executeStep] returns [undefined] at once, without invoking the action,
    so the step counts as a success. *)
Theorem executeStep_negative_retries (s : WorkflowStep.t) (r : WorkflowBuilder.Run) :
  (WorkflowBuilder.retriesOf s < 0)%Z →
  WorkflowBuilder.executeStep s r = (Normal JUndefined, r).
Proof. apply executeStep_none. Qed.

Lemma executeStep_negative_retries_witness :
  (WorkflowBuilder.retriesOf (Examples.failing "never" (Some (-1)%Z)) < 0)%Z ∧
  WorkflowBuilder.executeStep (Examples.failing "never" (Some (-1)%Z))
    (Examples.freshRun 0)
  = (Normal JUndefined, Examples.freshRun 0).
Proof.
  assert (Hneg : (WorkflowBuilder.retriesOf (Examples.failing "never" (Some (-1)%Z)) < 0)%Z).
  { vm_compute. reflexivity. }
  split; [exact Hneg|].
  exact (executeStep_negative_retries _ (Examples.freshRun 0) Hneg).
Defined.

(** X12. When the attempts 0 to k-1 of a step fail and attempt k, with
    k at most [retries], succeeds with value v, [executeStep] returns v
    after exactly k+1 invocations of the action; it touches neither
    [results] nor [errors], and every event concerns that step. *)
Theorem executeStep_retry_succeeds
    (s : WorkflowStep.t) (k : Z) (v : JsValue) (r : WorkflowBuilder.Run) :
  Outcome.succeedsAt s k v →
  ∃ r' new,
    WorkflowBuilder.executeStep s r = (Normal v, r') ∧
    WorkflowBuilder.trace r' = WorkflowBuilder.trace r ++ new ∧
    Z.of_nat (length (filter Engine.isInvocation new)) = (k + 1)%Z ∧
    WorkflowBuilder.results r' = WorkflowBuilder.results r ∧
    WorkflowBuilder.errors r' = WorkflowBuilder.errors r ∧
    Forall (λ ev, Engine.eventId ev = None ∨
                  Engine.eventId ev = Some (WorkflowStep.id s)) new.
Proof. apply executeStep_succeeds. Qed.

Lemma flaky_succeedsAt : Outcome.succeedsAt Examples.flaky 2 (JString "ok").
Proof.
  unfold Outcome.succeedsAt. split; [|split].
  - cbn. lia.
  - intros j Hj. assert (j = 0 ∨ j = 1)%Z as [-> | ->] by lia; reflexivity.
  - reflexivity.
Defined.

Lemma executeStep_retry_succeeds_witness :
  Outcome.succeedsAt Examples.flaky 2 (JString "ok") ∧
  ∃ r' new,
    WorkflowBuilder.executeStep Examples.flaky (Examples.freshRun 0)
    = (Normal (JString "ok"), r') ∧
    WorkflowBuilder.trace r' = WorkflowBuilder.trace (Examples.freshRun 0) ++ new ∧
    Z.of_nat (length (filter Engine.isInvocation new)) = (2 + 1)%Z ∧
    WorkflowBuilder.results r' = WorkflowBuilder.results (Examples.freshRun 0) ∧
    WorkflowBuilder.errors r' = WorkflowBuilder.errors (Examples.freshRun 0) ∧
    Forall (λ ev, Engine.eventId ev = None ∨
                  Engine.eventId ev = Some (WorkflowStep.id Examples.flaky)) new.
Proof.
  split; [exact flaky_succeedsAt|].
  exact (executeStep_retry_succeeds Examples.flaky 2 (JString "ok")
           (Examples.freshRun 0) flaky_succeedsAt).
Defined.

(** X13. When every attempt a step is allowed is still unsettled as the
    timer fires, [executeStep] throws 'Timeout' after [retries + 1] timer
    delays in a row, the delay being that of the step's [timeout]; no time
    passes between two attempts, and neither [results] nor [errors] is
    touched. *)
Theorem executeStep_times_out (s : WorkflowStep.t) (r : WorkflowBuilder.Run) :
  (0 ≤ WorkflowBuilder.retriesOf s)%Z →
  (∀ k, (0 ≤ k ≤ WorkflowBuilder.retriesOf s)%Z → Outcome.attemptTimesOut s k) →
  ∃ r',
    WorkflowBuilder.executeStep s r = (Throw "Timeout", r') ∧
    WorkflowBuilder.clock r'
    = (WorkflowBuilder.clock r
       + (WorkflowBuilder.retriesOf s + 1)
         * WorkflowBuilder.timerDelay (WorkflowBuilder.timeoutOf s))%Z ∧
    WorkflowBuilder.results r' = WorkflowBuilder.results r ∧
    WorkflowBuilder.errors r' = WorkflowBuilder.errors r.
Proof.
  intros Hretries Hlate. unfold WorkflowBuilder.executeStep.
  destruct (attemptLoop_times_out s (Z.to_nat (WorkflowBuilder.retriesOf s + 1)) 0%Z r)
    as (r' & Hloop & Hclock & Hres & Herr).
  { lia. } { lia. } { intros j Hj. apply Hlate. lia. }
  exists r'. split_and!; auto. rewrite Hclock. f_equal. f_equal. lia.
Qed.

Lemma executeStep_times_out_witness :
  ∃ r',
    WorkflowBuilder.executeStep Examples.hanging (Examples.freshRun 0)
    = (Throw "Timeout", r') ∧
    WorkflowBuilder.clock r' = (0 + (1 + 1) * 30000)%Z ∧
    WorkflowBuilder.results r' = JsMap.empty ∧
    WorkflowBuilder.errors r' = JsMap.empty.
Proof.
  apply (executeStep_times_out Examples.hanging (Examples.freshRun 0)).
  - cbn. lia.
  - intros k Hk. exact I.
Defined.

(** ** WorkflowBuilder: runs in which steps succeed *)

Section SequentialSuccess.
Import WorkflowBuilder Engine Outcome.

Lemma checkCondition_enabled s r :
  enabled s = true →
  ∃ r1, checkCondition s r = (Proceed, r1) ∧
        results r1 = results r ∧ errors r1 = errors r.
Proof.
  unfold enabled, checkCondition.
  destruct (WorkflowStep.condition s) as [[[|]|e]|]; try done; intros _;
    eexists; eauto.
Qed.

Lemma runStep_succeeds s v r :
  stepSucceeds s v →
  ∃ r', runStep s r = (Continue, r') ∧
        results r' = JsMap.set (WorkflowStep.id s) v (results r) ∧
        errors r' = errors r.
Proof.
  intros (Hen & [k Hk] & Hcb). unfold runStep.
  destruct (checkCondition_enabled s r Hen) as (r1 & -> & Hres1 & Herr1).
  destruct (executeStep_succeeds s k v r1 Hk) as (r2 & new & -> & _ & _ & Hres2 & Herr2 & _).
  unfold succeed, callbackAccepts in *.
  destruct (WorkflowStep.onSuccess s) as [f|].
  - destruct (f v) as [[]|e]; [|done].
    eexists. split; [reflexivity|]. simpl. by rewrite Hres2, Hres1, Herr2, Herr1.
  - eexists. split; [reflexivity|]. simpl. by rewrite Hres2, Hres1, Herr2, Herr1.
Qed.

Lemma runStep_skipped s r :
  skipped s → runStep s r = (Continue, emit (Evaluated (WorkflowStep.id s)) r).
Proof. unfold skipped, runStep, checkCondition. by intros ->. Qed.

Lemma executeSequential_all_succeed steps :
  ∀ r,
    Forall (λ s, skipped s ∨ ∃ v, stepSucceeds s v) steps →
    NoDup (map WorkflowStep.id steps) →
    ∃ r',
      executeSequential steps r = (Normal tt, r') ∧
      errors r' = errors r ∧
      (∀ k, k ∉ map WorkflowStep.id steps →
            JsMap.get k (results r') = JsMap.get k (results r)) ∧
      ∀ s, s ∈ steps →
           (skipped s →
            JsMap.get (WorkflowStep.id s) (results r')
            = JsMap.get (WorkflowStep.id s) (results r)) ∧
           (∀ v, stepSucceeds s v →
                 JsMap.get (WorkflowStep.id s) (results r') = Some v).
Proof.
  induction steps as [|s steps IH]; intros r Hall Hnd.
  - exists r. simpl. split_and!; auto. intros s Hs. by apply elem_of_nil in Hs.
  - apply Forall_cons_1 in Hall as [Hs Hall].
    simpl in Hnd. apply NoDup_cons in Hnd as [Hfresh Hnd].
    assert (Hstep : ∃ r1, runStep s r = (Continue, r1) ∧ errors r1 = errors r ∧
                          (∀ k, k ≠ WorkflowStep.id s →
                                JsMap.get k (results r1) = JsMap.get k (results r)) ∧
                          (skipped s → results r1 = results r) ∧
                          (∀ v, stepSucceeds s v →
                                JsMap.get (WorkflowStep.id s) (results r1) = Some v)).
    { destruct Hs as [Hskip|[v Hv]].
      - rewrite (runStep_skipped s r Hskip). eexists. split; [reflexivity|].
        simpl. split_and!; auto.
        intros v (Hen & _). unfold skipped in Hskip. unfold enabled in Hen.
        by rewrite Hskip in Hen.
      - destruct (runStep_succeeds s v r Hv) as (r1 & Hrun & Hres & Herr).
        exists r1. split; [done|]. split_and!; auto.
        + intros k Hk. rewrite Hres, JsMap_get_set_cases.
          by rewrite bool_decide_eq_false_2 by done.
        + intros Hskip. destruct Hv as (Hen & _). unfold skipped in Hskip.
          unfold enabled in Hen. by rewrite Hskip in Hen.
        + intros v' Hv'. destruct (runStep_succeeds s v' r Hv') as (r1' & Hrun' & Hres' & _).
          rewrite Hrun in Hrun'. injection Hrun' as <-.
          by rewrite Hres', JsMap_get_set. }
    destruct Hstep as (r1 & Hrun & Herr1 & Hother & Hskip1 & Hval1).
    destruct (IH r1 Hall Hnd) as (r' & Hseq & Herr & Hframe & Hrest).
    exists r'. cbn [executeSequential]. rewrite Hrun. split; [done|]. split_and!.
    + by rewrite Herr.
    + intros k Hk. simpl in Hk. apply not_elem_of_cons in Hk as [Hne Hk].
      rewrite Hframe by done. by apply Hother.
    + intros q [->|Hq]%elem_of_cons.
      * split.
        -- intros Hskip. rewrite Hframe by done. by rewrite Hskip1.
        -- intros v Hv. rewrite Hframe by done. by apply Hval1.
      * destruct (Hrest q Hq) as [Hq1 Hq2]. split; [|done].
        intros Hskip. rewrite Hq1 by done. apply Hother.
        intros Heq. apply Hfresh. rewrite <- Heq.
        apply list_elem_of_fmap. by exists q.
Qed.

Lemma runStep_callback_throws s k v f e r :
  enabled s = true → succeedsAt s k v →
  WorkflowStep.onSuccess s = Some f → f v = Throw e →
  (runStep s r).1 ≠ Continue ∧
  JsMap.get (WorkflowStep.id s) (results (runStep s r).2) = Some v ∧
  JsMap.get (WorkflowStep.id s) (errors (runStep s r).2) = Some e.
Proof.
  intros Hen Hk Hf He. unfold runStep.
  destruct (checkCondition_enabled s r Hen) as (r1 & -> & Hres1 & Herr1).
  destruct (executeStep_succeeds s k v r1 Hk) as (r2 & new & -> & _ & _ & Hres2 & Herr2 & _).
  unfold succeed. rewrite Hf, He.
  split; [apply afterCatch_halts|]. rewrite afterCatch_run.
  unfold catchBlock. destruct (WorkflowStep.onError s); simpl;
    by rewrite !JsMap_get_set.
Qed.

End SequentialSuccess.

(** X14. Under the sequential policy, when the ids of the steps are
    distinct and every step is either skipped by its condition or succeeds
    (after retries if need be, its [onSuccess] callback returning), the run
    reports success with no error, the result of each succeeding step is
    the value its action returned, and a skipped step has no entry. *)
Theorem sequential_all_succeed
    (workflows : WorkflowBuilder.t) (name : string) (workflow : Workflow.t) (now : Z) :
  WorkflowBuilder.getWorkflow name workflows = Some workflow →
  Workflow.parallel workflow = false →
  NoDup (map WorkflowStep.id (Workflow.steps workflow)) →
  Forall (λ s, Outcome.skipped s ∨ ∃ v, Outcome.stepSucceeds s v)
         (Workflow.steps workflow) →
  ∃ ex,
    WorkflowBuilder.execute workflows name now = Some (Normal ex) ∧
    WorkflowResult.success (WorkflowBuilder.result ex) = true ∧
    WorkflowResult.errors (WorkflowBuilder.result ex) = JsMap.empty ∧
    ∀ s, s ∈ Workflow.steps workflow →
         (Outcome.skipped s →
          JsMap.get (WorkflowStep.id s)
            (WorkflowResult.results (WorkflowBuilder.result ex)) = None) ∧
         (∀ v, Outcome.stepSucceeds s v →
               JsMap.get (WorkflowStep.id s)
                 (WorkflowResult.results (WorkflowBuilder.result ex)) = Some v).
Proof.
  intros Hget Hseq Hnd Hall.
  unfold WorkflowBuilder.execute. unfold WorkflowBuilder.getWorkflow in Hget.
  rewrite Hget, Hseq.
  destruct (executeSequential_all_succeed (Workflow.steps workflow)
              {| WorkflowBuilder.clock := now; WorkflowBuilder.trace := [];
                 WorkflowBuilder.results := JsMap.empty;
                 WorkflowBuilder.errors := JsMap.empty |} Hall Hnd)
    as (r' & -> & Herr & _ & Hsteps).
  eexists. split; [reflexivity|]. simpl in *. rewrite Herr.
  split_and!; auto.
Qed.

Lemma succeeding_stepSucceeds id :
  Outcome.stepSucceeds (Examples.succeeding id) (JString id).
Proof.
  split; [reflexivity|]. split; [|exact I].
  exists 0%Z. unfold Outcome.succeedsAt. split; [|split].
  - cbn. lia.
  - intros j Hj. lia.
  - reflexivity.
Defined.

Lemma sequential_all_succeed_witness :
  ∃ ex,
    WorkflowBuilder.execute (Engine.workflowOf false Examples.dependentNodes) "graph" 0
    = Some (Normal ex) ∧
    WorkflowResult.success (WorkflowBuilder.result ex) = true ∧
    WorkflowResult.errors (WorkflowBuilder.result ex) = JsMap.empty ∧
    ∀ s, s ∈ [Examples.succeeding "A"; Examples.succeeding "B"] →
         (Outcome.skipped s →
          JsMap.get (WorkflowStep.id s)
            (WorkflowResult.results (WorkflowBuilder.result ex)) = None) ∧
         (∀ v, Outcome.stepSucceeds s v →
               JsMap.get (WorkflowStep.id s)
                 (WorkflowResult.results (WorkflowBuilder.result ex)) = Some v).
Proof.
  apply (sequential_all_succeed
           (Engine.workflowOf false Examples.dependentNodes) "graph"
           (Engine.graphWorkflow false Examples.dependentNodes) 0).
  - reflexivity.
  - reflexivity.
  - apply (bool_decide_unpack _). vm_compute. exact I.
  - simpl.
    apply Forall_cons_2; [right; eexists; apply succeeding_stepSucceeds|].
    apply Forall_cons_2; [right; eexists; apply succeeding_stepSucceeds|].
    apply Forall_nil_2.
Defined.

(** X15. A step whose action succeeds but whose [onSuccess] callback throws
    is reported twice: its value stays in [results] and the callback's
    error goes to [errors]. Under the sequential policy the run halts
    there, the steps declared after it make no difference. *)
Theorem onSuccess_failure_is_a_step_failure
    (s : WorkflowStep.t) (k : Z) (v : JsValue)
    (f : JsValue → Completion unit) (e : string)
    (rest : list WorkflowStep.t) (r : WorkflowBuilder.Run) :
  Engine.enabled s = true → Outcome.succeedsAt s k v →
  WorkflowStep.onSuccess s = Some f → f v = Throw e →
  WorkflowBuilder.executeSequential (s :: rest) r
  = WorkflowBuilder.executeSequential [s] r ∧
  JsMap.get (WorkflowStep.id s)
    (WorkflowBuilder.results (WorkflowBuilder.executeSequential (s :: rest) r).2)
  = Some v ∧
  JsMap.get (WorkflowStep.id s)
    (WorkflowBuilder.errors (WorkflowBuilder.executeSequential (s :: rest) r).2)
  = Some e.
Proof.
  intros Hen Hk Hf He.
  destruct (runStep_callback_throws s k v f e r Hen Hk Hf He) as (Hhalt & Hres & Herr).
  cbn [WorkflowBuilder.executeSequential].
  destruct (WorkflowBuilder.runStep s r) as [[| |e'] r1]; simpl in *; done.
Qed.

Lemma onSuccess_failure_is_a_step_failure_witness :
  WorkflowBuilder.executeSequential
    [Examples.rejectingCallback; Examples.succeeding "B"] (Examples.freshRun 0)
  = WorkflowBuilder.executeSequential [Examples.rejectingCallback] (Examples.freshRun 0) ∧
  JsMap.get "notify"
    (WorkflowBuilder.results
       (WorkflowBuilder.executeSequential
          [Examples.rejectingCallback; Examples.succeeding "B"]
          (Examples.freshRun 0)).2)
  = Some (JString "sent") ∧
  JsMap.get "notify"
    (WorkflowBuilder.errors
       (WorkflowBuilder.executeSequential
          [Examples.rejectingCallback; Examples.succeeding "B"]
          (Examples.freshRun 0)).2)
  = Some "callback failed".
Proof.
  apply (onSuccess_failure_is_a_step_failure Examples.rejectingCallback 0
           (JString "sent") (λ _, Throw "callback failed") "callback failed"
           [Examples.succeeding "B"] (Examples.freshRun 0)).
  - reflexivity.
  - unfold Outcome.succeedsAt. split; [|split].
    + cbn. lia.
    + intros j Hj. lia.
    + reflexivity.
  - reflexivity.
  - reflexivity.
Defined.

(** ** WorkflowBuilder: the parallel policy accounts for every step *)

Section ParallelRecords.
Import WorkflowBuilder Engine Outcome.
























End ParallelRecords.



(** ** WorkflowBuilder: the map of workflows *)

Section Builder.
Import WorkflowBuilder Outcome.

Lemma JsMap_keys_get {V : Type} (k : string) (m : JsMap.t V) :
  k ∈ JsMap.keys m ↔ is_Some (JsMap.get k m).
Proof.
  unfold JsMap.keys, JsMap.get. induction m as [|[k' v'] m IH]; simpl.
  - split; [by intros ?%elem_of_nil|by intros [? ?]].
  - rewrite elem_of_cons, IH. case_bool_decide; subst; split; eauto.
    intros [->|?]; done.
Qed.

Lemma JsMap_keys_set {V : Type} (k : string) (v : V) (m : JsMap.t V) :
  JsMap.keys (JsMap.set k v m)
  = if JsMap.has k m then JsMap.keys m else JsMap.keys m ++ [k].
Proof.
  unfold JsMap.has, JsMap.keys, JsMap.get. induction m as [|[k' v'] m IH]; simpl.
  - done.
  - destruct (bool_decide (k' = k)) eqn:Hk; simpl.
    + done.
    + change (k' :: (JsMap.set k v m).*1
              = if bool_decide (is_Some (assoc k m))
                then k' :: m.*1 else k' :: m.*1 ++ [k]).
      rewrite IH. by destruct (bool_decide (is_Some (assoc k m))).
Qed.

Lemma JsMap_keys_set_NoDup {V : Type} (k : string) (v : V) (m : JsMap.t V) :
  NoDup (JsMap.keys m) → NoDup (JsMap.keys (JsMap.set k v m)).
Proof.
  intros Hnd. rewrite JsMap_keys_set. unfold JsMap.has.
  case_bool_decide as Hk; [done|].
  apply NoDup_app. split_and!; [done| |apply NoDup_singleton].
  intros x Hx ->%list_elem_of_singleton. by apply Hk, JsMap_keys_get.
Qed.

(** What an update of the workflow stored under [name] preserves. *)
Lemma update_invariant name w (b : WorkflowBuilder.t) :
  Workflow.name w = name →
  (NoDup (listWorkflows b) ∧
   ∀ k w', getWorkflow k b = Some w' → Workflow.name w' = k) →
  NoDup (listWorkflows (JsMap.set name w b)) ∧
  ∀ k w', getWorkflow k (JsMap.set name w b) = Some w' → Workflow.name w' = k.
Proof.
  intros Hname [Hnd Hnames]. split.
  - by apply JsMap_keys_set_NoDup.
  - intros k w'. unfold getWorkflow. rewrite JsMap_get_set_cases.
    case_bool_decide as Hk; [|apply Hnames]. by intros [= <-]; subst.
Qed.

Lemma built_invariant b :
  built b →
  NoDup (listWorkflows b) ∧
  ∀ k w, getWorkflow k b = Some w → Workflow.name w = k.
Proof.
  induction 1 as [|now name b _ IH|name step b _ IH|name parallel b _ IH].
  - split; [apply NoDup_nil_2|]. by intros k w.
  - by apply update_invariant.
  - unfold addStep. destruct (JsMap.get name b) as [w|] eqn:Hget; [|done].
    apply update_invariant; [|done]. simpl. by apply (proj2 IH).
  - unfold setParallel. destruct (JsMap.get name b) as [w|] eqn:Hget; [|done].
    apply update_invariant; [|done]. simpl. by apply (proj2 IH).
Qed.

End Builder.

(** X17. A workflow that was just created runs nothing and reports success
    with empty maps and duration 0. This also holds when the name was
    already in use: [createWorkflow] replaces the workflow and discards the
    steps added before. *)
Theorem created_workflow_is_empty
    (workflows : WorkflowBuilder.t) (name : string) (created now : Z) :
  WorkflowBuilder.execute
    (WorkflowBuilder.createWorkflow created name workflows) name now
  = Some (Normal
            {| WorkflowBuilder.result :=
                 {| WorkflowResult.success := true;
                    WorkflowResult.results := JsMap.empty;
                    WorkflowResult.errors := JsMap.empty;
                    WorkflowResult.duration := 0 |};
               WorkflowBuilder.events := [] |}).
Proof.
  unfold WorkflowBuilder.execute, WorkflowBuilder.createWorkflow.
  rewrite JsMap_get_set. simpl. by rewrite Z.sub_diag.
Qed.

(** X18. The three updates of a builder are local to the workflow they
    name: after [createWorkflow], [addStep] or [setParallel] under one
    name, [getWorkflow] returns for every other name what it returned
    before. *)
Theorem builder_updates_are_local
    (workflows : WorkflowBuilder.t) (name other : string)
    (now : Z) (step : WorkflowStep.t) (parallel : bool) :
  other ≠ name →
  WorkflowBuilder.getWorkflow other (WorkflowBuilder.createWorkflow now name workflows)
  = WorkflowBuilder.getWorkflow other workflows ∧
  WorkflowBuilder.getWorkflow other (WorkflowBuilder.addStep name step workflows)
  = WorkflowBuilder.getWorkflow other workflows ∧
  WorkflowBuilder.getWorkflow other (WorkflowBuilder.setParallel name parallel workflows)
  = WorkflowBuilder.getWorkflow other workflows.
Proof.
  intros Hne.
  unfold WorkflowBuilder.getWorkflow, WorkflowBuilder.createWorkflow,
    WorkflowBuilder.addStep, WorkflowBuilder.setParallel.
  destruct (JsMap.get name workflows);
    rewrite ?JsMap_get_set_cases, ?bool_decide_eq_false_2 by done; done.
Qed.

Lemma builder_updates_are_local_witness :
  WorkflowBuilder.getWorkflow "graph"
    (WorkflowBuilder.createWorkflow 0 "other"
       (Engine.workflowOf false Examples.dependentNodes))
  = WorkflowBuilder.getWorkflow "graph" (Engine.workflowOf false Examples.dependentNodes) ∧
  WorkflowBuilder.getWorkflow "graph"
    (WorkflowBuilder.addStep "other" (Examples.succeeding "C")
       (Engine.workflowOf false Examples.dependentNodes))
  = WorkflowBuilder.getWorkflow "graph" (Engine.workflowOf false Examples.dependentNodes) ∧
  WorkflowBuilder.getWorkflow "graph"
    (WorkflowBuilder.setParallel "other" true
       (Engine.workflowOf false Examples.dependentNodes))
  = WorkflowBuilder.getWorkflow "graph" (Engine.workflowOf false Examples.dependentNodes).
Proof.
  apply (builder_updates_are_local
           (Engine.workflowOf false Examples.dependentNodes) "other" "graph" 0
           (Examples.succeeding "C") true).
  discriminate.
Defined.

(** X19. In every builder obtained from the empty one by [createWorkflow],
    [addStep] and [setParallel], [listWorkflows] names no workflow twice,
    names exactly the workflows that [getWorkflow] finds, and each workflow
    is stored under its own name. *)
Theorem built_workflows_are_consistent (b : WorkflowBuilder.t) :
  Outcome.built b →
  NoDup (WorkflowBuilder.listWorkflows b) ∧
  (∀ name, name ∈ WorkflowBuilder.listWorkflows b ↔
           is_Some (WorkflowBuilder.getWorkflow name b)) ∧
  ∀ name w, WorkflowBuilder.getWorkflow name b = Some w → Workflow.name w = name.
Proof.
  intros Hb. destruct (built_invariant b Hb) as [Hnd Hnames].
  split_and!; auto. intros name. apply JsMap_keys_get.
Qed.

Lemma built_workflows_are_consistent_witness :
  Outcome.built
    (WorkflowBuilder.addStep "ci" (Examples.succeeding "lint")
       (WorkflowBuilder.createWorkflow 0 "ci" JsMap.empty)) ∧
  NoDup (WorkflowBuilder.listWorkflows
           (WorkflowBuilder.addStep "ci" (Examples.succeeding "lint")
              (WorkflowBuilder.createWorkflow 0 "ci" JsMap.empty))) ∧
  (∀ name,
     name ∈ WorkflowBuilder.listWorkflows
              (WorkflowBuilder.addStep "ci" (Examples.succeeding "lint")
                 (WorkflowBuilder.createWorkflow 0 "ci" JsMap.empty)) ↔
     is_Some (WorkflowBuilder.getWorkflow name
                (WorkflowBuilder.addStep "ci" (Examples.succeeding "lint")
                   (WorkflowBuilder.createWorkflow 0 "ci" JsMap.empty)))) ∧
  ∀ name w,
    WorkflowBuilder.getWorkflow name
      (WorkflowBuilder.addStep "ci" (Examples.succeeding "lint")
         (WorkflowBuilder.createWorkflow 0 "ci" JsMap.empty)) = Some w →
    Workflow.name w = name.
Proof.
  assert (Hb : Outcome.built
                 (WorkflowBuilder.addStep "ci" (Examples.succeeding "lint")
                    (WorkflowBuilder.createWorkflow 0 "ci" JsMap.empty))).
  { apply Outcome.built_addStep, Outcome.built_createWorkflow, Outcome.built_new. }
  split; [exact Hb|].
  exact (built_workflows_are_consistent _ Hb).
Defined.

(** ** Orchestrator: what each mode runs *)

Section Modes.
Import AiCodeOrchestrator Utilities.
Variable config : OrchestratorConfig.t.
Variable tools : Tools.t.
Variable now : Z.
Hypothesis tools_reliable : reliable tools.

Lemma reliable_sync a : completion (Tools.sync tools a) = Normal (valueOf (Tools.sync tools a)).
Proof using tools_reliable. apply (tools_reliable a). Qed.

Lemma reliable_configure a :
  completion (Tools.configure tools a) = Normal (valueOf (Tools.configure tools a)).
Proof using tools_reliable. apply (tools_reliable a). Qed.

Lemma reliable_initialize a :
  completion (Tools.initialize tools a) = Normal (valueOf (Tools.initialize tools a)).
Proof using tools_reliable. apply (tools_reliable a). Qed.

Lemma reliable_process a :
  completion (Tools.process tools a) = Normal (valueOf (Tools.process tools a)).
Proof using tools_reliable. apply (tools_reliable a). Qed.

Lemma reliable_repair a :
  completion (Tools.repair tools a) = Normal (valueOf (Tools.repair tools a)).
Proof using tools_reliable. apply (tools_reliable a). Qed.

Lemma reliable_fix a :
  completion (Tools.fix_ tools a) = Normal (valueOf (Tools.fix_ tools a)).
Proof using tools_reliable. apply (tools_reliable a). Qed.

Lemma reliable_test a :
  completion (Tools.test tools a) = Normal (valueOf (Tools.test tools a)).
Proof using tools_reliable. apply (tools_reliable a). Qed.

Lemma reliable_generate a :
  completion (Tools.generate tools a) = Normal (valueOf (Tools.generate tools a)).
Proof using tools_reliable. apply (tools_reliable a). Qed.

Lemma reliable_deploy a :
  completion (Tools.deploy tools a) = Normal (valueOf (Tools.deploy tools a)).
Proof using tools_reliable. apply (tools_reliable a). Qed.

End Modes.

#[local] Ltac run_mode Hmode Hrel :=
  unfold AiCodeOrchestrator.orchestrate, AiCodeOrchestrator.dispatch;
  rewrite Hmode;
  unfold AiCodeOrchestrator.runFullAutomation, AiCodeOrchestrator.runDevelopmentMode,
    AiCodeOrchestrator.runCIMode, AiCodeOrchestrator.runDeploymentMode,
    AiCodeOrchestrator.runAutoSync, AiCodeOrchestrator.runAutoConfig,
    AiCodeOrchestrator.runAnalysis, AiCodeOrchestrator.runAutoRepair,
    AiCodeOrchestrator.runAutoFix, AiCodeOrchestrator.runAutoTest,
    AiCodeOrchestrator.runAutoComments, AiCodeOrchestrator.runAutoDeploy,
    AiCodeOrchestrator.call, AiCodeOrchestrator.setPhase, AiCodeOrchestrator.prop,
    AiCodeOrchestrator.throw, AiCodeOrchestrator.target,
    mbind, mret, AiCodeOrchestrator.orch_bind, AiCodeOrchestrator.orch_ret;
  cbn beta iota zeta delta [fst snd AiCodeOrchestrator.clock AiCodeOrchestrator.calls
                            AiCodeOrchestrator.phases];
  rewrite ?(reliable_sync _ Hrel), ?(reliable_configure _ Hrel),
    ?(reliable_initialize _ Hrel), ?(reliable_process _ Hrel),
    ?(reliable_repair _ Hrel), ?(reliable_fix _ Hrel), ?(reliable_test _ Hrel),
    ?(reliable_generate _ Hrel), ?(reliable_deploy _ Hrel).

(** X20. In full mode, when no utility rejects, the run reports success
    whatever the phases report, failing tests included. It calls sync,
    configure, initialize, process, repair, fix, test and generate in that
    order on the target, and deploy after them exactly when a non-empty
    deploy platform is configured; the phases are recorded in that order,
    the config phase always as success. *)
Theorem full_mode_runs_every_phase
    (config : OrchestratorConfig.t) (tools : Tools.t) (now : Z) :
  OrchestratorConfig.mode config = "full" → Utilities.reliable tools →
  ∃ result events,
    AiCodeOrchestrator.orchestrate config tools now = (result, events) ∧
    OrchestratorResult.success result = true ∧
    events
    = map (λ method, Called method (OrchestratorConfig.target config))
          ["sync"; "configure"; "initialize"; "process"; "repair"; "fix"; "test";
           "generate"]
      ++ (if Utilities.deploys config
          then [Called "deploy" (Utilities.platform config)] else []) ∧
    JsMap.keys (OrchestratorResult.phases result)
    = ["sync"; "config"; "analysis"; "repair"; "fix"; "test"; "comments"]
      ++ (if Utilities.deploys config then ["deploy"] else []) ∧
    JsMap.get "config" (OrchestratorResult.phases result)
    = Some (JObject [("success", JBool true)]) ∧
    JsMap.get "test" (OrchestratorResult.phases result)
    = Some (Utilities.valueOf (Tools.test tools (OrchestratorConfig.target config))).
Proof.
  intros Hmode Hrel. run_mode Hmode Hrel.
  unfold Utilities.deploys, Utilities.platform.
  destruct (OrchestratorConfig.deployPlatform config) as [platform|]; simpl.
  - case_bool_decide; simpl.
    + eexists _, _. split; [reflexivity|]. simpl. split_and!; reflexivity.
    + rewrite ?(reliable_deploy _ Hrel). simpl.
      eexists _, _. split; [reflexivity|]. simpl.
      rewrite ?bool_decide_eq_false_2 by done. split_and!; reflexivity.
  - eexists _, _. split; [reflexivity|]. simpl. split_and!; reflexivity.
Qed.

Lemma failingTests_reliable : Utilities.reliable Examples.failingTests.
Proof. intros argument. repeat split. Defined.

Lemma passingTests_reliable : Utilities.reliable Examples.passingTests.
Proof. intros argument. repeat split. Defined.

Lemma full_mode_runs_every_phase_witness :
  ∃ result events,
    AiCodeOrchestrator.orchestrate (Examples.orchestratorConfig "full")
      Examples.failingTests 0 = (result, events) ∧
    OrchestratorResult.success result = true ∧
    events
    = map (λ method, Called method ".")
          ["sync"; "configure"; "initialize"; "process"; "repair"; "fix"; "test";
           "generate"] ++ [] ∧
    JsMap.keys (OrchestratorResult.phases result)
    = ["sync"; "config"; "analysis"; "repair"; "fix"; "test"; "comments"] ++ [] ∧
    JsMap.get "config" (OrchestratorResult.phases result)
    = Some (JObject [("success", JBool true)]) ∧
    JsMap.get "test" (OrchestratorResult.phases result)
    = Some (JObject [("success", JBool false)]).
Proof.
  apply (full_mode_runs_every_phase (Examples.orchestratorConfig "full")
           Examples.failingTests 0).
  - reflexivity.
  - exact failingTests_reliable.
Defined.

(** X21. In development mode, when no utility rejects, the run calls sync,
    initialize, process, repair, test and generate in that order, records
    no phase at all and reports success whatever the tests report. *)
Theorem development_mode_records_nothing
    (config : OrchestratorConfig.t) (tools : Tools.t) (now : Z) :
  OrchestratorConfig.mode config = "development" → Utilities.reliable tools →
  ∃ result events,
    AiCodeOrchestrator.orchestrate config tools now = (result, events) ∧
    OrchestratorResult.success result = true ∧
    OrchestratorResult.phases result = JsMap.empty ∧
    events
    = map (λ method, Called method (OrchestratorConfig.target config))
          ["sync"; "initialize"; "process"; "repair"; "test"; "generate"].
Proof.
  intros Hmode Hrel. run_mode Hmode Hrel.
  eexists _, _. split; [reflexivity|]. simpl. split_and!; reflexivity.
Qed.

Lemma development_mode_records_nothing_witness :
  ∃ result events,
    AiCodeOrchestrator.orchestrate (Examples.orchestratorConfig "development")
      Examples.failingTests 0 = (result, events) ∧
    OrchestratorResult.success result = true ∧
    OrchestratorResult.phases result = JsMap.empty ∧
    events
    = map (λ method, Called method ".")
          ["sync"; "initialize"; "process"; "repair"; "test"; "generate"].
Proof.
  apply (development_mode_records_nothing (Examples.orchestratorConfig "development")
           Examples.failingTests 0).
  - reflexivity.
  - exact failingTests_reliable.
Defined.

(** X22. In CI mode, when no utility rejects, the run calls initialize,
    process, repair and test and nothing else, records the phases analysis,
    repair and test, and its success is decided by the test result alone:
    it succeeds exactly when the test result reports success, whatever
    analysis and repair report, and otherwise reports one error. *)
Theorem ci_mode_follows_the_tests
    (config : OrchestratorConfig.t) (tools : Tools.t) (now : Z) :
  OrchestratorConfig.mode config = "ci" → Utilities.reliable tools →
  ∃ result events,
    AiCodeOrchestrator.orchestrate config tools now = (result, events) ∧
    OrchestratorResult.success result
    = Utilities.reportsSuccess
        (Utilities.valueOf (Tools.test tools (OrchestratorConfig.target config))) ∧
    JsMap.keys (OrchestratorResult.phases result) = ["analysis"; "repair"; "test"] ∧
    filter Utilities.isCall events
    = map (λ method, Called method (OrchestratorConfig.target config))
          ["initialize"; "process"; "repair"; "test"] ∧
    length events
    = (if OrchestratorResult.success result then 4 else 5)%nat.
Proof.
  intros Hmode Hrel. run_mode Hmode Hrel.
  unfold Utilities.reportsSuccess.
  destruct (getProp _ "success") as [x|e]; simpl.
  - destruct (truthy x); simpl;
      (eexists _, _; split; [reflexivity|]); simpl; split_and!; reflexivity.
  - eexists _, _. split; [reflexivity|]. simpl. split_and!; reflexivity.
Qed.

Lemma ci_mode_follows_the_tests_witness :
  ∃ result events,
    AiCodeOrchestrator.orchestrate (Examples.orchestratorConfig "ci")
      Examples.failingTests 0 = (result, events) ∧
    OrchestratorResult.success result
    = Utilities.reportsSuccess (JObject [("success", JBool false)]) ∧
    JsMap.keys (OrchestratorResult.phases result) = ["analysis"; "repair"; "test"] ∧
    filter Utilities.isCall events
    = map (λ method, Called method ".")
          ["initialize"; "process"; "repair"; "test"] ∧
    length events
    = (if OrchestratorResult.success result then 4 else 5)%nat.
Proof.
  apply (ci_mode_follows_the_tests (Examples.orchestratorConfig "ci")
           Examples.failingTests 0).
  - reflexivity.
  - exact failingTests_reliable.
Defined.

(** X23. In deployment mode, when no utility rejects, deploy is called
    exactly when the test result reports success, once, after the tests,
    for the configured platform or vercel when none is configured; the
    run succeeds in that case and only then. *)
Theorem deployment_mode_deploys_after_tests
    (config : OrchestratorConfig.t) (tools : Tools.t) (now : Z) :
  OrchestratorConfig.mode config = "deployment" → Utilities.reliable tools →
  ∃ result events,
    AiCodeOrchestrator.orchestrate config tools now = (result, events) ∧
    OrchestratorResult.success result
    = Utilities.reportsSuccess
        (Utilities.valueOf (Tools.test tools (OrchestratorConfig.target config))) ∧
    filter Utilities.isCall events
    = Called "test" (OrchestratorConfig.target config)
      :: (if OrchestratorResult.success result
          then [Called "deploy" (Utilities.platform config)] else []) ∧
    JsMap.keys (OrchestratorResult.phases result)
    = "test" :: (if OrchestratorResult.success result then ["deploy"] else []).
Proof.
  intros Hmode Hrel. run_mode Hmode Hrel.
  unfold Utilities.reportsSuccess, Utilities.platform.
  destruct (getProp _ "success") as [x|e]; simpl.
  - destruct (truthy x); simpl.
    + rewrite ?(reliable_deploy _ Hrel). simpl.
      eexists _, _. split; [reflexivity|]. simpl. split_and!; reflexivity.
    + eexists _, _. split; [reflexivity|]. simpl. split_and!; reflexivity.
  - eexists _, _. split; [reflexivity|]. simpl. split_and!; reflexivity.
Qed.

Lemma deployment_mode_deploys_after_tests_witness :
  ∃ result events,
    AiCodeOrchestrator.orchestrate (Examples.orchestratorConfig "deployment")
      Examples.passingTests 0 = (result, events) ∧
    OrchestratorResult.success result
    = Utilities.reportsSuccess (JObject [("success", JBool true)]) ∧
    filter Utilities.isCall events
    = Called "test" "."
      :: (if OrchestratorResult.success result
          then [Called "deploy" "vercel"] else []) ∧
    JsMap.keys (OrchestratorResult.phases result)
    = "test" :: (if OrchestratorResult.success result then ["deploy"] else []).
Proof.
  apply (deployment_mode_deploys_after_tests (Examples.orchestratorConfig "deployment")
           Examples.passingTests 0).
  - reflexivity.
  - exact passingTests_reliable.
Defined.

Section UnknownMode.
Import AiCodeOrchestrator.

#[local] Ltac walk_mode :=
  repeat (match goal with
          | |- context [match ?m with EmptyString => _ | String _ _ => _ end] =>
              is_var m; destruct m as [|[[] [] [] [] [] [] [] []] m]
          end; try reflexivity; try (exfalso; congruence)).

Lemma dispatch_unknown config tools :
  OrchestratorConfig.mode config ∉ ["full"; "development"; "ci"; "deployment"] →
  dispatch config tools = mret tt.
Proof.
  unfold dispatch. destruct config as [target mode watch interval platform]. simpl.
  intros Hmode.
  assert (H1 : mode ≠ "full") by (intros ->; apply Hmode; repeat constructor).
  assert (H2 : mode ≠ "development") by (intros ->; apply Hmode; repeat constructor).
  assert (H3 : mode ≠ "ci") by (intros ->; apply Hmode; repeat constructor).
  assert (H4 : mode ≠ "deployment") by (intros ->; apply Hmode; repeat constructor).
  clear Hmode. walk_mode.
Qed.

End UnknownMode.

(** X24. A mode other than full, development, ci and deployment is not
    rejected: the run calls no utility, records no phase and reports
    success, with duration 0. *)
Theorem unknown_mode_runs_nothing
    (config : OrchestratorConfig.t) (tools : Tools.t) (now : Z) :
  OrchestratorConfig.mode config ∉ ["full"; "development"; "ci"; "deployment"] →
  AiCodeOrchestrator.orchestrate config tools now
  = ({| OrchestratorResult.success := true;
        OrchestratorResult.phases := JsMap.empty;
        OrchestratorResult.duration := 0;
        OrchestratorResult.timestamp := now |}, []).
Proof.
  intros Hmode. unfold AiCodeOrchestrator.orchestrate.
  rewrite (dispatch_unknown config tools Hmode). simpl.
  by rewrite Z.sub_diag.
Qed.

Lemma unknown_mode_runs_nothing_witness :
  AiCodeOrchestrator.orchestrate (Examples.orchestratorConfig "production")
    Examples.failingTests 0
  = ({| OrchestratorResult.success := true;
        OrchestratorResult.phases := JsMap.empty;
        OrchestratorResult.duration := 0;
        OrchestratorResult.timestamp := 0 |}, []).
Proof.
  apply (unknown_mode_runs_nothing (Examples.orchestratorConfig "production")
           Examples.failingTests 0).
  apply (bool_decide_unpack _). vm_compute. exact I.
Defined.

(** ** AiCodeEngine: the automatic mode *)

Section AutoProcess.
Import AiCodeEngine.
Variable exec : FlowStep.t → AiCodeResult.t FlowStep.t.

(** The step ends the loop: it fails and is not optional. *)
#[local] Abbreviation halts s :=
  (negb (AiCodeResult.success (exec s)) && negb (FlowStep.optional s)).

Lemma runSteps_through pre rest :
  Forall (λ s, halts s = false) pre →
  runSteps exec (pre ++ rest) = map exec pre ++ runSteps exec rest.
Proof.
  induction pre as [|s pre IH]; intros Hpre; [done|].
  apply Forall_cons_1 in Hpre as [Hs Hpre]. simpl. rewrite Hs. simpl.
  by rewrite IH.
Qed.

Lemma runSteps_halts s rest :
  halts s = true → runSteps exec (s :: rest) = [exec s].
Proof. intros Hs. simpl. by rewrite Hs. Qed.

Lemma indexOfFrom_first v a i :
  v ∈ a →
  ∃ n : nat, a !! n = Some v ∧ indexOfFrom v a i = (i + Z.of_nat n)%Z.
Proof.
  revert i. induction a as [|x a IH]; intros i Hin; [by apply elem_of_nil in Hin|].
  simpl. case_bool_decide as Hx.
  - subst. exists 0%nat. split; [done|]. lia.
  - apply elem_of_cons in Hin as [->|Hin]; [done|].
    destruct (IH (i + 1)%Z Hin) as (n & Hn & Hidx).
    exists (S n). split; [done|]. lia.
Qed.

Lemma filterFrom_subset keep xs i v : v ∈ filterFrom keep xs i → v ∈ xs.
Proof.
  revert i. induction xs as [|x xs IH]; intros i; simpl; [done|].
  destruct (keep x i).
  - intros [->|Hin]%elem_of_cons; [apply list_elem_of_here|].
    apply list_elem_of_further. by eapply IH.
  - intros Hin. apply list_elem_of_further. by eapply IH.
Qed.

Lemma filterFrom_kept keep xs i (n : nat) v :
  xs !! n = Some v → keep v (i + Z.of_nat n)%Z = true →
  v ∈ filterFrom keep xs i.
Proof.
  revert i n. induction xs as [|x xs IH]; intros i n Hn Hkeep; [done|].
  destruct n as [|n]; simpl in *.
  - injection Hn as ->. replace (i + Z.of_nat 0)%Z with i in Hkeep by lia.
    rewrite Hkeep. apply list_elem_of_here.
  - assert (Hin : v ∈ filterFrom keep xs (i + 1)%Z).
    { apply (IH _ n); [done|]. by replace (i + 1 + Z.of_nat n)%Z with (i + Z.of_nat (S n))%Z by lia. }
    destruct (keep x i); [by apply list_elem_of_further|done].
Qed.

Lemma StronglySorted_NoDup {A : Type} (R : A → A → Prop) (l : list A) :
  (∀ x, ¬ R x x) → StronglySorted R l → NoDup l.
Proof.
  intros Hirr. induction 1 as [|x l _ IH Hall]; [apply NoDup_nil_2|].
  apply NoDup_cons_2; [|done].
  intros Hin. rewrite Forall_forall in Hall. by apply (Hirr x), Hall.
Qed.

Lemma filterFrom_sorted (a xs : list string) i :
  StronglySorted (λ u v, (indexOf u a < indexOf v a)%Z)
    (filterFrom (λ v i, bool_decide (indexOf v a = i)) xs i) ∧
  Forall (λ v, (i ≤ indexOf v a)%Z)
    (filterFrom (λ v i, bool_decide (indexOf v a = i)) xs i).
Proof.
  revert i. induction xs as [|x xs IH]; intros i; simpl.
  - split; constructor.
  - destruct (IH (i + 1)%Z) as [Hsorted Hlower].
    case_bool_decide as Hx.
    + split.
      * constructor; [done|].
        eapply Forall_impl; [exact Hlower|]. simpl. intros v Hv. lia.
      * constructor; [lia|].
        eapply Forall_impl; [exact Hlower|]. simpl. intros v Hv. lia.
    + split; [done|].
      eapply Forall_impl; [exact Hlower|]. simpl. intros v Hv. lia.
Qed.

End AutoProcess.

(** X25. The loop of [autoProcess] runs the steps in order and stops after
    the first step that fails without being optional: when no step before
    [s] ends the loop and [s] does, the results are those of the steps up
    to [s], the steps after [s] are not executed, and the overall success
    computed from the results is false. A failing optional step before [s]
    does not stop the loop. *)
Theorem autoProcess_stops_at_required_failure
    (exec : FlowStep.t → AiCodeResult.t FlowStep.t)
    (pre post : list FlowStep.t) (s : FlowStep.t) :
  Forall (λ q, AiCodeResult.success (exec q) = true ∨ FlowStep.optional q = true) pre →
  AiCodeResult.success (exec s) = false → FlowStep.optional s = false →
  AiCodeEngine.runSteps exec (pre ++ s :: post) = map exec (pre ++ [s]) ∧
  forallb (λ r, AiCodeResult.success r)
          (AiCodeEngine.runSteps exec (pre ++ s :: post)) = false.
Proof.
  intros Hpre Hfail Hrequired.
  assert (Hrun : AiCodeEngine.runSteps exec (pre ++ s :: post) = map exec (pre ++ [s])).
  { rewrite runSteps_through.
    - rewrite runSteps_halts by (by rewrite Hfail, Hrequired). by rewrite map_app.
    - eapply Forall_impl; [exact Hpre|]. simpl. intros q [-> | ->]; [done|].
      apply andb_false_r. }
  split; [done|]. rewrite Hrun, map_app, forallb_app. simpl.
  rewrite Hfail. simpl. apply andb_false_r.
Qed.

Lemma autoProcess_stops_at_required_failure_witness :
  AiCodeEngine.runSteps (Examples.failingAt "analyze")
    ([Examples.flowStep "sync" []]
       ++ Examples.flowStep "analyze" ["sync"] :: [Examples.flowStep "test" ["analyze"]])
  = map (Examples.failingAt "analyze")
        ([Examples.flowStep "sync" []] ++ [Examples.flowStep "analyze" ["sync"]]) ∧
  forallb (λ r, AiCodeResult.success r)
    (AiCodeEngine.runSteps (Examples.failingAt "analyze")
       ([Examples.flowStep "sync" []]
          ++ Examples.flowStep "analyze" ["sync"]
             :: [Examples.flowStep "test" ["analyze"]])) = false.
Proof.
  apply (autoProcess_stops_at_required_failure (Examples.failingAt "analyze")
           [Examples.flowStep "sync" []] [Examples.flowStep "test" ["analyze"]]
           (Examples.flowStep "analyze" ["sync"])).
  - apply Forall_cons_2; [left; reflexivity|apply Forall_nil_2].
  - reflexivity.
  - reflexivity.
Defined.

(** X26. When no step fails without being optional, the loop of
    [autoProcess] executes every step of the flow, in order. *)
Theorem autoProcess_runs_every_step
    (exec : FlowStep.t → AiCodeResult.t FlowStep.t) (steps : list FlowStep.t) :
  Forall (λ q, AiCodeResult.success (exec q) = true ∨ FlowStep.optional q = true) steps →
  AiCodeEngine.runSteps exec steps = map exec steps.
Proof.
  intros Hsteps.
  rewrite <- (app_nil_r steps) at 1. rewrite runSteps_through.
  - simpl. by rewrite app_nil_r.
  - eapply Forall_impl; [exact Hsteps|]. simpl. intros q [-> | ->]; [done|].
    apply andb_false_r.
Qed.

Lemma autoProcess_runs_every_step_witness :
  AiCodeEngine.runSteps (Examples.failingAt "deploy") (Flow.steps Examples.orderedFlow)
  = map (Examples.failingAt "deploy") (Flow.steps Examples.orderedFlow).
Proof.
  apply (autoProcess_runs_every_step (Examples.failingAt "deploy")
           (Flow.steps Examples.orderedFlow)).
  simpl. repeat (apply Forall_cons_2; [left; reflexivity|]). apply Forall_nil_2.
Defined.

(** X27. [aggregateSuggestions] returns exactly the suggestions of the
    results, each one once, in the order of their first occurrence. *)
Theorem aggregateSuggestions_first_occurrences
    {D : Type} (results : list (AiCodeResult.t D)) :
  let all := flat_map (λ r, default [] (AiCodeResult.suggestions r)) results in
  (∀ v, v ∈ AiCodeEngine.aggregateSuggestions results ↔ v ∈ all) ∧
  NoDup (AiCodeEngine.aggregateSuggestions results) ∧
  StronglySorted
    (λ u v, (AiCodeEngine.indexOf u all < AiCodeEngine.indexOf v all)%Z)
    (AiCodeEngine.aggregateSuggestions results).
Proof.
  intros all. unfold AiCodeEngine.aggregateSuggestions. fold all.
  destruct (filterFrom_sorted all all 0) as [Hsorted _].
  split_and!; [| |done].
  - intros v. split; [apply filterFrom_subset|].
    intros Hin. destruct (indexOfFrom_first v all 0 Hin) as (n & Hn & Hidx).
    apply (filterFrom_kept _ _ _ n); [done|]. by apply bool_decide_eq_true_2.
  - eapply StronglySorted_NoDup; [|exact Hsorted]. simpl. intros x. lia.
Qed.

(** X28. The automatic mode of the engine needs an initialised flow
    builder: without one, [process] does not throw but returns a failed
    result whose only error is 'Flow Builder not initialized'. With one,
    for every target, it executes every step of the automatic flow in
    order, each result handing its step back, and returns success with no
    suggestion. *)
Theorem process_auto_mode (now : Z) (b : FlowBuilder.t) (target : string) :
  AiCodeEngine.processAuto target FlowBuilder.new
  = {| AiCodeResult.success := false;
       AiCodeResult.data := None;
       AiCodeResult.errors := Some ["Flow Builder not initialized"];
       AiCodeResult.warnings := None;
       AiCodeResult.suggestions := None |} ∧
  ∃ flow,
    FlowBuilder.buildAutoFlow target (FlowBuilder.initialize now b) = Normal flow ∧
    AiCodeEngine.processAuto target (FlowBuilder.initialize now b)
    = {| AiCodeResult.success := true;
         AiCodeResult.data :=
           Some {| AutoData.flow := flow;
                   AutoData.results :=
                     map (λ step,
                            {| AiCodeResult.success := true;
                               AiCodeResult.data := Some step;
                               AiCodeResult.errors := None;
                               AiCodeResult.warnings := None;
                               AiCodeResult.suggestions := None |})
                         (Flow.steps flow) |};
         AiCodeResult.errors := None;
         AiCodeResult.warnings := None;
         AiCodeResult.suggestions := Some [] |}.
Proof.
  split; [reflexivity|].
  unfold AiCodeEngine.processAuto, AiCodeEngine.autoProcess,
    AiCodeEngine.autoProcessWith, FlowBuilder.buildAutoFlow.
  change (JsMap.get "auto" (FlowBuilder.flows (FlowBuilder.initialize now b)))
    with (FlowBuilder.getFlow "auto" (FlowBuilder.initialize now b)).
  rewrite getFlow_initialize. simpl.
  eexists. split; reflexivity.
Qed.

(** ** WorkflowBuilder: a step that succeeds under the parallel policy *)

Section ParallelIsolation.
Import WorkflowBuilder Engine Outcome.














Variable s : WorkflowStep.t.
Variable k : Z.
Variable v : JsValue.
Hypothesis s_enabled : enabled s = true.
Hypothesis s_succeeds : succeedsAt s k v.
Hypothesis s_callback : callbackAccepts s v.









End ParallelIsolation.


